(** * fuzzy-engine: a shallow embedding of the Mamdani inference engine

    The development follows the four source files of the library:
    [membership.ts] (curve factories), [operators.ts] (T-norms, S-norms,
    sampling-based set comparisons), [defuzzification.ts] (the five
    defuzzifiers) and [engine.ts] (the [FuzzyEngine] class).

    Modelling conventions.
    - A JavaScript [number] is an exact rational ([Q]); arithmetic is exact
      and results are compared with [==].  Rounding, [NaN] and the
      infinities are not represented.  The one place where the source can
      leave the rationals on rational inputs is the division by
      [resolution]; the model answers [NonFinite] there.
    - A [for (let x = min; x <= max; x += step)] loop is a fuelled
      recursion; [OutOfFuel] means that the loop ran for more iterations
      than the fuel it was given.
    - A plain object used as a dictionary ([FuzzySet], [RuleCondition],
      the [inputs] record, ...) is the list of its own entries in
      [Object.entries] order; [obj_get] is property lookup among them and
      [obj_set] is assignment (replace in place, else append).  Properties
      inherited from [Object.prototype] and the numeric-keys-first ordering
      of [Object.entries] are not represented; results of [evaluate] are
      compared as mappings, not as key sequences.
    - Variadic calls [op(...values)] are only made on non-empty arrays in
      the engine; the first value is passed apart.  The array form of an
      antecedent is non-empty, as the data model asks.
    - The registry [Map<string, Variable>] is a [gmap string EngineVariable].
    - A thrown [Error] is a value of [RuleError]; methods that mutate
      [this] and may throw return the engine as it is left together with
      the error or the result. *)

From stdpp Require Import gmap strings list.
From Stdlib Require Import QArith Qminmax Qabs Qround Lqa Lia Permutation.

Open Scope Q_scope.

(* ===================================================================== *)
(** * Numbers, outcomes and loops *)
(* ===================================================================== *)

(** [x > y] on numbers, as a boolean. *)
Definition Qgtb (x y : Q) : bool := negb (Qle_bool x y).

(** [x < y] on numbers, as a boolean. *)
Definition Qltb (x y : Q) : bool := negb (Qle_bool y x).

(** What a call of a sampling function amounts to. *)
Inductive outcome (A : Type) : Type :=
| Returns (a : A)
| OutOfFuel
| NonFinite.

Arguments Returns {A} a.
Arguments OutOfFuel {A}.
Arguments NonFinite {A}.

#[global] Instance outcome_bind : MBind outcome := fun A B k m =>
  match m with
  | Returns a => k a
  | OutOfFuel => OutOfFuel
  | NonFinite => NonFinite
  end.

#[global] Instance outcome_ret : MRet outcome := @Returns.

#[global] Instance outcome_fmap : FMap outcome := fun A B f m =>
  match m with
  | Returns a => Returns (f a)
  | OutOfFuel => OutOfFuel
  | NonFinite => NonFinite
  end.

(** [for (let x = x0; x <= max; x += step) body]: the body either updates
    the loop state ([inl]) or leaves the function with [return r] ([inr]). *)
Fixpoint forUp {S R : Type} (fuel : nat) (max step : Q)
    (body : Q -> S -> S + R) (x : Q) (s : S) : outcome (S + R) :=
  if Qle_bool x max then
    match fuel with
    | O => OutOfFuel
    | Datatypes.S fuel' =>
        match body x s with
        | inl s' => forUp fuel' max step body (x + step) s'
        | inr r => Returns (inr r)
        end
    end
  else Returns (inl s).

(** [for (let x = x0; x >= min; x -= step) body]. *)
Fixpoint forDown {S R : Type} (fuel : nat) (min step : Q)
    (body : Q -> S -> S + R) (x : Q) (s : S) : outcome (S + R) :=
  if Qle_bool min x then
    match fuel with
    | O => OutOfFuel
    | Datatypes.S fuel' =>
        match body x s with
        | inl s' => forDown fuel' min step body (x - step) s'
        | inr r => Returns (inr r)
        end
    end
  else Returns (inl s).

(** [const step = (max - min) / resolution]. A zero resolution makes the
    quotient an infinity or [NaN]. *)
Definition sampleStep (min max resolution : Q) : outcome Q :=
  if Qeq_bool resolution 0 then NonFinite
  else Returns ((max - min) / resolution).

(** The literals [1e-10] and [1e-6] of the source. *)
Definition tenth_nano : Q := 1 # 10000000000.
Definition millionth : Q := 1 # 1000000.

(** [values.reduce((a, b) => a + b, 0)] *)
Definition Qsum (values : list Q) : Q := fold_left Qplus values 0.

(** [Math.min(v, ...vs)] and [Math.max(v, ...vs)] on at least one argument. *)
Definition mathMin (v : Q) (vs : list Q) : Q := fold_left Qmin vs v.
Definition mathMax (v : Q) (vs : list Q) : Q := fold_left Qmax vs v.

(* ===================================================================== *)
(** * Plain objects as dictionaries *)
(* ===================================================================== *)

Section Objects.
Context {A : Type}.

(** [o[k]] *)
Fixpoint obj_get (k : string) (o : list (string * A)) : option A :=
  match o with
  | [] => None
  | (k', v) :: o' => if String.eqb k k' then Some v else obj_get k o'
  end.

(** [o[k] = v] *)
Fixpoint obj_set (k : string) (v : A) (o : list (string * A)) : list (string * A) :=
  match o with
  | [] => [(k, v)]
  | (k', v') :: o' =>
      if String.eqb k k' then (k, v) :: o' else (k', v') :: obj_set k v o'
  end.

End Objects.

(* ===================================================================== *)
(** * types.ts *)
(* ===================================================================== *)

Definition MembershipFunction : Type := Q -> Q.

Definition FuzzySet : Type := list (string * MembershipFunction).

(** [string | string[]]: one term, or an array of terms read as their OR.
    The array is kept as its first element and the rest, the data model
    asking for a non-empty list. *)
Inductive Terms : Type :=
| OneTerm (term : string)
| TermArray (term : string) (more : list string).

Definition RuleCondition : Type := list (string * Terms).
Definition RuleConsequence : Type := list (string * string).

Record FuzzyRule : Type := mkRule {
  rule_if : RuleCondition;
  rule_then : RuleConsequence;
  rule_weight : option Q;
  rule_description : option string
}.

Record DefuzzifyOptions : Type := mkOptions {
  opt_min : Q;
  opt_max : Q;
  opt_resolution : option Q
}.

Record FuzzificationResult : Type := mkFuzzification {
  fz_variable : string;
  fz_value : Q;
  fz_memberships : list (string * Q)
}.

Record Contribution : Type := mkContribution {
  c_term : string;
  c_strength : Q
}.

Record RuleEvaluationResult : Type := mkRuleEvaluation {
  re_rule : FuzzyRule;
  re_firingStrength : Q;
  re_outputContributions : list (string * Contribution)
}.

Record EvaluationResult : Type := mkEvaluation {
  ev_outputs : list (string * Q);
  ev_fuzzification : list FuzzificationResult;
  ev_ruleEvaluations : list RuleEvaluationResult;
  ev_aggregatedOutputs : list (string * MembershipFunction)
}.

(* ===================================================================== *)
(** * membership.ts *)
(* ===================================================================== *)

Module Membership.

Inductive ShapeError : Type :=
| TriangularOrder.   (* 'Triangular MF requires a <= b <= c' *)

Definition triangular (a b c : Q) : ShapeError + MembershipFunction :=
  if Qgtb a b || Qgtb b c then inl TriangularOrder
  else inr (fun x : Q =>
    if Qle_bool x a || Qle_bool c x then 0
    else if Qeq_bool x b then 1
    else if Qltb x b then (x - a) / (b - a)
    else (c - x) / (c - b)).

End Membership.

(* ===================================================================== *)
(** * operators.ts *)
(* ===================================================================== *)

Module Operators.

Definition tNormMin (v : Q) (vs : list Q) : Q := mathMin v vs.

Definition tNormProduct (values : list Q) : Q :=
  fold_left (fun acc val => acc * val) values 1.

Definition sNormMax (v : Q) (vs : list Q) : Q := mathMax v vs.

Definition sNormSum (values : list Q) : Q :=
  fold_left (fun acc val => acc + val - acc * val) values 0.

Definition sNormProbor := sNormSum.

(** The operators are only ever applied to at least one value; the first
    is passed apart so that [Math.min] and [Math.max] stay defined. *)
Definition getAndOperator (method : string) : Q -> list Q -> Q :=
  if String.eqb method "min" then tNormMin
  else if String.eqb method "product" then (fun v vs => tNormProduct (v :: vs))
  else tNormMin.

Definition getOrOperator (method : string) : Q -> list Q -> Q :=
  if String.eqb method "max" then sNormMax
  else if String.eqb method "sum" then (fun v vs => sNormSum (v :: vs))
  else if String.eqb method "probor" then (fun v vs => sNormProbor (v :: vs))
  else sNormMax.

Definition isSubset (fuel : nat) (mfA mfB : MembershipFunction)
    (range : Q * Q) (resolution : Q) : outcome bool :=
  let '(min, max) := range in
  step ← sampleStep min max resolution;
  r ← forUp fuel max step
         (fun x (_ : unit) =>
            if Qgtb (mfA x) (mfB x + tenth_nano) then inr false else inl tt)
         min tt;
  match r with
  | inr b => Returns b
  | inl _ => Returns true
  end.

Definition isEqual (fuel : nat) (mfA mfB : MembershipFunction)
    (range : Q * Q) (resolution : Q) (tolerance : Q) : outcome bool :=
  let '(min, max) := range in
  step ← sampleStep min max resolution;
  r ← forUp fuel max step
         (fun x (_ : unit) =>
            if Qgtb (Qabs (mfA x - mfB x)) tolerance then inr false else inl tt)
         min tt;
  match r with
  | inr b => Returns b
  | inl _ => Returns true
  end.

(** The defaults of the optional parameters. *)
Definition defaultResolution : Q := 100.
Definition defaultTolerance : Q := millionth.

End Operators.

(* ===================================================================== *)
(** * defuzzification.ts *)
(* ===================================================================== *)

Module Defuzzification.

(** [const { min, max, resolution = 100 } = options] *)
Definition resolutionOf (options : DefuzzifyOptions) : Q :=
  match opt_resolution options with
  | Some r => r
  | None => 100
  end.

Definition centroid (fuel : nat) (mf : MembershipFunction)
    (options : DefuzzifyOptions) : outcome Q :=
  let min := opt_min options in
  let max := opt_max options in
  step ← sampleStep min max (resolutionOf options);
  r ← forUp fuel max step
         (fun x '(sumWeighted, sumMembership) =>
            let mu := mf x in
            inl (sumWeighted + x * mu, sumMembership + mu))
         min (0, 0);
  match r with
  | inr v => Returns v
  | inl (sumWeighted, sumMembership) =>
      if Qeq_bool sumMembership 0 then Returns ((min + max) / 2)
      else Returns (sumWeighted / sumMembership)
  end.

Definition bisector (fuel : nat) (mf : MembershipFunction)
    (options : DefuzzifyOptions) : outcome Q :=
  let min := opt_min options in
  let max := opt_max options in
  step ← sampleStep min max (resolutionOf options);
  r ← forUp fuel max step
         (fun x totalArea => inl (totalArea + mf x * step))
         min 0;
  match r with
  | inr v => Returns v
  | inl totalArea =>
      if Qeq_bool totalArea 0 then Returns ((min + max) / 2)
      else
        let halfArea := totalArea / 2 in
        r' ← forUp fuel max step
                (fun x accumulatedArea =>
                   let accumulatedArea := accumulatedArea + mf x * step in
                   if Qle_bool halfArea accumulatedArea then inr x
                   else inl accumulatedArea)
                min 0;
        match r' with
        | inr x => Returns x
        | inl _ => Returns max
        end
  end.

Definition meanOfMaximum (fuel : nat) (mf : MembershipFunction)
    (options : DefuzzifyOptions) : outcome Q :=
  let min := opt_min options in
  let max := opt_max options in
  step ← sampleStep min max (resolutionOf options);
  r ← forUp fuel max step
         (fun x '(maxMembership, maxPoints) =>
            let mu := mf x in
            if Qgtb mu maxMembership then inl (mu, [x])
            else if Qltb (Qabs (mu - maxMembership)) tenth_nano
                 then inl (maxMembership, maxPoints ++ [x])
                 else inl (maxMembership, maxPoints))
         min (0, []);
  match r with
  | inr v => Returns v
  | inl (_, maxPoints) =>
      match maxPoints with
      | [] => Returns ((min + max) / 2)
      | _ => Returns (Qsum maxPoints / inject_Z (Z.of_nat (length maxPoints)))
      end
  end.

Definition smallestOfMaximum (fuel : nat) (mf : MembershipFunction)
    (options : DefuzzifyOptions) : outcome Q :=
  let min := opt_min options in
  let max := opt_max options in
  step ← sampleStep min max (resolutionOf options);
  r ← forUp fuel max step
         (fun x '(maxMembership, smallestMax) =>
            let mu := mf x in
            if Qgtb mu maxMembership then inl (mu, x)
            else inl (maxMembership, smallestMax))
         min (0, min);
  match r with
  | inr v => Returns v
  | inl (_, smallestMax) => Returns smallestMax
  end.

Definition largestOfMaximum (fuel : nat) (mf : MembershipFunction)
    (options : DefuzzifyOptions) : outcome Q :=
  let min := opt_min options in
  let max := opt_max options in
  step ← sampleStep min max (resolutionOf options);
  r ← forDown fuel min step
         (fun x '(maxMembership, largestMax) =>
            let mu := mf x in
            if Qgtb mu maxMembership then inl (mu, x)
            else inl (maxMembership, largestMax))
         max (0, max);
  match r with
  | inr v => Returns v
  | inl (_, largestMax) => Returns largestMax
  end.

Definition getDefuzzifier (method : string)
    : nat -> MembershipFunction -> DefuzzifyOptions -> outcome Q :=
  if String.eqb method "centroid" then centroid
  else if String.eqb method "bisector" then bisector
  else if String.eqb method "mom" then meanOfMaximum
  else if String.eqb method "som" then smallestOfMaximum
  else if String.eqb method "lom" then largestOfMaximum
  else centroid.

Definition defuzzify (fuel : nat) (mf : MembershipFunction) (method : string)
    (options : DefuzzifyOptions) : outcome Q :=
  getDefuzzifier method fuel mf options.

End Defuzzification.

(* ===================================================================== *)
(** * engine.ts *)
(* ===================================================================== *)

Module Engine.
Import Operators Defuzzification.

(** The engine's internal [Variable] interface. *)
Record EngineVariable : Type := mkVariable {
  var_name : string;
  var_sets : FuzzySet;
  var_range : Q * Q;
  var_isOutput : bool
}.

Record FuzzyEngine : Type := mkEngine {
  variables : gmap string EngineVariable;
  rules : list FuzzyRule;
  defuzzificationMethod : string;
  andMethod : string;
  orMethod : string;
  implicationMethod : string;
  aggregationMethod : string;
  resolution : Q
}.

(** [new FuzzyEngine()] *)
Definition newEngine : FuzzyEngine :=
  {| variables := ∅; rules := [];
     defuzzificationMethod := "centroid"; andMethod := "min";
     orMethod := "max"; implicationMethod := "min";
     aggregationMethod := "max"; resolution := 100 |}.

Definition withVariables (vs : gmap string EngineVariable) (e : FuzzyEngine)
    : FuzzyEngine :=
  {| variables := vs; rules := rules e;
     defuzzificationMethod := defuzzificationMethod e;
     andMethod := andMethod e; orMethod := orMethod e;
     implicationMethod := implicationMethod e;
     aggregationMethod := aggregationMethod e; resolution := resolution e |}.

Definition withRules (rs : list FuzzyRule) (e : FuzzyEngine) : FuzzyEngine :=
  {| variables := variables e; rules := rs;
     defuzzificationMethod := defuzzificationMethod e;
     andMethod := andMethod e; orMethod := orMethod e;
     implicationMethod := implicationMethod e;
     aggregationMethod := aggregationMethod e; resolution := resolution e |}.

Definition setDefuzzificationMethod (method : string) (e : FuzzyEngine)
    : FuzzyEngine :=
  {| variables := variables e; rules := rules e;
     defuzzificationMethod := method;
     andMethod := andMethod e; orMethod := orMethod e;
     implicationMethod := implicationMethod e;
     aggregationMethod := aggregationMethod e; resolution := resolution e |}.

Definition setAndMethod (method : string) (e : FuzzyEngine) : FuzzyEngine :=
  {| variables := variables e; rules := rules e;
     defuzzificationMethod := defuzzificationMethod e;
     andMethod := method; orMethod := orMethod e;
     implicationMethod := implicationMethod e;
     aggregationMethod := aggregationMethod e; resolution := resolution e |}.

Definition setOrMethod (method : string) (e : FuzzyEngine) : FuzzyEngine :=
  {| variables := variables e; rules := rules e;
     defuzzificationMethod := defuzzificationMethod e;
     andMethod := andMethod e; orMethod := method;
     implicationMethod := implicationMethod e;
     aggregationMethod := aggregationMethod e; resolution := resolution e |}.

Definition setImplicationMethod (method : string) (e : FuzzyEngine) : FuzzyEngine :=
  {| variables := variables e; rules := rules e;
     defuzzificationMethod := defuzzificationMethod e;
     andMethod := andMethod e; orMethod := orMethod e;
     implicationMethod := method;
     aggregationMethod := aggregationMethod e; resolution := resolution e |}.

Definition setAggregationMethod (method : string) (e : FuzzyEngine) : FuzzyEngine :=
  {| variables := variables e; rules := rules e;
     defuzzificationMethod := defuzzificationMethod e;
     andMethod := andMethod e; orMethod := orMethod e;
     implicationMethod := implicationMethod e;
     aggregationMethod := method; resolution := resolution e |}.

Definition setResolution (resolution : Q) (e : FuzzyEngine) : FuzzyEngine :=
  {| variables := variables e; rules := rules e;
     defuzzificationMethod := defuzzificationMethod e;
     andMethod := andMethod e; orMethod := orMethod e;
     implicationMethod := implicationMethod e;
     aggregationMethod := aggregationMethod e; resolution := resolution |}.

Definition testPoints : list Q := [-1000; -100; -10; 0; 10; 100; 1000].

(** The inner loop of [inferRange]: one membership function against every
    test point. *)
Definition probe (mf : MembershipFunction) (acc : Q * Q) : Q * Q :=
  fold_left
    (fun '(min, max) x =>
       if Qgtb (mf x) 0.01 then (Qmin min x, Qmax max x) else (min, max))
    testPoints acc.

Definition inferRange (sets : FuzzySet) : Q * Q :=
  fold_left (fun acc '(_, mf) => probe mf acc) sets (0, 100).

(** [range || this.inferRange(sets)] *)
Definition rangeOrInferred (sets : FuzzySet) (range : option (Q * Q)) : Q * Q :=
  match range with
  | Some r => r
  | None => inferRange sets
  end.

Definition addVariable (name : string) (sets : FuzzySet)
    (range : option (Q * Q)) (e : FuzzyEngine) : FuzzyEngine :=
  let inferredRange := rangeOrInferred sets range in
  withVariables
    (<[name := {| var_name := name; var_sets := sets;
                  var_range := inferredRange; var_isOutput := false |}]>
       (variables e)) e.

Definition addOutput (name : string) (sets : FuzzySet)
    (range : option (Q * Q)) (e : FuzzyEngine) : FuzzyEngine :=
  let inferredRange := rangeOrInferred sets range in
  withVariables
    (<[name := {| var_name := name; var_sets := sets;
                  var_range := inferredRange; var_isOutput := true |}]>
       (variables e)) e.

(** The errors thrown by [validateRule], one constructor per message. *)
Inductive RuleError : Type :=
| UnknownAntecedentVariable (varName : string)
| UnknownAntecedentTerm (term varName : string)
| UnknownConsequentVariable (varName : string)
| NotAnOutputVariable (varName : string)
| UnknownConsequentTerm (term varName : string).

(** The error kinds of the specification. *)
Inductive ErrorKind : Type := UnknownVariable | UnknownTerm | NotAnOutput.

Definition errorKind (err : RuleError) : ErrorKind :=
  match err with
  | UnknownAntecedentVariable _ | UnknownConsequentVariable _ => UnknownVariable
  | UnknownAntecedentTerm _ _ | UnknownConsequentTerm _ _ => UnknownTerm
  | NotAnOutputVariable _ => NotAnOutput
  end.

(** [Array.isArray(terms) ? terms : [terms]] *)
Definition termList (terms : Terms) : list string :=
  match terms with
  | OneTerm term => [term]
  | TermArray term more => term :: more
  end.

Fixpoint validateTerms (variable : EngineVariable) (varName : string)
    (terms : list string) : RuleError + unit :=
  match terms with
  | [] => inr tt
  | term :: rest =>
      match obj_get term (var_sets variable) with
      | None => inl (UnknownAntecedentTerm term varName)
      | Some _ => validateTerms variable varName rest
      end
  end.

Fixpoint validateAntecedent (e : FuzzyEngine) (entries : RuleCondition)
    : RuleError + unit :=
  match entries with
  | [] => inr tt
  | (varName, terms) :: rest =>
      match variables e !! varName with
      | None => inl (UnknownAntecedentVariable varName)
      | Some variable =>
          match validateTerms variable varName (termList terms) with
          | inl err => inl err
          | inr _ => validateAntecedent e rest
          end
      end
  end.

Fixpoint validateConsequent (e : FuzzyEngine) (entries : RuleConsequence)
    : RuleError + unit :=
  match entries with
  | [] => inr tt
  | (varName, term) :: rest =>
      match variables e !! varName with
      | None => inl (UnknownConsequentVariable varName)
      | Some variable =>
          if negb (var_isOutput variable) then inl (NotAnOutputVariable varName)
          else match obj_get term (var_sets variable) with
               | None => inl (UnknownConsequentTerm term varName)
               | Some _ => validateConsequent e rest
               end
      end
  end.

Definition validateRule (e : FuzzyEngine) (rule : FuzzyRule) : RuleError + unit :=
  match validateAntecedent e (rule_if rule) with
  | inl err => inl err
  | inr _ => validateConsequent e (rule_then rule)
  end.

(** [addRule] and [addRules] mutate the engine and may throw: the first
    component is the engine after the call, whether or not it threw. *)
Definition addRule (rule : FuzzyRule) (e : FuzzyEngine)
    : FuzzyEngine * (RuleError + unit) :=
  match validateRule e rule with
  | inl err => (e, inl err)
  | inr _ => (withRules (rules e ++ [rule]) e, inr tt)
  end.

Fixpoint addRules (rs : list FuzzyRule) (e : FuzzyEngine)
    : FuzzyEngine * (RuleError + unit) :=
  match rs with
  | [] => (e, inr tt)
  | rule :: rest =>
      match addRule rule e with
      | (e', inl err) => (e', inl err)
      | (e', inr _) => addRules rest e'
      end
  end.

Definition clearRules (e : FuzzyEngine) : FuzzyEngine := withRules [] e.

Definition getRules (e : FuzzyEngine) : list FuzzyRule := rules e.

(** ** The four stages of [evaluateVerbose] *)

Definition memberships (sets : FuzzySet) (value : Q) : list (string * Q) :=
  fold_left (fun acc '(termName, mf) => obj_set termName (mf value) acc) sets [].

Fixpoint fuzzify (e : FuzzyEngine) (inputs : list (string * Q))
    : list FuzzificationResult :=
  match inputs with
  | [] => []
  | (name, value) :: rest =>
      match variables e !! name with
      | None => fuzzify e rest
      | Some variable =>
          if var_isOutput variable then fuzzify e rest
          else {| fz_variable := name; fz_value := value;
                  fz_memberships := memberships (var_sets variable) value |}
               :: fuzzify e rest
      end
  end.

(** The lookup object [fuzzified] built at the start of [evaluateRules]. *)
Definition fuzzifiedOf (fuzzification : list FuzzificationResult)
    : list (string * list (string * Q)) :=
  fold_left (fun acc f => obj_set (fz_variable f) (fz_memberships f) acc)
    fuzzification [].

(** [varMemberships[term] || 0] *)
Definition termStrength (varMemberships : list (string * Q)) (term : string) : Q :=
  match obj_get term varMemberships with
  | Some degree => degree
  | None => 0
  end.

(** [termStrengths.length > 1 ? orOp(...termStrengths) : termStrengths[0]];
    [termList] is never empty, the first branch is there for totality. *)
Definition clauseStrength (orOp : Q -> list Q -> Q)
    (varMemberships : list (string * Q)) (terms : Terms) : Q :=
  match map (termStrength varMemberships) (termList terms) with
  | [] => 0
  | [s] => s
  | s :: more => orOp s more
  end.

Fixpoint antecedentStrengths (orOp : Q -> list Q -> Q)
    (fuzzified : list (string * list (string * Q))) (entries : RuleCondition)
    : list Q :=
  match entries with
  | [] => []
  | (varName, terms) :: rest =>
      match obj_get varName fuzzified with
      | None => antecedentStrengths orOp fuzzified rest
      | Some varMemberships =>
          clauseStrength orOp varMemberships terms
          :: antecedentStrengths orOp fuzzified rest
      end
  end.

Definition firingStrengthOf (e : FuzzyEngine)
    (fuzzified : list (string * list (string * Q))) (rule : FuzzyRule) : Q :=
  let andOp := getAndOperator (andMethod e) in
  let orOp := getOrOperator (orMethod e) in
  let firingStrength :=
    match antecedentStrengths orOp fuzzified (rule_if rule) with
    | [] => 0
    | s :: more => andOp s more
    end in
  match rule_weight rule with
  | Some w => firingStrength * w
  | None => firingStrength
  end.

Definition evaluateRule (e : FuzzyEngine)
    (fuzzified : list (string * list (string * Q))) (rule : FuzzyRule)
    : RuleEvaluationResult :=
  let firingStrength := firingStrengthOf e fuzzified rule in
  {| re_rule := rule;
     re_firingStrength := firingStrength;
     re_outputContributions :=
       fold_left
         (fun acc '(outputVar, term) =>
            obj_set outputVar {| c_term := term; c_strength := firingStrength |} acc)
         (rule_then rule) [] |}.

Definition evaluateRules (e : FuzzyEngine)
    (fuzzification : list FuzzificationResult) : list RuleEvaluationResult :=
  map (evaluateRule e (fuzzifiedOf fuzzification)) (rules e).

Definition applyImplication (e : FuzzyEngine) (mf : MembershipFunction)
    (strength : Q) : MembershipFunction :=
  if String.eqb (implicationMethod e) "min"
  then fun x => Qmin (mf x) strength
  else fun x => mf x * strength.

Definition aggregateMFs (e : FuzzyEngine) (mfs : list MembershipFunction)
    : MembershipFunction :=
  match mfs with
  | [] => fun _ => 0
  | [mf] => mf
  | mf :: more =>
      if String.eqb (aggregationMethod e) "max"
      then fun x => mathMax (mf x) (map (fun mf' => mf' x) more)
      else fun x => Qmin 1 (fold_left (fun sum mf' => sum + mf' x) mfs 0)
  end.

(** One pass of the inner loop of [aggregate]. *)
Definition collect (e : FuzzyEngine)
    (aggregated : list (string * list MembershipFunction))
    (entry : string * Contribution) : list (string * list MembershipFunction) :=
  let '(outputVar, contribution) := entry in
  let aggregated :=
    match obj_get outputVar aggregated with
    | None => obj_set outputVar [] aggregated
    | Some _ => aggregated
    end in
  match variables e !! outputVar with
  | None => aggregated
  | Some variable =>
      match obj_get (c_term contribution) (var_sets variable) with
      | None => aggregated
      | Some baseMF =>
          let impliedMF := applyImplication e baseMF (c_strength contribution) in
          match obj_get outputVar aggregated with
          | Some mfs => obj_set outputVar (mfs ++ [impliedMF]) aggregated
          | None => aggregated
          end
      end
  end.

Definition aggregate (e : FuzzyEngine)
    (ruleEvaluations : list RuleEvaluationResult)
    : list (string * MembershipFunction) :=
  let aggregated :=
    fold_left
      (fun acc result => fold_left (collect e) (re_outputContributions result) acc)
      ruleEvaluations [] in
  fold_left
    (fun result '(outputVar, mfs) => obj_set outputVar (aggregateMFs e mfs) result)
    aggregated [].

Definition optionsOf (e : FuzzyEngine) (variable : EngineVariable)
    : DefuzzifyOptions :=
  {| opt_min := fst (var_range variable);
     opt_max := snd (var_range variable);
     opt_resolution := Some (resolution e) |}.

Fixpoint defuzzifyEntries (fuel : nat) (e : FuzzyEngine)
    (entries : list (string * MembershipFunction)) (outputs : list (string * Q))
    : outcome (list (string * Q)) :=
  match entries with
  | [] => Returns outputs
  | (name, mf) :: rest =>
      match variables e !! name with
      | None => defuzzifyEntries fuel e rest outputs
      | Some variable =>
          value ← defuzzify fuel mf (defuzzificationMethod e) (optionsOf e variable);
          defuzzifyEntries fuel e rest (obj_set name value outputs)
      end
  end.

Definition defuzzifyOutputs (fuel : nat) (e : FuzzyEngine)
    (aggregatedOutputs : list (string * MembershipFunction))
    : outcome (list (string * Q)) :=
  defuzzifyEntries fuel e aggregatedOutputs [].

Definition evaluateVerbose (fuel : nat) (e : FuzzyEngine)
    (inputs : list (string * Q)) : outcome EvaluationResult :=
  let fuzzification := fuzzify e inputs in
  let ruleEvaluations := evaluateRules e fuzzification in
  let aggregatedOutputs := aggregate e ruleEvaluations in
  outputs ← defuzzifyOutputs fuel e aggregatedOutputs;
  Returns {| ev_outputs := outputs;
             ev_fuzzification := fuzzification;
             ev_ruleEvaluations := ruleEvaluations;
             ev_aggregatedOutputs := aggregatedOutputs |}.

Definition evaluate (fuel : nat) (e : FuzzyEngine) (inputs : list (string * Q))
    : outcome (list (string * Q)) :=
  result ← evaluateVerbose fuel e inputs;
  Returns (ev_outputs result).

End Engine.

Import Membership Operators Defuzzification Engine.

(* ===================================================================== *)
(** * Properties named by the specification, and notions of the proofs *)
(* ===================================================================== *)

(** The property of the specification for a triangular function. *)
Definition triangular_profile (a b c : Q) (f : MembershipFunction) : Prop :=
  f a == 0 /\ f c == 0 /\ f b == 1
  /\ (forall x y, a <= x -> x <= y -> y <= b -> f x <= f y)
  /\ (forall x y, b <= x -> x <= y -> y <= c -> f y <= f x).

(** The probe points at which some membership function of the set exceeds
    the threshold 0.01. *)
Definition exceedsAt (x : Q) (entry : string * MembershipFunction) : bool :=
  Qgtb (snd entry x) 0.01.

Definition hits (sets : FuzzySet) : list Q :=
  List.filter (fun x => existsb (exceedsAt x) sets) testPoints.

(** The range as the specification words it: the minimum and the maximum
    of the hit probe points, and the default window when there is none. *)
Definition described_range (sets : FuzzySet) : Q * Q :=
  match hits sets with
  | [] => (0, 100)
  | x :: more => (mathMin x more, mathMax x more)
  end.

(** [triangular(a, b, c)] for an accepted triple, for use in examples. *)
Definition tri (a b c : Q) : MembershipFunction :=
  match triangular a b c with
  | inr f => f
  | inl _ => fun _ => 0
  end.

(** One step of the range widening of [inferRange], and the hit probe
    points in the order in which [inferRange] meets them. *)
Definition widen (acc : Q * Q) (x : Q) : Q * Q :=
  (Qmin (fst acc) x, Qmax (snd acc) x).

Definition hitsInOrder (sets : FuzzySet) : list Q :=
  flat_map (fun entry : string * MembershipFunction =>
              List.filter (fun x => exceedsAt x entry) testPoints) sets.

(** A membership degree within the contract of a membership function. *)
Definition unit_degree (d : Q) : Prop := 0 <= d <= 1.

(** A list of implied functions collected by [aggregate] for an output
    variable accepted by [K], all of them with non-negative degrees. *)
Definition good_bucket (K : string -> Prop)
    (entry : string * list MembershipFunction) : Prop :=
  K (fst entry) /\ forall mf, In mf (snd entry) -> forall x, 0 <= mf x.

(** Every crisp output lies in the registered range of its variable. *)
Definition outputs_within (e : FuzzyEngine) (outputs : list (string * Q)) : Prop :=
  forall name y, In (name, y) outputs ->
    exists variable,
      variables e !! name = Some variable
      /\ fst (var_range variable) <= y <= snd (var_range variable).

(** Membership functions that agree at every point. *)
Definition mf_equiv (f g : MembershipFunction) : Prop := forall x, f x == g x.

(** Relations lifted to sums, options and outcomes. *)
Definition sum_rel {S1 S2 R1 R2 : Type} (RS : S1 -> S2 -> Prop)
    (RR : R1 -> R2 -> Prop) (a : S1 + R1) (b : S2 + R2) : Prop :=
  match a, b with
  | inl s1, inl s2 => RS s1 s2
  | inr r1, inr r2 => RR r1 r2
  | _, _ => False
  end.

Definition option_rel {A B : Type} (R : A -> B -> Prop)
    (a : option A) (b : option B) : Prop :=
  match a, b with
  | Some x, Some y => R x y
  | None, None => True
  | _, _ => False
  end.

Definition outcome_rel {A B : Type} (R : A -> B -> Prop)
    (a : outcome A) (b : outcome B) : Prop :=
  match a, b with
  | Returns x, Returns y => R x y
  | OutOfFuel, OutOfFuel => True
  | NonFinite, NonFinite => True
  | _, _ => False
  end.

(** Loop states that carry equal numbers. *)
Definition pair_eq (a b : Q * Q) : Prop := fst a == fst b /\ snd a == snd b.
Definition tagged_eq {A : Type} (a b : Q * A) : Prop :=
  fst a == fst b /\ snd a = snd b.

(** Two results of [evaluate] that are the same mapping from names to crisp
    values: the same names, each with equal values. *)
Definition same_mapping (a b : list (string * Q)) : Prop :=
  forall name, option_rel Qeq (obj_get name a) (obj_get name b).

Definition same_outputs (a b : outcome (list (string * Q))) : Prop :=
  outcome_rel same_mapping a b.

(** What one contribution adds to the list collected for output [k]. *)
Definition impliedFor (e : FuzzyEngine) (k : string)
    (entry : string * Contribution) : list MembershipFunction :=
  if String.eqb k (fst entry) then
    match variables e !! fst entry with
    | None => []
    | Some variable =>
        match obj_get (c_term (snd entry)) (var_sets variable) with
        | None => []
        | Some baseMF => [applyImplication e baseMF (c_strength (snd entry))]
        end
    end
  else [].

Definition bucket (e : FuzzyEngine) (k : string)
    (entries : list (string * Contribution)) : list MembershipFunction :=
  flat_map (impliedFor e k) entries.

Definition touched (k : string) (entries : list (string * Contribution)) : bool :=
  existsb (fun entry => String.eqb k (fst entry)) entries.

(** The outcome of a defuzzification that does not return, which depends on
    the resolution only. *)
Definition failure {A : Type} (e : FuzzyEngine) : outcome A :=
  if Qeq_bool (resolution e) 0 then NonFinite else OutOfFuel.

(** The defuzzification of one aggregated entry, when its variable is
    registered, and whether all entries of a list return. *)
Definition defuzzifyOne (fuel : nat) (e : FuzzyEngine)
    (entry : string * MembershipFunction) : option (outcome Q) :=
  (fun variable =>
     defuzzify fuel (snd entry) (defuzzificationMethod e) (optionsOf e variable))
    <$> variables e !! fst entry.

Definition returned (o : option (outcome Q)) : option Q :=
  match o with
  | Some (Returns y) => Some y
  | _ => None
  end.

Definition completes (o : option (outcome Q)) : bool :=
  match o with
  | Some (Returns _) | None => true
  | _ => false
  end.

Definition returnsAll (fuel : nat) (e : FuzzyEngine)
    (entries : list (string * MembershipFunction)) : bool :=
  forallb (fun entry => completes (defuzzifyOne fuel e entry)) entries.

(** Engines that differ in their rule lists at most. *)
Definition same_config (e1 e2 : FuzzyEngine) : Prop :=
  variables e1 = variables e2
  /\ defuzzificationMethod e1 = defuzzificationMethod e2
  /\ andMethod e1 = andMethod e2
  /\ orMethod e1 = orMethod e2
  /\ implicationMethod e1 = implicationMethod e2
  /\ aggregationMethod e1 = aggregationMethod e2
  /\ resolution e1 = resolution e2.

(** Input entries that [fuzzify] keeps: those naming a registered variable
    that is not an output. *)
Definition isRegisteredInput (e : FuzzyEngine) (entry : string * Q) : bool :=
  match variables e !! fst entry with
  | Some variable => negb (var_isOutput variable)
  | None => false
  end.

(** A number of loop iterations that suffices to sample a range with
    [min < max] at a positive resolution. *)
Definition samples (resolution : Q) : nat := Z.to_nat (Qfloor resolution + 1).

(* ===================================================================== *)
(** * A worked engine *)
(* ===================================================================== *)

(** The engine of the test suite, with triangular terms throughout. *)
Definition exampleEngine : FuzzyEngine :=
  addOutput "fanSpeed"
    [("low"%string, tri 0 25 50); ("medium"%string, tri 30 50 70);
     ("high"%string, tri 50 75 100)]
    (Some (0, 100))
    (addVariable "temperature"
       [("cold"%string, tri 0 20 40); ("warm"%string, tri 30 50 70);
        ("hot"%string, tri 60 80 100)]
       None newEngine).

Definition ruleCold : FuzzyRule :=
  mkRule [("temperature"%string, OneTerm "cold")] [("fanSpeed"%string, "low"%string)]
    None None.

Definition ruleWarm : FuzzyRule :=
  mkRule [("temperature"%string, OneTerm "warm")]
    [("fanSpeed"%string, "medium"%string)] None None.

Definition ruleHot : FuzzyRule :=
  mkRule [("temperature"%string, OneTerm "hot")] [("fanSpeed"%string, "high"%string)]
    None None.

(** [{ if: { unknown: 'cold' }, then: { fanSpeed: 'low' } }] *)
Definition ruleUnknown : FuzzyRule :=
  mkRule [("unknown"%string, OneTerm "cold")] [("fanSpeed"%string, "low"%string)]
    None None.

(** [{ if: { temperature: 'bogus', unknown: 'cold' }, then: { fanSpeed: 'low' } }] *)
Definition ruleMixed : FuzzyRule :=
  mkRule [("temperature"%string, OneTerm "bogus"); ("unknown"%string, OneTerm "cold")]
    [("fanSpeed"%string, "low"%string)] None None.

(** An engine whose membership functions are non-negative but exceed 1:
    the input terms [A], [B] and [C] are the constants 3, 7/4 and 1, the
    output terms [L] and [H] are 1 at the ends 0 and 2 of the output range. *)
Definition wideEngine : FuzzyEngine :=
  setResolution 2
    (setOrMethod "sum"
       (setImplicationMethod "product"
          (setAggregationMethod "sum"
             (addOutput "out"
                [("L"%string, fun x : Q => if Qeq_bool x 0 then 1 else 0);
                 ("H"%string, fun x : Q => if Qeq_bool x 2 then 1 else 0)]
                (Some (0, 2))
                (addVariable "in"
                   [("A"%string, fun _ : Q => 3); ("B"%string, fun _ : Q => 7 # 4);
                    ("C"%string, fun _ : Q => 1)]
                   (Some (0, 1)) newEngine))))).

(** [{ if: { in: ['A', 'B'] }, then: { out: 'L' } }] and
    [{ if: { in: 'C' }, then: { out: 'H' } }] *)
Definition wideRules : list FuzzyRule :=
  [mkRule [("in"%string, TermArray "A" ["B"%string])] [("out"%string, "L"%string)]
     None None;
   mkRule [("in"%string, OneTerm "C")] [("out"%string, "H"%string)] None None].

(** The worked engine with its output range collapsed to the point 5. *)
Definition pointEngine : FuzzyEngine :=
  fst (addRules [ruleHot]
         (addOutput "fanSpeed" [("high"%string, tri 50 75 100)] (Some (5, 5))
            exampleEngine)).

(** The worked engine with its three rules, sampled at resolution 4. *)
Definition fanEngine : FuzzyEngine :=
  setResolution 4 (fst (addRules [ruleCold; ruleWarm; ruleHot] exampleEngine)).

(* ===================================================================== *)
(** * membership.ts: the other rational shapes *)
(* ===================================================================== *)

Module Shapes.

(** The errors thrown by the shape constructors below, one per message. *)
Inductive ShapeRejection : Type :=
| TrapezoidalOrder   (* 'Trapezoidal MF requires a <= b <= c <= d' *)
| SShapedOrder       (* 'S-shaped MF requires a < b' *)
| ZShapedOrder.      (* 'Z-shaped MF requires a < b' *)

Definition trapezoidal (a b c d : Q) : ShapeRejection + MembershipFunction :=
  if Qgtb a b || Qgtb b c || Qgtb c d then inl TrapezoidalOrder
  else inr (fun x : Q =>
    if Qle_bool x a || Qle_bool d x then 0
    else if Qle_bool b x && Qle_bool x c then 1
    else if Qltb x b then (x - a) / (b - a)
    else (d - x) / (d - c)).

Definition piShaped (a b c d : Q) : MembershipFunction :=
  fun x =>
    if Qle_bool x a || Qle_bool d x then 0
    else if Qle_bool b x && Qle_bool x c then 1
    else if Qltb x b then
      let mid := (a + b) / 2 in
      if Qle_bool x mid then 2 * ((x - a) / (b - a)) ^ 2
      else 1 - 2 * ((x - b) / (b - a)) ^ 2
    else
      let mid := (c + d) / 2 in
      if Qle_bool x mid then 1 - 2 * ((x - c) / (d - c)) ^ 2
      else 2 * ((x - d) / (d - c)) ^ 2.

Definition sShaped (a b : Q) : ShapeRejection + MembershipFunction :=
  if Qle_bool b a then inl SShapedOrder
  else inr (fun x : Q =>
    if Qle_bool x a then 0
    else if Qle_bool b x then 1
    else
      let mid := (a + b) / 2 in
      if Qle_bool x mid then 2 * ((x - a) / (b - a)) ^ 2
      else 1 - 2 * ((x - b) / (b - a)) ^ 2).

Definition zShaped (a b : Q) : ShapeRejection + MembershipFunction :=
  if Qle_bool b a then inl ZShapedOrder
  else inr (fun x : Q =>
    if Qle_bool x a then 1
    else if Qle_bool b x then 0
    else
      let mid := (a + b) / 2 in
      if Qle_bool x mid then 1 - 2 * ((x - a) / (b - a)) ^ 2
      else 2 * ((x - b) / (b - a)) ^ 2).

(** [createMembershipFunction(fn)(params)]: the result of [fn] clamped by
    [Math.max(0, Math.min(1, result))]. *)
Definition createMembershipFunction {T : Type} (fn : Q -> T -> Q) (params : T)
    : MembershipFunction :=
  fun x => let result := fn x params in Qmax 0 (Qmin 1 result).

End Shapes.

(* ===================================================================== *)
(** * operators.ts: the other norms and the set operations *)
(* ===================================================================== *)

Module SetOperators.
Import Operators.

(** [Math.max(0, values.reduce((acc, val) => acc + val, 0) - (values.length - 1))] *)
Definition tNormLukasiewicz (values : list Q) : Q :=
  Qmax 0 (Qsum values - (inject_Z (Z.of_nat (length values)) - 1)).

(** [Math.min(1, values.reduce((acc, val) => acc + val, 0))] *)
Definition sNormLukasiewicz (values : list Q) : Q := Qmin 1 (Qsum values).

(** [Math.min()] of no argument is [Infinity], [Math.max()] is [-Infinity]. *)
Definition minOf (values : list Q) : outcome Q :=
  match values with
  | [] => NonFinite
  | v :: vs => Returns (mathMin v vs)
  end.

Definition maxOf (values : list Q) : outcome Q :=
  match values with
  | [] => NonFinite
  | v :: vs => Returns (mathMax v vs)
  end.

Definition tNormDrastic (values : list Q) : outcome Q :=
  let hasOne := existsb (fun v => Qeq_bool v 1) values in
  match values with
  | [v] => Returns v
  | _ =>
      if negb hasOne then Returns 0
      else minOf (List.filter (fun v => negb (Qeq_bool v 1)) values)
  end.

Definition sNormDrastic (values : list Q) : outcome Q :=
  let hasZero := existsb (fun v => Qeq_bool v 0) values in
  match values with
  | [v] => Returns v
  | _ =>
      if negb hasZero then Returns 1
      else maxOf (List.filter (fun v => negb (Qeq_bool v 0)) values)
  end.

(** The [method] parameters default to ['max'] and ['min']. *)
Definition union (mf1 mf2 : MembershipFunction) (method : string)
    : MembershipFunction :=
  let op := getOrOperator method in
  fun x => op (mf1 x) [mf2 x].

Definition intersection (mf1 mf2 : MembershipFunction) (method : string)
    : MembershipFunction :=
  let op := getAndOperator method in
  fun x => op (mf1 x) [mf2 x].

Definition complement (mf : MembershipFunction) : MembershipFunction :=
  fun x => 1 - mf x.

Definition difference (mf1 mf2 : MembershipFunction) (method : string)
    : MembershipFunction :=
  intersection mf1 (complement mf2) method.

Definition alphaCut (mf : MembershipFunction) (alpha : Q) : MembershipFunction :=
  fun x => if Qle_bool alpha (mf x) then 1 else 0.

Definition strongAlphaCut (mf : MembershipFunction) (alpha : Q)
    : MembershipFunction :=
  fun x => if Qgtb (mf x) alpha then 1 else 0.

Definition support (mf : MembershipFunction) : MembershipFunction := alphaCut mf 0.

Definition core (mf : MembershipFunction) : MembershipFunction := alphaCut mf 1.

End SetOperators.

(* ===================================================================== *)
(** * defuzzification.ts: the weighted average *)
(* ===================================================================== *)

Module WeightedAverage.

Record PeakStrength : Type := mkPeak { peak : Q; strength : Q }.

Definition weightedAverage (contributions : list PeakStrength) : Q :=
  let '(sumWeighted, sumStrength) :=
    fold_left
      (fun '(sumWeighted, sumStrength) c =>
         (sumWeighted + peak c * strength c, sumStrength + strength c))
      contributions (0, 0) in
  if Qeq_bool sumStrength 0 then
    match contributions with
    | first :: _ => peak first
    | [] => 0
    end
  else sumWeighted / sumStrength.

End WeightedAverage.

(* ===================================================================== *)
(** * engine.ts: the constructor and the introspection methods *)
(* ===================================================================== *)

Module Introspection.
Import Engine.

(** [FuzzyEngineConfig]: every field is optional. *)
Record FuzzyEngineConfig : Type := mkConfig {
  cfg_defuzzificationMethod : option string;
  cfg_andMethod : option string;
  cfg_orMethod : option string;
  cfg_implicationMethod : option string;
  cfg_aggregationMethod : option string;
  cfg_resolution : option Q
}.

(** [if (config.field)] on an optional string: absent and empty are falsy. *)
Definition truthyString (field : option string) (default : string) : string :=
  match field with
  | Some s => if String.eqb s "" then default else s
  | None => default
  end.

(** [if (config.resolution)]: absent and zero are falsy. *)
Definition truthyNumber (field : option Q) (default : Q) : Q :=
  match field with
  | Some q => if Qeq_bool q 0 then default else q
  | None => default
  end.

(** [new FuzzyEngine(config)] *)
Definition construct (config : option FuzzyEngineConfig) : FuzzyEngine :=
  match config with
  | None => newEngine
  | Some config =>
      {| variables := ∅; rules := [];
         defuzzificationMethod :=
           truthyString (cfg_defuzzificationMethod config) "centroid";
         andMethod := truthyString (cfg_andMethod config) "min";
         orMethod := truthyString (cfg_orMethod config) "max";
         implicationMethod := truthyString (cfg_implicationMethod config) "min";
         aggregationMethod := truthyString (cfg_aggregationMethod config) "max";
         resolution := truthyNumber (cfg_resolution config) 100 |}
  end.

(** The errors thrown by [getMembership] and [getMemberships]. *)
Inductive QueryError : Type :=
| UnknownQueryVariable (variable : string)
| UnknownQueryTerm (term variable : string).

Definition getMembership (e : FuzzyEngine) (variable term : string) (value : Q)
    : QueryError + Q :=
  match variables e !! variable with
  | None => inl (UnknownQueryVariable variable)
  | Some v =>
      match obj_get term (var_sets v) with
      | None => inl (UnknownQueryTerm term variable)
      | Some mf => inr (mf value)
      end
  end.

Definition getMemberships (e : FuzzyEngine) (variable : string) (value : Q)
    : QueryError + list (string * Q) :=
  match variables e !! variable with
  | None => inl (UnknownQueryVariable variable)
  | Some v => inr (memberships (var_sets v) value)
  end.

End Introspection.

(* ===================================================================== *)
(** * hedges.ts: the hedges with rational values *)
(* ===================================================================== *)

Module Hedges.

(** [Math.pow(mf(x), n)] for the whole exponents 2, 3 and 4. *)
Definition very (mf : MembershipFunction) : MembershipFunction :=
  fun x => mf x ^ 2.

Definition not (mf : MembershipFunction) : MembershipFunction :=
  fun x => 1 - mf x.

Definition extremely (mf : MembershipFunction) : MembershipFunction :=
  fun x => mf x ^ 3.

Definition intensify (mf : MembershipFunction) : MembershipFunction :=
  fun x =>
    let mu := mf x in
    if Qle_bool mu 0.5 then 2 * mu ^ 2
    else 1 - 2 * (1 - mu) ^ 2.

Definition veryVery (mf : MembershipFunction) : MembershipFunction :=
  fun x => mf x ^ 4.

End Hedges.

(* ===================================================================== *)
(** * Notions used to state the further properties *)
(* ===================================================================== *)

(** The points visited by [for (let x = min; ...; x += step)]:
    [min], [min + step], [min + step + step], ... *)
Fixpoint nthSample (lo step : Q) (k : nat) : Q :=
  match k with
  | O => lo
  | Datatypes.S k' => nthSample lo step k' + step
  end.

(** The S-curve on the unit interval: 0 up to 0, 1 from 1 on, and two
    parabola arcs that meet at one half in between. *)
Definition sCurve (u : Q) : Q :=
  if Qle_bool u 0 then 0
  else if Qle_bool 1 u then 1
  else if Qle_bool u (1 # 2) then 2 * (u * u)
  else 1 - 2 * ((u - 1) * (u - 1)).

(* ===================================================================== *)
(** * Facts about comparisons and loops *)
(* ===================================================================== *)

Lemma Qgtb_true (x y : Q) : Qgtb x y = true <-> y < x.
Proof.
  unfold Qgtb. rewrite negb_true_iff, <- not_true_iff_false, Qle_bool_iff. split; intros; lra.
Qed.

Lemma Qgtb_false (x y : Q) : Qgtb x y = false <-> x <= y.
Proof. unfold Qgtb. rewrite negb_false_iff, Qle_bool_iff. tauto. Qed.

Lemma Qltb_true (x y : Q) : Qltb x y = true <-> x < y.
Proof. unfold Qltb. rewrite negb_true_iff, <- not_true_iff_false, Qle_bool_iff. split; intros; lra. Qed.

Lemma Qltb_false (x y : Q) : Qltb x y = false <-> y <= x.
Proof. unfold Qltb. rewrite negb_false_iff, Qle_bool_iff. tauto. Qed.

Lemma Qle_bool_false (x y : Q) : Qle_bool x y = false <-> y < x.
Proof. rewrite <- not_true_iff_false, Qle_bool_iff. split; intros; lra. Qed.

Lemma Qeq_bool_false (x y : Q) : Qeq_bool x y = false <-> ~ x == y.
Proof. rewrite <- not_true_iff_false, Qeq_bool_iff. tauto. Qed.

Section LoopFacts.
Context {S R : Type}.
Variables (bound step : Q) (body : Q -> S -> S + R).
Variables (Inv : Q -> S -> Prop) (Post : R -> Prop).

Lemma forUp_invariant :
  (forall x s, x <= bound -> Inv x s ->
     match body x s with
     | inl s' => Inv (x + step) s'
     | inr r => Post r
     end) ->
  forall fuel x s res,
    Inv x s -> forUp fuel bound step body x s = Returns res ->
    match res with
    | inl s' => exists x', Inv x' s' /\ bound < x'
    | inr r => Post r
    end.
Proof.
  intros Hbody fuel. induction fuel as [|fuel IH]; intros x s res HI; simpl.
  - destruct (Qle_bool x bound) eqn:E; [discriminate|].
    intros [= <-]. exists x. split; [done|]. by apply Qle_bool_false.
  - destruct (Qle_bool x bound) eqn:E.
    + apply Qle_bool_iff in E. specialize (Hbody x s E HI).
      destruct (body x s) as [s'|r].
      * intros H. apply (IH _ _ _ Hbody H).
      * intros [= <-]. done.
    + intros [= <-]. exists x. split; [done|]. by apply Qle_bool_false.
Qed.

Lemma forUp_fuel_enough (n : nat) :
  0 < step ->
  forall x s, bound - x < inject_Z (Z.of_nat n) * step ->
  forall fuel, (n <= fuel)%nat ->
  exists res, forUp fuel bound step body x s = Returns res.
Proof.
  intros Hstep. induction n as [|n IH]; intros x s Hx fuel Hfuel.
  - assert (bound < x) as Hlt by (change (inject_Z (Z.of_nat 0)) with 0 in Hx; lra).
    apply Qle_bool_false in Hlt. destruct fuel; simpl; rewrite Hlt; eauto.
  - destruct fuel as [|fuel]; [lia|]. simpl.
    destruct (Qle_bool x bound); [|eauto].
    destruct (body x s) as [s'|r]; [|eauto].
    apply IH; [|lia].
    rewrite Nat2Z.inj_succ, <- Z.add_1_r, inject_Z_plus in Hx.
    change (inject_Z 1) with 1 in Hx. lra.
Qed.

Lemma forUp_terminates :
  0 < step ->
  forall x s, exists n, forall fuel, (n <= fuel)%nat ->
  exists res, forUp fuel bound step body x s = Returns res.
Proof.
  intros Hstep x s.
  exists (Z.to_nat (Qfloor ((bound - x) / step) + 1)).
  apply forUp_fuel_enough; [done|].
  pose proof (Qlt_floor ((bound - x) / step)) as Hfl.
  set (k := (Qfloor ((bound - x) / step) + 1)%Z) in *.
  assert (inject_Z k <= inject_Z (Z.of_nat (Z.to_nat k))) as Hk.
  { rewrite <- Zle_Qle. lia. }
  assert ((bound - x) / step * step == bound - x) as Hd by (field; lra).
  assert ((bound - x) / step * step < inject_Z k * step) as H1.
  { apply Qmult_lt_compat_r; done. }
  assert (inject_Z k * step <= inject_Z (Z.of_nat (Z.to_nat k)) * step) as H2.
  { apply Qmult_le_compat_r; lra. }
  lra.
Qed.

Lemma forUp_diverges :
  step <= 0 ->
  (forall x s, exists s', body x s = inl s') ->
  forall fuel x s, x <= bound -> forUp fuel bound step body x s = OutOfFuel.
Proof.
  intros Hstep Hbody fuel. induction fuel as [|fuel IH]; intros x s Hx; simpl.
  - apply Qle_bool_iff in Hx. by rewrite Hx.
  - pose proof Hx as Hx'. apply Qle_bool_iff in Hx'. rewrite Hx'.
    destruct (Hbody x s) as [s' ->]. apply IH. lra.
Qed.

End LoopFacts.

Section LoopFactsDown.
Context {S R : Type}.
Variables (bound step : Q) (body : Q -> S -> S + R).
Variables (Inv : Q -> S -> Prop) (Post : R -> Prop).

Lemma forDown_invariant :
  (forall x s, bound <= x -> Inv x s ->
     match body x s with
     | inl s' => Inv (x - step) s'
     | inr r => Post r
     end) ->
  forall fuel x s res,
    Inv x s -> forDown fuel bound step body x s = Returns res ->
    match res with
    | inl s' => exists x', Inv x' s' /\ x' < bound
    | inr r => Post r
    end.
Proof.
  intros Hbody fuel. induction fuel as [|fuel IH]; intros x s res HI; simpl.
  - destruct (Qle_bool bound x) eqn:E; [discriminate|].
    intros [= <-]. exists x. split; [done|]. by apply Qle_bool_false.
  - destruct (Qle_bool bound x) eqn:E.
    + apply Qle_bool_iff in E. specialize (Hbody x s E HI).
      destruct (body x s) as [s'|r].
      * intros H. apply (IH _ _ _ Hbody H).
      * intros [= <-]. done.
    + intros [= <-]. exists x. split; [done|]. by apply Qle_bool_false.
Qed.

Lemma forDown_fuel_enough (n : nat) :
  0 < step ->
  forall x s, x - bound < inject_Z (Z.of_nat n) * step ->
  forall fuel, (n <= fuel)%nat ->
  exists res, forDown fuel bound step body x s = Returns res.
Proof.
  intros Hstep. induction n as [|n IH]; intros x s Hx fuel Hfuel.
  - assert (x < bound) as Hlt by (change (inject_Z (Z.of_nat 0)) with 0 in Hx; lra).
    apply Qle_bool_false in Hlt. destruct fuel; simpl; rewrite Hlt; eauto.
  - destruct fuel as [|fuel]; [lia|]. simpl.
    destruct (Qle_bool bound x); [|eauto].
    destruct (body x s) as [s'|r]; [|eauto].
    apply IH; [|lia].
    rewrite Nat2Z.inj_succ, <- Z.add_1_r, inject_Z_plus in Hx.
    change (inject_Z 1) with 1 in Hx. lra.
Qed.

Lemma steps_cover (d : Q) :
  0 < step -> d < inject_Z (Z.of_nat (Z.to_nat (Qfloor (d / step) + 1))) * step.
Proof.
  intros Hstep.
  pose proof (Qlt_floor (d / step)) as Hfl.
  set (k := (Qfloor (d / step) + 1)%Z) in *.
  assert (inject_Z k <= inject_Z (Z.of_nat (Z.to_nat k))) as Hk.
  { rewrite <- Zle_Qle. lia. }
  assert (d / step * step == d) as Hd by (field; lra).
  assert (d / step * step < inject_Z k * step) as H1.
  { apply Qmult_lt_compat_r; done. }
  assert (inject_Z k * step <= inject_Z (Z.of_nat (Z.to_nat k)) * step) as H2.
  { apply Qmult_le_compat_r; lra. }
  lra.
Qed.

Lemma forDown_terminates :
  0 < step ->
  forall x s, exists n, forall fuel, (n <= fuel)%nat ->
  exists res, forDown fuel bound step body x s = Returns res.
Proof.
  intros Hstep x s.
  exists (Z.to_nat (Qfloor ((x - bound) / step) + 1)).
  apply forDown_fuel_enough; [done|]. by apply steps_cover.
Qed.

End LoopFactsDown.

(** The sampling step of a proper range. *)
Lemma sampleStep_pos (lo hi resolution : Q) :
  lo < hi -> 0 < resolution ->
  exists step, sampleStep lo hi resolution = Returns step
               /\ 0 < step /\ step * resolution == hi - lo.
Proof.
  intros Hr Hres. unfold sampleStep.
  assert (Qeq_bool resolution 0 = false) as -> by (apply Qeq_bool_false; lra).
  eexists; split; [reflexivity|]. split.
  - apply Qlt_shift_div_l; lra.
  - field. lra.
Qed.

(* ===================================================================== *)
(** * membership.ts: the triangular shape *)
(* ===================================================================== *)

(** Case analysis on the comparisons of a piecewise definition. *)
Ltac tri_cases :=
  repeat match goal with
  | |- context [Qle_bool ?x ?y] =>
      let E := fresh "E" in destruct (Qle_bool x y) eqn:E;
      [apply Qle_bool_iff in E | apply Qle_bool_false in E]
  | |- context [Qeq_bool ?x ?y] =>
      let E := fresh "E" in destruct (Qeq_bool x y) eqn:E;
      [apply Qeq_bool_iff in E | apply Qeq_bool_false in E]
  | |- context [Qltb ?x ?y] =>
      let E := fresh "E" in destruct (Qltb x y) eqn:E;
      [apply Qltb_true in E | apply Qltb_false in E]
  end; simpl.

Section Triangular.

Lemma triangular_accepts (a b c : Q) :
  a <= b -> b <= c -> exists f, triangular a b c = inr f.
Proof.
  intros Hab Hbc. unfold triangular.
  apply Qgtb_false in Hab, Hbc. rewrite Hab, Hbc. simpl. eauto.
Qed.

Lemma triangular_rejects (a b c : Q) :
  b < a \/ c < b -> triangular a b c = inl TriangularOrder.
Proof.
  unfold triangular. intros [H|H]; apply Qgtb_true in H; rewrite H; simpl; [done|].
  by rewrite orb_true_r.
Qed.



Lemma triangular_feet (a b c : Q) (f : MembershipFunction) :
  triangular a b c = inr f -> f a == 0 /\ f c == 0.
Proof.
  unfold triangular. destruct (_ || _); [discriminate|]. intros [= <-].
  split; tri_cases; lra.
Qed.

Lemma triangular_strict (a b c : Q) :
  a < b -> b < c -> exists f, triangular a b c = inr f /\ triangular_profile a b c f.
Proof.
  intros Hab Hbc.
  destruct (triangular_accepts a b c) as [f Hf]; [lra|lra|].
  exists f. split; [done|].
  destruct (triangular_feet _ _ _ _ Hf) as [Ha Hc].
  unfold triangular in Hf. destruct (_ || _); [discriminate|].
  injection Hf as <-.
  assert (0 < / (b - a)) as Hk1 by (apply Qinv_lt_0_compat; lra).
  assert (0 < / (c - b)) as Hk2 by (apply Qinv_lt_0_compat; lra).
  assert ((b - a) * / (b - a) == 1) as Hu1 by (field; lra).
  assert ((c - b) * / (c - b) == 1) as Hu2 by (field; lra).
  repeat split; try done.
  - tri_cases; lra.
  - intros x y Hx Hxy Hy. unfold Qdiv.
    set (k := / (b - a)) in *.
    tri_cases; try lra; try nra.
  - intros x y Hx Hxy Hy. unfold Qdiv.
    set (k := / (c - b)) in *.
    tri_cases; try lra; try nra.
Qed.

End Triangular.

(* ===================================================================== *)
(** * operators.ts: the sampling-based comparisons *)
(* ===================================================================== *)

(** A loop whose body never leaves early and whose step is positive runs
    to its end and there satisfies its invariant. *)
Lemma forUp_runs {S R : Type} (bound step : Q) (body : Q -> S -> S + R)
    (Inv : Q -> S -> Prop) (x : Q) (s : S) :
  0 < step ->
  (forall x s, x <= bound -> Inv x s ->
     match body x s with
     | inl s' => Inv (x + step) s'
     | inr _ => False
     end) ->
  Inv x s ->
  exists n, forall fuel, (n <= fuel)%nat ->
    exists s' x', forUp fuel bound step body x s = Returns (inl s')
                  /\ Inv x' s' /\ bound < x'.
Proof.
  intros Hstep Hbody HI.
  destruct (forUp_terminates bound step body Hstep x s) as [n Hn].
  exists n. intros fuel Hfuel. destruct (Hn fuel Hfuel) as [res Hres].
  pose proof (forUp_invariant bound step body Inv (fun _ => False) Hbody
                fuel x s res HI Hres) as H.
  destruct res as [s'|r]; [|done].
  destruct H as (x' & H1 & H2). eauto.
Qed.

Lemma forDown_runs {S R : Type} (bound step : Q) (body : Q -> S -> S + R)
    (Inv : Q -> S -> Prop) (x : Q) (s : S) :
  0 < step ->
  (forall x s, bound <= x -> Inv x s ->
     match body x s with
     | inl s' => Inv (x - step) s'
     | inr _ => False
     end) ->
  Inv x s ->
  exists n, forall fuel, (n <= fuel)%nat ->
    exists s' x', forDown fuel bound step body x s = Returns (inl s')
                  /\ Inv x' s' /\ x' < bound.
Proof.
  intros Hstep Hbody HI.
  destruct (forDown_terminates bound step body Hstep x s) as [n Hn].
  exists n. intros fuel Hfuel. destruct (Hn fuel Hfuel) as [res Hres].
  pose proof (forDown_invariant bound step body Inv (fun _ => False) Hbody
                fuel x s res HI Hres) as H.
  destruct res as [s'|r]; [|done].
  destruct H as (x' & H1 & H2). eauto.
Qed.

Section Comparisons.
Variable A : MembershipFunction.

Lemma isSubset_refl_returns (lo hi resolution : Q) :
  lo < hi -> 0 < resolution ->
  exists n, forall fuel, (n <= fuel)%nat ->
    isSubset fuel A A (lo, hi) resolution = Returns true.
Proof.
  intros Hr Hres.
  destruct (sampleStep_pos lo hi resolution Hr Hres) as (step & Hs & Hpos & _).
  edestruct (forUp_runs hi step
    (fun x (_ : unit) => if Qgtb (A x) (A x + tenth_nano) then inr false else inl tt)
    (fun _ _ => True) lo tt Hpos) as [n Hn]; [|done|].
  { intros x s _ _. assert (Qgtb (A x) (A x + tenth_nano) = false) as ->; [|done].
    apply Qgtb_false. unfold tenth_nano. lra. }
  exists n. intros fuel Hf. unfold isSubset. rewrite Hs.
  unfold mbind, outcome_bind.
  destruct (Hn fuel Hf) as (s' & x' & -> & _). done.
Qed.

Lemma isEqual_refl_returns (lo hi resolution tolerance : Q) :
  lo < hi -> 0 < resolution -> 0 <= tolerance ->
  exists n, forall fuel, (n <= fuel)%nat ->
    isEqual fuel A A (lo, hi) resolution tolerance = Returns true.
Proof.
  intros Hr Hres Htol.
  destruct (sampleStep_pos lo hi resolution Hr Hres) as (step & Hs & Hpos & _).
  edestruct (forUp_runs hi step
    (fun x (_ : unit) =>
       if Qgtb (Qabs (A x - A x)) tolerance then inr false else inl tt)
    (fun _ _ => True) lo tt Hpos) as [n Hn]; [|done|].
  { intros x s _ _. assert (Qgtb (Qabs (A x - A x)) tolerance = false) as ->; [|done].
    apply Qgtb_false. assert (A x - A x == 0) as -> by ring. simpl. done. }
  exists n. intros fuel Hf. unfold isEqual. rewrite Hs.
  unfold mbind, outcome_bind.
  destruct (Hn fuel Hf) as (s' & x' & -> & _). done.
Qed.

(** On an empty range ([max < min]) no sample is taken. *)
Lemma isEqual_empty_range (fuel : nat) (B : MembershipFunction)
    (lo hi resolution tolerance : Q) :
  hi < lo -> ~ resolution == 0 ->
  isEqual fuel A B (lo, hi) resolution tolerance = Returns true
  /\ isSubset fuel A B (lo, hi) resolution = Returns true.
Proof.
  intros Hr Hres. unfold isEqual, isSubset, sampleStep.
  apply Qeq_bool_false in Hres. rewrite Hres. unfold mbind, outcome_bind.
  apply Qle_bool_false in Hr. destruct fuel; unfold forUp; rewrite Hr; done.
Qed.

(** With a zero step the loop variable never passes [max]. *)
Lemma isEqual_refl_point_range (fuel : nat) (p resolution tolerance : Q) :
  ~ resolution == 0 -> 0 <= tolerance ->
  isEqual fuel A A (p, p) resolution tolerance = OutOfFuel
  /\ isSubset fuel A A (p, p) resolution = OutOfFuel.
Proof.
  intros Hres Htol. unfold isEqual, isSubset, sampleStep.
  apply Qeq_bool_false in Hres. rewrite Hres. unfold mbind, outcome_bind.
  assert ((p - p) / resolution <= 0) as Hstep.
  { assert ((p - p) / resolution == 0) as ->; [|lra]. unfold Qdiv. ring. }
  split.
  - rewrite forUp_diverges; [done|done| |lra].
    intros x s. assert (Qgtb (Qabs (A x - A x)) tolerance = false) as ->; [|eauto].
    apply Qgtb_false. assert (A x - A x == 0) as -> by ring. done.
  - rewrite forUp_diverges; [done|done| |lra].
    intros x s. assert (Qgtb (A x) (A x + tenth_nano) = false) as ->; [|eauto].
    apply Qgtb_false. unfold tenth_nano. lra.
Qed.

End Comparisons.




(** C3 (as amended). Every triple [a <= b <= c] is accepted, and the
    function returned has [f(a) = 0] and [f(c) = 0]; when the triple is
    strictly ordered, [a < b < c], it also has [f(b) = 1], is
    non-decreasing on [[a, b]] and is non-increasing on [[b, c]]. *)
Theorem triangular_shape (a b c : Q) :
  a <= b -> b <= c ->
  exists f, triangular a b c = inr f
            /\ f a == 0 /\ f c == 0
            /\ (a < b -> b < c -> triangular_profile a b c f).
Proof.
  intros Hab Hbc. destruct (triangular_accepts a b c Hab Hbc) as [f Hf].
  exists f. destruct (triangular_feet _ _ _ _ Hf) as [Ha Hc].
  split; [done|]. split; [done|]. split; [done|]. intros Hab' Hbc'.
  destruct (triangular_strict a b c Hab' Hbc') as (f' & Hf' & Hclaim).
  rewrite Hf in Hf'. injection Hf' as <-. done.
Qed.

Lemma triangular_shape_witness :
  exists f, triangular 0 50 100 = inr f /\ triangular_profile 0 50 100 f.
Proof.
  destruct (triangular_shape 0 50 100) as (f & Hf & _ & _ & H).
  - discriminate.
  - discriminate.
  - exists f. split; [exact Hf|]. apply H; reflexivity.
Defined.

(** C3 (counterexample). [triangular(0, 0, 10)] is accepted and is 0, not 1,
    at its peak [b = 0]. *)
Lemma triangular_degenerate_peak :
  exists f, triangular 0 0 10 = inr f /\ ~ triangular_profile 0 0 10 f.
Proof.
  eexists. split; [reflexivity|].
  intros (_ & _ & H & _). vm_compute in H. discriminate.
Qed.

(* ===================================================================== *)
(** * defuzzification.ts: functions that are zero everywhere *)
(* ===================================================================== *)

Lemma Qsum_snoc (values : list Q) (x : Q) : Qsum (values ++ [x]) = Qsum values + x.
Proof. unfold Qsum. by rewrite fold_left_app. Qed.

(** Replace a loop of the goal by the result it is known to have. *)
Ltac use_run Hrun :=
  match type of Hrun with
  | _ = ?rhs =>
      match goal with
      | |- context [@forUp ?S ?R ?f ?b ?s ?body ?x ?s0] =>
          replace (@forUp S R f b s body x s0) with rhs by (symmetry; exact Hrun)
      | |- context [@forDown ?S ?R ?f ?b ?s ?body ?x ?s0] =>
          replace (@forDown S R f b s body x s0) with rhs by (symmetry; exact Hrun)
      end
  end.

Section ZeroMembership.
Variable mf : MembershipFunction.
Hypothesis mf_zero : forall x, mf x == 0.
Variable options : DefuzzifyOptions.
Let lo := opt_min options.
Let hi := opt_max options.
Hypothesis proper_range : lo < hi.
Hypothesis positive_resolution : 0 < resolutionOf options.

Lemma centroid_zero :
  exists n, forall fuel, (n <= fuel)%nat ->
    centroid fuel mf options = Returns ((lo + hi) / 2).
Proof.
  destruct (sampleStep_pos lo hi _ proper_range positive_resolution)
    as (step & Hs & Hpos & _).
  edestruct (forUp_runs hi step
    (fun x '(sumWeighted, sumMembership) =>
       let mu := mf x in
       @inl (Q * Q) Q (sumWeighted + x * mu, sumMembership + mu))
    (fun _ s => snd s == 0) lo (0, 0) Hpos) as [n Hn]; [|done|].
  { intros x [sw sm] _ H. simpl in *. rewrite H, mf_zero. ring. }
  exists n. intros fuel Hf. unfold centroid. cbv zeta. fold lo hi. rewrite Hs.
  unfold mbind, outcome_bind.
  destruct (Hn fuel Hf) as ([sw sm] & x' & Hrun & H & _). use_run Hrun.
  simpl in H.
  apply Qeq_bool_iff in H. by rewrite H.
Qed.

Lemma bisector_zero :
  exists n, forall fuel, (n <= fuel)%nat ->
    bisector fuel mf options = Returns ((lo + hi) / 2).
Proof.
  destruct (sampleStep_pos lo hi _ proper_range positive_resolution)
    as (step & Hs & Hpos & _).
  edestruct (forUp_runs hi step
    (fun x totalArea => @inl Q Q (totalArea + mf x * step))
    (fun _ s => s == 0) lo 0 Hpos) as [n Hn]; [|done|].
  { intros x s _ H. simpl. rewrite H, mf_zero. ring. }
  exists n. intros fuel Hf. unfold bisector. cbv zeta. fold lo hi. rewrite Hs.
  unfold mbind, outcome_bind.
  destruct (Hn fuel Hf) as (s & x' & Hrun & H & _). use_run Hrun.
  apply Qeq_bool_iff in H. by rewrite H.
Qed.

Lemma smallestOfMaximum_zero :
  exists n, forall fuel, (n <= fuel)%nat ->
    smallestOfMaximum fuel mf options = Returns lo.
Proof.
  destruct (sampleStep_pos lo hi _ proper_range positive_resolution)
    as (step & Hs & Hpos & _).
  edestruct (forUp_runs hi step
    (fun x '(maxMembership, smallestMax) =>
       let mu := mf x in
       if Qgtb mu maxMembership then @inl (Q * Q) Q (mu, x)
       else inl (maxMembership, smallestMax))
    (fun _ s => fst s == 0 /\ snd s = lo) lo (0, lo) Hpos) as [n Hn]; [|done|].
  { intros x [mm sm] _ [H1 H2]. simpl in *.
    assert (Qgtb (mf x) mm = false) as ->; [|done].
    apply Qgtb_false. rewrite H1, mf_zero. lra. }
  exists n. intros fuel Hf. unfold smallestOfMaximum. cbv zeta. fold lo hi. rewrite Hs.
  unfold mbind, outcome_bind.
  destruct (Hn fuel Hf) as ([mm sm] & x' & Hrun & [_ H] & _). use_run Hrun.
  simpl in H. by subst.
Qed.

Lemma largestOfMaximum_zero :
  exists n, forall fuel, (n <= fuel)%nat ->
    largestOfMaximum fuel mf options = Returns hi.
Proof.
  destruct (sampleStep_pos lo hi _ proper_range positive_resolution)
    as (step & Hs & Hpos & _).
  edestruct (forDown_runs lo step
    (fun x '(maxMembership, largestMax) =>
       let mu := mf x in
       if Qgtb mu maxMembership then @inl (Q * Q) Q (mu, x)
       else inl (maxMembership, largestMax))
    (fun _ s => fst s == 0 /\ snd s = hi) hi (0, hi) Hpos) as [n Hn]; [|done|].
  { intros x [mm sm] _ [H1 H2]. simpl in *.
    assert (Qgtb (mf x) mm = false) as ->; [|done].
    apply Qgtb_false. rewrite H1, mf_zero. lra. }
  exists n. intros fuel Hf. unfold largestOfMaximum. cbv zeta. fold lo hi. rewrite Hs.
  unfold mbind, outcome_bind.
  destruct (Hn fuel Hf) as ([mm sm] & x' & Hrun & [_ H] & _). use_run Hrun.
  simpl in H. by subst.
Qed.

(** With an integer resolution [N] the samples are [lo + k * step] for
    [k = 0 .. N], every one of them a maximum of the zero function. *)
Lemma meanOfMaximum_zero (N : positive) :
  resolutionOf options == inject_Z (Z.pos N) ->
  exists n, forall fuel, (n <= fuel)%nat ->
    exists v, meanOfMaximum fuel mf options = Returns v /\ v == (lo + hi) / 2.
Proof.
  intros HN.
  destruct (sampleStep_pos lo hi _ proper_range positive_resolution)
    as (step & Hs & Hpos & Hstep).
  rewrite HN in Hstep.
  set (q := fun k : nat => inject_Z (Z.of_nat k)).
  edestruct (forUp_runs hi step
    (fun x '(maxMembership, maxPoints) =>
       let mu := mf x in
       if Qgtb mu maxMembership then @inl (Q * list Q) Q (mu, [x])
       else if Qltb (Qabs (mu - maxMembership)) tenth_nano
            then inl (maxMembership, maxPoints ++ [x])
            else inl (maxMembership, maxPoints))
    (fun x s => exists k : nat,
         x == lo + q k * step /\ fst s == 0 /\ length (snd s) = k
         /\ Qsum (snd s) == q k * lo + step * (q k * (q k - 1) / 2)
         /\ q k <= inject_Z (Z.pos N) + 1)
    lo (0, []) Hpos) as [n Hn].
  { intros x [mm pts] Hx (k & Hk & Hmm & Hlen & Hsum & Hle). cbn [fst snd] in *.
    assert (Qgtb (mf x) mm = false) as ->.
    { apply Qgtb_false. rewrite Hmm, mf_zero. lra. }
    assert (Qltb (Qabs (mf x - mm)) tenth_nano = true) as ->.
    { apply Qltb_true. assert (mf x - mm == 0) as ->; [|reflexivity].
      rewrite Hmm, mf_zero. ring. }
    exists (Datatypes.S k). cbn [fst snd].
    assert (q (Datatypes.S k) == q k + 1) as Hq.
    { unfold q. rewrite Nat2Z.inj_succ, <- Z.add_1_r, inject_Z_plus. reflexivity. }
    split; [rewrite Hq, Hk; ring|]. split; [done|].
    split; [rewrite length_app; simpl; lia|].
    split.
    - rewrite Qsum_snoc, Hsum, Hq, Hk. field.
    - rewrite Hq. rewrite Hk in Hx.
      assert (q k * step <= inject_Z (Z.pos N) * step) as H by lra.
      assert (q k <= inject_Z (Z.pos N)); [|lra].
      apply Qmult_lt_0_le_reg_r with step; done. }
  { exists 0%nat. change (q 0%nat) with 0. cbn [fst snd length].
    split; [ring|]. split; [reflexivity|]. split; [reflexivity|].
    split; [unfold Qsum; simpl; field|].
    change 0 with (inject_Z 0). change 1 with (inject_Z 1).
    rewrite <- inject_Z_plus, <- Zle_Qle. lia. }
  exists n. intros fuel Hf. unfold meanOfMaximum. cbv zeta. fold lo hi. rewrite Hs.
  unfold mbind, outcome_bind.
  destruct (Hn fuel Hf) as ([mm pts] & x' & Hrun & (k & Hk & _ & Hlen & Hsum & Hle) & Hx').
  use_run Hrun.
  simpl in *.
  assert (Z.of_nat k = (Z.pos N + 1)%Z) as HkZ.
  { rewrite Hk in Hx'.
    assert (inject_Z (Z.pos N) * step < q k * step) as H by lra.
    assert (inject_Z (Z.pos N) < q k) as H'.
    { apply Qmult_lt_r with step; done. }
    unfold q in H', Hle. change 1 with (inject_Z 1) in Hle.
    rewrite <- inject_Z_plus in Hle.
    rewrite <- Zlt_Qlt in H'. rewrite <- Zle_Qle in Hle. lia. }
  assert (q k == inject_Z (Z.pos N) + 1) as Hk'.
  { unfold q. rewrite HkZ, inject_Z_plus. reflexivity. }
  destruct pts as [|p pts]; [simpl in Hlen; subst k; simpl in HkZ; lia|].
  eexists. split; [reflexivity|].
  rewrite Hsum, Hlen. fold (q k). rewrite Hk'.
  assert (0 < inject_Z (Z.pos N)) as HNpos by (rewrite HN in positive_resolution; done).
  assert (hi == lo + step * inject_Z (Z.pos N)) as -> by lra.
  field. lra.
Qed.

End ZeroMembership.

(** Whatever the range and the fuel, the only value [som] can return on a
    zero function is [min]. *)
Lemma smallestOfMaximum_zero_only_min (mf : MembershipFunction)
    (options : DefuzzifyOptions) (fuel : nat) (v : Q) :
  (forall x, mf x == 0) ->
  smallestOfMaximum fuel mf options = Returns v -> v = opt_min options.
Proof.
  intros Hz. unfold smallestOfMaximum. cbv zeta.
  destruct (sampleStep _ _ _) as [step| |]; try discriminate.
  unfold mbind, outcome_bind.
  match goal with |- context [forUp ?f ?b ?s ?body ?x ?s0] =>
    pose proof (forUp_invariant b s body
      (fun _ st => fst st == 0 /\ snd st = opt_min options) (fun _ => False)) as H;
    destruct (forUp f b s body x s0) as [res| |] eqn:E; try discriminate
  end.
  lazymatch type of H with
  | ?P -> _ => assert P as HP; [|specialize (H HP)]
  end.
  - intros x [mm sm] _ [H1 H2]. cbn [fst snd] in *.
    assert (Qgtb (mf x) mm = false) as ->; [|done].
    apply Qgtb_false. rewrite H1, Hz. lra.
  - specialize (H fuel (opt_min options) (0, opt_min options) res
                  (conj (Qeq_refl 0) eq_refl) E).
    destruct res as [[mm sm]|r]; [|done].
    destruct H as (x' & [_ H] & _). cbn in H. intros [= <-]. done.
Qed.




(* ===================================================================== *)
(** * engine.ts: range inference *)
(* ===================================================================== *)

Section MinMaxFolds.

Lemma mathMin_spec (l : list Q) (a : Q) :
  (mathMin a l == a \/ exists y, In y l /\ mathMin a l == y)
  /\ mathMin a l <= a /\ (forall x, In x l -> mathMin a l <= x).
Proof.
  unfold mathMin. revert a. induction l as [|y l IH]; intros a; simpl.
  - split; [left; reflexivity|]. split; [lra|]. intros x [].
  - destruct (IH (Qmin a y)) as (H1 & H2 & H3).
    pose proof (Q.le_min_l a y). pose proof (Q.le_min_r a y).
    split; [|split].
    + destruct H1 as [H1|(z & Hz & H1)]; [|right; exists z; split; [by right|done]].
      destruct (Q.min_dec a y) as [E|E];
        [left|right; exists y; split; [by left|]]; by rewrite H1.
    + lra.
    + intros x [<-|Hx]; [lra|by apply H3].
Qed.

Lemma mathMax_spec (l : list Q) (a : Q) :
  (mathMax a l == a \/ exists y, In y l /\ mathMax a l == y)
  /\ a <= mathMax a l /\ (forall x, In x l -> x <= mathMax a l).
Proof.
  unfold mathMax. revert a. induction l as [|y l IH]; intros a; simpl.
  - split; [left; reflexivity|]. split; [lra|]. intros x [].
  - destruct (IH (Qmax a y)) as (H1 & H2 & H3).
    pose proof (Q.le_max_l a y). pose proof (Q.le_max_r a y).
    split; [|split].
    + destruct H1 as [H1|(z & Hz & H1)]; [|right; exists z; split; [by right|done]].
      destruct (Q.max_dec a y) as [E|E];
        [left|right; exists y; split; [by left|]]; by rewrite H1.
    + lra.
    + intros x [<-|Hx]; [lra|by apply H3].
Qed.

(** The folds only depend on which values occur. *)
Lemma mathMin_same_elements (l1 l2 : list Q) (a : Q) :
  (forall x, In x l1 <-> In x l2) -> mathMin a l1 == mathMin a l2.
Proof.
  intros Hin.
  destruct (mathMin_spec l1 a) as (A1 & A2 & A3).
  destruct (mathMin_spec l2 a) as (B1 & B2 & B3).
  apply Qle_antisym.
  - destruct B1 as [->|(y & Hy & ->)]; [done|]. apply A3, Hin, Hy.
  - destruct A1 as [->|(y & Hy & ->)]; [done|]. apply B3, Hin, Hy.
Qed.

Lemma mathMax_same_elements (l1 l2 : list Q) (a : Q) :
  (forall x, In x l1 <-> In x l2) -> mathMax a l1 == mathMax a l2.
Proof.
  intros Hin.
  destruct (mathMax_spec l1 a) as (A1 & A2 & A3).
  destruct (mathMax_spec l2 a) as (B1 & B2 & B3).
  apply Qle_antisym.
  - destruct A1 as [->|(y & Hy & ->)]; [done|]. apply B3, Hin, Hy.
  - destruct B1 as [->|(y & Hy & ->)]; [done|]. apply A3, Hin, Hy.
Qed.

End MinMaxFolds.

Section RangeInference.

Lemma widen_fold (l : list Q) (acc : Q * Q) :
  fold_left widen l acc = (mathMin (fst acc) l, mathMax (snd acc) l).
Proof.
  revert acc. induction l as [|x l IH]; intros [lo hi]; simpl; [done|].
  by rewrite IH.
Qed.

Lemma probe_widen (mf : MembershipFunction) (acc : Q * Q) :
  probe mf acc
  = fold_left widen (List.filter (fun x => Qgtb (mf x) 0.01) testPoints) acc.
Proof.
  unfold probe. generalize testPoints. intros l. revert acc.
  induction l as [|x l IH]; intros [lo hi]; simpl; [done|].
  destruct (Qgtb (mf x) 0.01); simpl; by rewrite IH.
Qed.

Lemma inferRange_widen (sets : FuzzySet) :
  inferRange sets = fold_left widen (hitsInOrder sets) (0, 100).
Proof.
  unfold inferRange. generalize (0, 100). unfold hitsInOrder.
  induction sets as [|[t mf] sets IH]; intros acc; simpl; [done|].
  rewrite fold_left_app, IH, probe_widen. done.
Qed.

Lemma hitsInOrder_hits (sets : FuzzySet) (x : Q) :
  In x (hitsInOrder sets) <-> In x (hits sets).
Proof.
  unfold hitsInOrder, hits.
  rewrite in_flat_map, filter_In, existsb_exists. split.
  - intros (entry & He & Hx). apply filter_In in Hx as [Hx Hgt]. eauto.
  - intros (Hx & entry & He & Hgt). exists entry. split; [done|].
    apply filter_In. done.
Qed.

Lemma inferRange_hull (sets : FuzzySet) :
  fst (inferRange sets) == mathMin 0 (hits sets)
  /\ snd (inferRange sets) == mathMax 100 (hits sets).
Proof.
  rewrite inferRange_widen, widen_fold. simpl.
  split; [apply mathMin_same_elements|apply mathMax_same_elements];
    apply hitsInOrder_hits.
Qed.

End RangeInference.

(** C2 (as amended). A variable registered by [addVariable] or [addOutput]
    without a range is stored with the range computed by [inferRange], which
    is [[min(0, m), max(100, M)]] for [m] and [M] the least and greatest
    probe points at which some membership function exceeds 0.01: the default
    window [[0, 100]] widened to the hit probe points, and hence the default
    window itself exactly when every hit probe point lies in [[0, 100]]. *)
Theorem inferred_range_is_widened_default (name : string) (sets : FuzzySet)
    (e : FuzzyEngine) :
  variables (addVariable name sets None e) !! name
    = Some (mkVariable name sets (inferRange sets) false)
  /\ variables (addOutput name sets None e) !! name
    = Some (mkVariable name sets (inferRange sets) true)
  /\ fst (inferRange sets) == mathMin 0 (hits sets)
  /\ snd (inferRange sets) == mathMax 100 (hits sets)
  /\ ((fst (inferRange sets) == 0 /\ snd (inferRange sets) == 100)
      <-> forall x, In x (hits sets) -> 0 <= x <= 100).
Proof.
  destruct (inferRange_hull sets) as [Hlo Hhi].
  split; [apply lookup_insert_eq|]. split; [apply lookup_insert_eq|].
  split; [done|]. split; [done|].
  rewrite Hlo, Hhi.
  destruct (mathMin_spec (hits sets) 0) as (A1 & A2 & A3).
  destruct (mathMax_spec (hits sets) 100) as (B1 & B2 & B3).
  split.
  - intros [E1 E2] x Hx. specialize (A3 x Hx). specialize (B3 x Hx). lra.
  - intros H. split.
    + destruct A1 as [->|(y & Hy & E)]; [reflexivity|].
      specialize (H y Hy). lra.
    + destruct B1 as [->|(y & Hy & E)]; [reflexivity|].
      specialize (H y Hy). lra.
Qed.

(** C2 (counterexample). A single term [triangular(5, 10, 15)] exceeds the
    threshold at the probe point 10 only: the specification's wording gives
    the range [[10, 10]], the engine stores [[0, 100]]. *)
Lemma inferred_range_keeps_default_window :
  let sets := [("near10"%string, tri 5 10 15)] in
  hits sets = [10]
  /\ described_range sets = (10, 10)
  /\ var_range <$> (variables (addVariable "v" sets None newEngine) !! "v"%string)
     = Some (0, 100)
  /\ var_range <$> (variables (addOutput "v" sets None newEngine) !! "v"%string)
     = Some (0, 100).
Proof.
  cbv zeta. repeat split; vm_compute; reflexivity.
Qed.

(* ===================================================================== *)
(** * engine.ts: rule registration *)
(* ===================================================================== *)

Section RuleRegistration.
Variable e : FuzzyEngine.

Lemma validateRule_withRules (rs : list FuzzyRule) (rule : FuzzyRule) :
  validateRule (withRules rs e) rule = validateRule e rule.
Proof.
  unfold validateRule.
  assert (forall entries,
    validateAntecedent (withRules rs e) entries = validateAntecedent e entries) as ->.
  { induction entries as [|[v ts] entries IH]; simpl; [done|]. by rewrite IH. }
  assert (forall entries,
    validateConsequent (withRules rs e) entries = validateConsequent e entries) as ->.
  { induction entries as [|[v ts] entries IH]; simpl; [done|]. by rewrite IH. }
  done.
Qed.

Lemma addRule_rejected (rule : FuzzyRule) (err : RuleError) :
  validateRule e rule = inl err -> addRule rule e = (e, inl err).
Proof. unfold addRule. by intros ->. Qed.

Lemma addRule_accepted (rule : FuzzyRule) :
  validateRule e rule = inr tt ->
  addRule rule e = (withRules (rules e ++ [rule]) e, inr tt).
Proof. unfold addRule. by intros ->. Qed.

Lemma validateAntecedent_unknown_variable (entries : RuleCondition) :
  (exists varName terms,
      In (varName, terms) entries /\ variables e !! varName = None) ->
  exists err, validateAntecedent e entries = inl err
              /\ (errorKind err = UnknownVariable \/ errorKind err = UnknownTerm).
Proof.
  intros (varName & terms & Hin & Hnone).
  induction entries as [|[v ts] entries IH]; [done|]. simpl.
  destruct (variables e !! v) as [variable|] eqn:Ev.
  - destruct (validateTerms variable v (termList ts)) as [err|[]] eqn:Et.
    + exists err. split; [done|]. right.
      clear -Et. induction (termList ts) as [|t l IHl]; simpl in Et; [done|].
      destruct (obj_get t (var_sets variable)); [by apply IHl|].
      by injection Et as <-.
    + destruct Hin as [[= -> ->]|Hin]; [congruence|]. by apply IH.
  - eexists. split; [done|]. by left.
Qed.

Lemma validateAntecedent_first_unknown (pre post : RuleCondition)
    (varName : string) (terms : Terms) :
  validateAntecedent e pre = inr tt ->
  variables e !! varName = None ->
  validateAntecedent e (pre ++ (varName, terms) :: post)
  = inl (UnknownAntecedentVariable varName).
Proof.
  intros Hpre Hnone. induction pre as [|[v ts] pre IH]; simpl in *.
  - by rewrite Hnone.
  - destruct (variables e !! v); [|done].
    destruct (validateTerms _ _ _) as [err|[]]; [done|]. by apply IH.
Qed.

End RuleRegistration.

Lemma addRules_stops_at_first_invalid (e : FuzzyEngine)
    (pre post : list FuzzyRule) (bad : FuzzyRule) (err : RuleError) :
  Forall (fun rule => validateRule e rule = inr tt) pre ->
  validateRule e bad = inl err ->
  addRules (pre ++ bad :: post) e = (withRules (rules e ++ pre) e, inl err).
Proof.
  intros Hpre Hbad. revert e Hpre Hbad.
  induction pre as [|rule pre IH]; intros e Hpre Hbad; simpl.
  - rewrite (addRule_rejected e bad err Hbad). rewrite app_nil_r. by destruct e.
  - inversion Hpre as [|? ? Hrule Hpre']; subst.
    rewrite (addRule_accepted e rule Hrule).
    rewrite IH.
    + simpl. by rewrite <- app_assoc.
    + eapply Forall_impl; [exact Hpre'|].
      intros r Hr. by rewrite validateRule_withRules.
    + by rewrite validateRule_withRules.
Qed.

Lemma first_invalid_rule (e : FuzzyEngine) (rs : list FuzzyRule) :
  Exists (fun rule => validateRule e rule <> inr tt) rs ->
  exists pre bad post err,
    rs = pre ++ bad :: post
    /\ Forall (fun rule => validateRule e rule = inr tt) pre
    /\ validateRule e bad = inl err.
Proof.
  induction rs as [|rule rs IH]; intros Hex; [by inversion Hex|].
  destruct (validateRule e rule) as [err|[]] eqn:Ev.
  - exists [], rule, rs, err. by repeat split.
  - destruct IH as (pre & bad & post & err & -> & Hpre & Hbad).
    { inversion Hex as [? ? Hne|? ? Htl]; subst; [congruence|done]. }
    exists (rule :: pre), bad, post, err. split; [done|]. split; [|done].
    by constructor.
Qed.

(** C4 (as amended). When some rule of the list fails validation,
    [addRules(rules)] throws the error of the first such rule; the rules
    before it in the list have then been added, in order, and no rule from
    it onwards has: [getRules()] afterwards is what it was before followed
    by those earlier rules, and the registry is untouched. *)
Theorem addRules_keeps_valid_prefix (e : FuzzyEngine) (rs : list FuzzyRule) :
  Exists (fun rule => validateRule e rule <> inr tt) rs ->
  exists pre bad post err,
    rs = pre ++ bad :: post
    /\ Forall (fun rule => validateRule e rule = inr tt) pre
    /\ validateRule e bad = inl err
    /\ snd (addRules rs e) = inl err
    /\ getRules (fst (addRules rs e)) = getRules e ++ pre
    /\ variables (fst (addRules rs e)) = variables e.
Proof.
  intros Hex.
  destruct (first_invalid_rule e rs Hex) as (pre & bad & post & err & -> & Hpre & Hbad).
  exists pre, bad, post, err.
  rewrite (addRules_stops_at_first_invalid e pre post bad err Hpre Hbad).
  by repeat split.
Qed.


Lemma addRules_keeps_valid_prefix_witness :
  exists pre bad post err,
    [ruleCold; ruleUnknown; ruleWarm] = pre ++ bad :: post
    /\ Forall (fun rule => validateRule exampleEngine rule = inr tt) pre
    /\ validateRule exampleEngine bad = inl err
    /\ snd (addRules [ruleCold; ruleUnknown; ruleWarm] exampleEngine) = inl err
    /\ getRules (fst (addRules [ruleCold; ruleUnknown; ruleWarm] exampleEngine))
       = getRules exampleEngine ++ pre
    /\ variables (fst (addRules [ruleCold; ruleUnknown; ruleWarm] exampleEngine))
       = variables exampleEngine.
Proof.
  apply (addRules_keeps_valid_prefix exampleEngine [ruleCold; ruleUnknown; ruleWarm]).
  apply Exists_cons_tl, Exists_cons_hd. vm_compute. discriminate.
Defined.

(** C4 (counterexample). [addRules([ruleCold, ruleUnknown])] throws on the
    second rule and leaves the first one registered. *)
Lemma addRules_partial_mutation :
  let after := addRules [ruleCold; ruleUnknown] exampleEngine in
  snd after = inl (UnknownAntecedentVariable "unknown")
  /\ getRules exampleEngine = []
  /\ getRules (fst after) = [ruleCold]
  /\ getRules (fst after) <> getRules exampleEngine.
Proof.
  cbv zeta. split; [vm_compute; reflexivity|]. split; [reflexivity|].
  split; [vm_compute; reflexivity|]. vm_compute. discriminate.
Qed.



(* ===================================================================== *)
(** * engine.ts: the records of a verbose evaluation *)
(* ===================================================================== *)

Section Records.
Variable e : FuzzyEngine.

Lemma fuzzify_records (inputs : list (string * Q)) :
  map (fun f => (fz_variable f, fz_value f)) (fuzzify e inputs)
  = List.filter (isRegisteredInput e) inputs.
Proof.
  induction inputs as [|[name value] inputs IH]; simpl; [done|].
  unfold isRegisteredInput. simpl.
  destruct (variables e !! name) as [variable|]; [|done].
  destruct (var_isOutput variable); simpl; [done|]. by rewrite IH.
Qed.

Lemma evaluateRules_records (fuzzification : list FuzzificationResult) :
  map re_rule (evaluateRules e fuzzification) = rules e.
Proof.
  unfold evaluateRules. rewrite map_map. simpl. apply map_id.
Qed.

Lemma evaluateVerbose_records (fuel : nat) (inputs : list (string * Q))
    (result : EvaluationResult) :
  evaluateVerbose fuel e inputs = Returns result ->
  ev_fuzzification result = fuzzify e inputs
  /\ ev_ruleEvaluations result = evaluateRules e (fuzzify e inputs).
Proof.
  unfold evaluateVerbose. cbv zeta.
  destruct (defuzzifyOutputs _ _ _) as [outputs| |]; try discriminate.
  intros [= <-]. done.
Qed.

End Records.

Section SamplingTerminates.
Variables (lo hi resolution step : Q).
Hypothesis proper_range : lo < hi.
Hypothesis positive_resolution : 0 < resolution.
Hypothesis step_def : sampleStep lo hi resolution = Returns step.

Lemma step_positive : 0 < step /\ step * resolution == hi - lo.
Proof.
  destruct (sampleStep_pos lo hi resolution proper_range positive_resolution)
    as (step' & Hs & Hpos & Hmul).
  rewrite step_def in Hs. injection Hs as <-. done.
Qed.

Lemma samples_cover : hi - lo < inject_Z (Z.of_nat (samples resolution)) * step.
Proof.
  destruct step_positive as [Hpos Hmul].
  pose proof (Qlt_floor resolution) as Hfl. unfold samples.
  set (k := (Qfloor resolution + 1)%Z) in *.
  assert (inject_Z k <= inject_Z (Z.of_nat (Z.to_nat k))) as Hk.
  { rewrite <- Zle_Qle. lia. }
  assert (resolution * step < inject_Z k * step) as H1.
  { apply Qmult_lt_compat_r; done. }
  assert (inject_Z k * step <= inject_Z (Z.of_nat (Z.to_nat k)) * step) as H2.
  { apply Qmult_le_compat_r; lra. }
  lra.
Qed.

Lemma forUp_sampling {S R : Type} (body : Q -> S -> S + R) (s : S) (fuel : nat) :
  (samples resolution <= fuel)%nat ->
  exists res, forUp fuel hi step body lo s = Returns res.
Proof.
  intros Hf. destruct step_positive as [Hpos _].
  apply (forUp_fuel_enough hi step body (samples resolution) Hpos lo s
           samples_cover fuel Hf).
Qed.

Lemma forDown_sampling {S R : Type} (body : Q -> S -> S + R) (s : S) (fuel : nat) :
  (samples resolution <= fuel)%nat ->
  exists res, forDown fuel lo step body hi s = Returns res.
Proof.
  intros Hf. destruct step_positive as [Hpos _].
  apply (forDown_fuel_enough lo step body (samples resolution) Hpos hi s
           samples_cover fuel Hf).
Qed.

End SamplingTerminates.

(** Every defuzzifier returns on a range with [min < max] sampled at a
    positive resolution, whatever the membership function. *)
Lemma defuzzify_returns (mf : MembershipFunction) (method : string)
    (options : DefuzzifyOptions) (fuel : nat) :
  opt_min options < opt_max options ->
  0 < resolutionOf options ->
  (samples (resolutionOf options) <= fuel)%nat ->
  exists v, defuzzify fuel mf method options = Returns v.
Proof.
  intros Hr Hres Hf.
  destruct (sampleStep_pos _ _ _ Hr Hres) as (step & Hs & _).
  pose proof (fun S R => @forUp_sampling _ _ _ _ Hr Hres Hs S R) as Hup.
  pose proof (fun S R => @forDown_sampling _ _ _ _ Hr Hres Hs S R) as Hdown.
  unfold defuzzify, getDefuzzifier.
  repeat case_match;
    unfold centroid, bisector, meanOfMaximum, smallestOfMaximum, largestOfMaximum;
    cbv zeta; rewrite Hs; unfold mbind, outcome_bind.
  all: match goal with
       | |- context [@forUp ?S ?R ?f ?b ?s ?body ?x ?s0] =>
           destruct (Hup S R body s0 f Hf) as [res Hrun]; use_run Hrun
       | |- context [@forDown ?S ?R ?f ?b ?s ?body ?x ?s0] =>
           destruct (Hdown S R body s0 f Hf) as [res Hrun]; use_run Hrun
       end.
  all: destruct res as [st|v]; [|eauto]; try destruct st as [a b]; eauto.
  all: try (destruct (Qeq_bool _ 0); eauto).
  all: try (destruct b; eauto).
  all: match goal with
       | |- context [@forUp ?S ?R ?f ?b ?s ?body ?x ?s0] =>
           destruct (Hup S R body s0 f Hf) as [res' Hrun']; use_run Hrun'
       end.
  all: destruct res'; eauto.
Qed.

Section EvaluateReturns.
Variable e : FuzzyEngine.
Variable fuel : nat.
Hypothesis positive_resolution : 0 < resolution e.
Hypothesis enough_fuel : (samples (resolution e) <= fuel)%nat.

Lemma defuzzifyEntries_returns (entries : list (string * MembershipFunction))
    (outputs : list (string * Q)) :
  (forall name mf variable,
      In (name, mf) entries -> variables e !! name = Some variable ->
      fst (var_range variable) < snd (var_range variable)) ->
  exists outputs', defuzzifyEntries fuel e entries outputs = Returns outputs'.
Proof.
  revert outputs. induction entries as [|[name mf] entries IH];
    intros outputs Hproper; simpl; [eauto|].
  assert (forall name mf variable,
      In (name, mf) entries -> variables e !! name = Some variable ->
      fst (var_range variable) < snd (var_range variable)) as Hrest.
  { intros n m v Hin. apply (Hproper n m v). by right. }
  destruct (variables e !! name) as [variable|] eqn:Ev; [|by apply IH].
  destruct (defuzzify_returns mf (defuzzificationMethod e) (optionsOf e variable) fuel)
    as [v Hv]; [apply (Hproper name mf variable); [by left|done]|done|done|].
  rewrite Hv. unfold mbind, outcome_bind. by apply IH.
Qed.

Lemma evaluateVerbose_returns (inputs : list (string * Q)) :
  (forall name variable,
      variables e !! name = Some variable ->
      fst (var_range variable) < snd (var_range variable)) ->
  exists result, evaluateVerbose fuel e inputs = Returns result.
Proof.
  intros Hproper. unfold evaluateVerbose, defuzzifyOutputs. cbv zeta.
  edestruct defuzzifyEntries_returns as [outputs ->]; [|unfold mbind; simpl; eauto].
  intros name mf variable _. apply Hproper.
Qed.

End EvaluateReturns.

(** C8. [fuzzify] keeps exactly the input entries that name a registered
    variable which is not an output, one record each and in order, and drops
    every other entry without an error; [evaluateRules] yields exactly one
    record per registered rule, in order.  These are the records of every
    result of [evaluateVerbose], and a result is returned whenever the
    registered ranges have [min < max] and the resolution is positive. *)
Theorem verbose_records (e : FuzzyEngine) (inputs : list (string * Q)) :
  map (fun f => (fz_variable f, fz_value f)) (fuzzify e inputs)
    = List.filter (isRegisteredInput e) inputs
  /\ map re_rule (evaluateRules e (fuzzify e inputs)) = rules e
  /\ (forall fuel result,
        evaluateVerbose fuel e inputs = Returns result ->
        ev_fuzzification result = fuzzify e inputs
        /\ ev_ruleEvaluations result = evaluateRules e (fuzzify e inputs)
        /\ length (ev_fuzzification result)
           = length (List.filter (isRegisteredInput e) inputs)
        /\ length (ev_ruleEvaluations result) = length (rules e))
  /\ ((forall name variable,
         variables e !! name = Some variable ->
         fst (var_range variable) < snd (var_range variable)) ->
      0 < resolution e ->
      forall fuel, (samples (resolution e) <= fuel)%nat ->
      exists result, evaluateVerbose fuel e inputs = Returns result).
Proof.
  split; [apply fuzzify_records|]. split; [apply evaluateRules_records|]. split.
  - intros fuel result Hr.
    destruct (evaluateVerbose_records e fuel inputs result Hr) as [-> ->].
    split; [done|]. split; [done|]. split.
    + by rewrite <- fuzzify_records, length_map.
    + pose proof (evaluateRules_records e (fuzzify e inputs)) as H.
      apply (f_equal length) in H. by rewrite length_map in H.
  - intros Hproper Hres fuel Hf. by apply evaluateVerbose_returns.
Qed.

(** The scenario of the test suite: one input variable and three rules give
    one fuzzification record and three rule-evaluation records, also when
    the inputs carry an output variable's name and an unregistered name. *)
Example verbose_records_test_suite :
  let engine :=
    setResolution 4 (fst (addRules [ruleCold; ruleWarm; ruleHot] exampleEngine)) in
  (fun result =>
     (map fz_variable (ev_fuzzification result),
      length (ev_ruleEvaluations result),
      map (fun '(name, value) => (name, Qred value)) (ev_outputs result)))
    <$> evaluateVerbose 5 engine
          [("temperature"%string, 50); ("fanSpeed"%string, 3); ("humidity"%string, 7)]
  = Returns (["temperature"%string], 3%nat, [("fanSpeed"%string, 50)]).
Proof. vm_compute. reflexivity. Qed.

(* ===================================================================== *)
(** * Facts about objects *)
(* ===================================================================== *)

Section ObjectFacts.
Context {A : Type}.
Implicit Types (o : list (string * A)) (k : string) (v : A).

Lemma obj_get_set_eq o k v : obj_get k (obj_set k v o) = Some v.
Proof.
  induction o as [|[k' v'] o IH]; simpl.
  - by rewrite String.eqb_refl.
  - destruct (String.eqb k k') eqn:E; simpl.
    + by rewrite String.eqb_refl.
    + by rewrite E.
Qed.

Lemma obj_get_set_ne o k k' v : k <> k' -> obj_get k' (obj_set k v o) = obj_get k' o.
Proof.
  intros Hne. induction o as [|[k0 v0] o IH]; simpl.
  - apply String.eqb_neq in Hne. rewrite String.eqb_sym in Hne. by rewrite Hne.
  - destruct (String.eqb k k0) eqn:E; simpl.
    + apply String.eqb_eq in E. subst k0.
      assert (String.eqb k' k = false) as ->; [|done].
      apply String.eqb_neq. congruence.
    + by rewrite IH.
Qed.

Lemma obj_set_In o k v k' v' :
  In (k', v') (obj_set k v o) -> (k' = k /\ v' = v) \/ In (k', v') o.
Proof.
  induction o as [|[k0 v0] o IH]; simpl.
  - intros [[= <- <-]|[]]. by left.
  - destruct (String.eqb k k0); simpl.
    + intros [[= <- <-]|H]; [by left|by right; right].
    + intros [H|H]; [by right; left|].
      destruct (IH H) as [?|?]; [by left|by right; right].
Qed.

Lemma obj_get_In o k v : obj_get k o = Some v -> In (k, v) o.
Proof.
  induction o as [|[k0 v0] o IH]; simpl; [done|].
  destruct (String.eqb k k0) eqn:E.
  - apply String.eqb_eq in E. subst k0. intros [= <-]. by left.
  - intros H. right. by apply IH.
Qed.

Lemma obj_get_None o k : obj_get k o = None <-> ~ In k (map fst o).
Proof.
  induction o as [|[k0 v0] o IH]; simpl; [tauto|].
  destruct (String.eqb k k0) eqn:E.
  - apply String.eqb_eq in E. subst k0. split; [done|]. intros H. destruct H. by left.
  - apply String.eqb_neq in E. rewrite IH. split.
    + intros H [H'|H']; [congruence|done].
    + intros H H'. apply H. by right.
Qed.

Lemma obj_get_is_Some o k : In k (map fst o) -> exists v, obj_get k o = Some v.
Proof.
  intros Hin. destruct (obj_get k o) as [v|] eqn:E; [eauto|].
  by apply obj_get_None in E.
Qed.

Lemma obj_set_keys o k v :
  map fst (obj_set k v o)
  = match obj_get k o with
    | Some _ => map fst o
    | None => map fst o ++ [k]
    end.
Proof.
  induction o as [|[k0 v0] o IH]; simpl; [done|].
  destruct (String.eqb k k0) eqn:E; simpl.
  - apply String.eqb_eq in E. by subst.
  - rewrite IH. by destruct (obj_get k o).
Qed.

Lemma obj_set_NoDup o k v :
  List.NoDup (map fst o) -> List.NoDup (map fst (obj_set k v o)).
Proof.
  intros Hnd. rewrite obj_set_keys.
  destruct (obj_get k o) eqn:E; [done|].
  apply obj_get_None in E.
  apply List.NoDup_app; [done|repeat constructor; by intros []|].
  intros a Ha [<-|[]]. done.
Qed.

Lemma obj_get_of_In o k v :
  List.NoDup (map fst o) -> In (k, v) o -> obj_get k o = Some v.
Proof.
  induction o as [|[k0 v0] o IH]; simpl; [done|].
  intros Hnd [[= -> ->]|Hin].
  - by rewrite String.eqb_refl.
  - inversion Hnd as [|? ? Hnot Hnd']; subst.
    destruct (String.eqb k k0) eqn:E; [|by apply IH].
    apply String.eqb_eq in E. subst k0. destruct Hnot.
    apply (in_map fst _ (k, v)) in Hin. done.
Qed.

End ObjectFacts.

(* ===================================================================== *)
(** * engine.ts: rules of weight zero *)
(* ===================================================================== *)

Section Contributions.
Variable strength : Q.

Lemma contributions_strength (entries : RuleConsequence)
    (acc : list (string * Contribution)) (outputVar : string) (c : Contribution) :
  (forall k c', In (k, c') acc -> c_strength c' = strength) ->
  In (outputVar, c)
     (fold_left
        (fun acc '(outputVar, term) =>
           obj_set outputVar {| c_term := term; c_strength := strength |} acc)
        entries acc) ->
  c_strength c = strength.
Proof.
  revert acc. induction entries as [|[k t] entries IH]; intros acc Hacc; simpl.
  - apply Hacc.
  - apply IH. intros k' c' Hin.
    apply obj_set_In in Hin as [[_ ->]|Hin]; [done|by eapply Hacc].
Qed.

Lemma contributions_keys (entries : RuleConsequence)
    (acc : list (string * Contribution)) (outputVar : string) :
  In outputVar (map fst acc) \/ In outputVar (map fst entries) <->
  In outputVar
     (map fst
        (fold_left
           (fun acc '(outputVar, term) =>
              obj_set outputVar {| c_term := term; c_strength := strength |} acc)
           entries acc)).
Proof.
  revert acc. induction entries as [|[k t] entries IH]; intros acc; simpl.
  - tauto.
  - rewrite <- IH, obj_set_keys.
    destruct (obj_get k acc) eqn:E.
    + split; [|tauto]. intros [H|[<-|H]]; [tauto| |tauto].
      left. apply obj_get_In in E. by apply (in_map fst _ (k, c)) in E.
    + rewrite in_app_iff. simpl. tauto.
Qed.

End Contributions.

Lemma applyImplication_zero (e : FuzzyEngine) (baseMF : MembershipFunction)
    (strength x : Q) :
  strength == 0 -> 0 <= baseMF x -> applyImplication e baseMF strength x == 0.
Proof.
  intros Hs Hb. unfold applyImplication.
  destruct (String.eqb _ _).
  - rewrite Q.min_r; [done|]. by rewrite Hs.
  - rewrite Hs. ring.
Qed.



(** Before the weight is applied the rule of the witness fires at 1/2. *)
Example unweighted_strength_is_positive :
  Qred (firingStrengthOf exampleEngine
          (fuzzifiedOf (fuzzify exampleEngine [("temperature"%string, 90)])) ruleHot)
  = 1 # 2.
Proof. vm_compute. reflexivity. Qed.

(* ===================================================================== *)
(** * engine.ts: crisp outputs within the registered range *)
(* ===================================================================== *)

Lemma Qsum_bounds (lo hi : Q) (points : list Q) :
  (forall p, In p points -> lo <= p <= hi) ->
  inject_Z (Z.of_nat (length points)) * lo <= Qsum points
  /\ Qsum points <= inject_Z (Z.of_nat (length points)) * hi.
Proof.
  induction points as [|p points IH] using rev_ind; intros Hin.
  - unfold Qsum. simpl. change (inject_Z (Z.of_nat 0)) with 0. lra.
  - rewrite Qsum_snoc, length_app. simpl.
    rewrite Nat.add_1_r, Nat2Z.inj_succ, <- Z.add_1_r, inject_Z_plus.
    change (inject_Z 1) with 1.
    destruct IH as [IH1 IH2].
    { intros q Hq. apply Hin, in_app_iff. by left. }
    assert (lo <= p <= hi) as [? ?] by (apply Hin, in_app_iff; right; by left).
    lra.
Qed.

Lemma mean_within (lo hi : Q) (points : list Q) :
  points <> [] ->
  (forall p, In p points -> lo <= p <= hi) ->
  lo <= Qsum points / inject_Z (Z.of_nat (length points)) <= hi.
Proof.
  intros Hne Hin. destruct (Qsum_bounds lo hi points Hin) as [H1 H2].
  assert (0 < inject_Z (Z.of_nat (length points))) as Hlen.
  { change 0 with (inject_Z 0). rewrite <- Zlt_Qlt.
    destruct points; [done|]. simpl. lia. }
  split.
  - apply Qle_shift_div_l; [done|]. lra.
  - apply Qle_shift_div_r; [done|]. lra.
Qed.

Section WithinRange.
Variable mf : MembershipFunction.
Variable options : DefuzzifyOptions.
Let lo := opt_min options.
Let hi := opt_max options.
Hypothesis ordered_range : lo <= hi.
Hypothesis positive_resolution : 0 < resolutionOf options.

Lemma step_nonneg (step : Q) :
  sampleStep lo hi (resolutionOf options) = Returns step -> 0 <= step.
Proof.
  unfold sampleStep. destruct (Qeq_bool _ _); [done|]. intros [= <-].
  apply Qle_shift_div_l; [done|]. lra.
Qed.

Lemma midpoint_within : lo <= (lo + hi) / 2 <= hi.
Proof.
  split; [apply Qle_shift_div_l|apply Qle_shift_div_r]; lra.
Qed.

Lemma centroid_within (fuel : nat) (v : Q) :
  (forall x, 0 <= mf x) ->
  centroid fuel mf options = Returns v -> lo <= v <= hi.
Proof.
  intros Hmf. unfold centroid. cbv zeta. fold lo hi.
  destruct (sampleStep _ _ _) as [step| |] eqn:Hs; try discriminate.
  apply step_nonneg in Hs. unfold mbind, outcome_bind.
  destruct (forUp _ _ _ _ _ _) as [res| |] eqn:E; try discriminate.
  apply (forUp_invariant _ _ _
           (fun x st => lo <= x /\ 0 <= snd st
                        /\ lo * snd st <= fst st /\ fst st <= hi * snd st)
           (fun _ => False)) in E.
  - destruct res as [[sw sm]|r]; [|done].
    destruct E as (x' & (H1 & H2 & H3 & H4) & _). cbn [fst snd] in *.
    destruct (Qeq_bool sm 0) eqn:Esm; intros [= <-]; [apply midpoint_within|].
    apply Qeq_bool_false in Esm. assert (0 < sm) as Hpos by lra.
    split; [apply Qle_shift_div_l|apply Qle_shift_div_r]; lra.
  - intros x [sw sm] Hx (H1 & H2 & H3 & H4). cbn [fst snd] in *.
    specialize (Hmf x). split; [lra|]. split; [lra|]. split; nra.
  - cbn [fst snd]. repeat split; lra.
Qed.

Lemma bisector_within (fuel : nat) (v : Q) :
  bisector fuel mf options = Returns v -> lo <= v <= hi.
Proof.
  unfold bisector. cbv zeta. fold lo hi.
  destruct (sampleStep _ _ _) as [step| |] eqn:Hs; try discriminate.
  apply step_nonneg in Hs. unfold mbind, outcome_bind.
  destruct (forUp fuel hi step _ lo 0) as [res| |] eqn:E; try discriminate.
  apply (forUp_invariant _ _ _ (fun _ _ => True) (fun _ => False)) in E;
    [|done|done].
  destruct res as [totalArea|r]; [|done].
  destruct (Qeq_bool totalArea 0); [intros [= <-]; apply midpoint_within|].
  destruct (forUp _ _ _ _ _ _) as [res| |] eqn:E'; try discriminate.
  apply (forUp_invariant _ _ _ (fun x _ => lo <= x) (fun r => lo <= r <= hi)) in E'.
  - destruct res as [acc|r]; intros [= <-]; [lra|done].
  - intros x acc Hx H1. destruct (Qle_bool _ _); lra.
  - lra.
Qed.

Lemma meanOfMaximum_within (fuel : nat) (v : Q) :
  meanOfMaximum fuel mf options = Returns v -> lo <= v <= hi.
Proof.
  unfold meanOfMaximum. cbv zeta. fold lo hi.
  destruct (sampleStep _ _ _) as [step| |] eqn:Hs; try discriminate.
  apply step_nonneg in Hs. unfold mbind, outcome_bind.
  destruct (forUp _ _ _ _ _ _) as [res| |] eqn:E; try discriminate.
  apply (forUp_invariant _ _ _
           (fun x st => lo <= x /\ forall p, In p (snd st) -> lo <= p <= hi)
           (fun _ => False)) in E.
  - destruct res as [[mm pts]|r]; [|done].
    destruct E as (x' & (H1 & H2) & _). cbn [fst snd] in *.
    destruct pts as [|p pts]; intros [= <-]; [apply midpoint_within|].
    by apply mean_within.
  - intros x [mm pts] Hx (H1 & H2). cbn [fst snd] in *.
    destruct (Qgtb _ _); [|destruct (Qltb _ _)]; cbn [fst snd].
    + split; [lra|]. intros p [<-|[]]. lra.
    + split; [lra|]. intros p Hp. apply in_app_iff in Hp as [Hp|[<-|[]]];
        [by apply H2|lra].
    + split; [lra|done].
  - cbn [fst snd]. split; [lra|]. intros p [].
Qed.

Lemma smallestOfMaximum_within (fuel : nat) (v : Q) :
  smallestOfMaximum fuel mf options = Returns v -> lo <= v <= hi.
Proof.
  unfold smallestOfMaximum. cbv zeta. fold lo hi.
  destruct (sampleStep _ _ _) as [step| |] eqn:Hs; try discriminate.
  apply step_nonneg in Hs. unfold mbind, outcome_bind.
  destruct (forUp _ _ _ _ _ _) as [res| |] eqn:E; try discriminate.
  apply (forUp_invariant _ _ _
           (fun x st => lo <= x /\ lo <= snd st <= hi) (fun _ => False)) in E.
  - destruct res as [[mm sm]|r]; [|done].
    destruct E as (x' & (H1 & H2) & _). cbn [fst snd] in *. by intros [= <-].
  - intros x [mm sm] Hx (H1 & H2). cbn [fst snd] in *.
    destruct (Qgtb _ _); cbn [fst snd]; lra.
  - cbn [fst snd]. lra.
Qed.

Lemma largestOfMaximum_within (fuel : nat) (v : Q) :
  largestOfMaximum fuel mf options = Returns v -> lo <= v <= hi.
Proof.
  unfold largestOfMaximum. cbv zeta. fold lo hi.
  destruct (sampleStep _ _ _) as [step| |] eqn:Hs; try discriminate.
  apply step_nonneg in Hs. unfold mbind, outcome_bind.
  destruct (forDown _ _ _ _ _ _) as [res| |] eqn:E; try discriminate.
  apply (forDown_invariant _ _ _
           (fun x st => x <= hi /\ lo <= snd st <= hi) (fun _ => False)) in E.
  - destruct res as [[mm sm]|r]; [|done].
    destruct E as (x' & (H1 & H2) & _). cbn [fst snd] in *. by intros [= <-].
  - intros x [mm sm] Hx (H1 & H2). cbn [fst snd] in *.
    destruct (Qgtb _ _); cbn [fst snd]; lra.
  - cbn [fst snd]. lra.
Qed.

Lemma defuzzify_within (method : string) (fuel : nat) (v : Q) :
  (forall x, 0 <= mf x) ->
  defuzzify fuel mf method options = Returns v -> lo <= v <= hi.
Proof.
  intros Hmf. unfold defuzzify, getDefuzzifier.
  repeat case_match;
    eauto using centroid_within, bisector_within, meanOfMaximum_within,
      smallestOfMaximum_within, largestOfMaximum_within.
Qed.

End WithinRange.

Section UnitInterval.

Lemma mathMin_unit (v : Q) (vs : list Q) :
  unit_degree v -> (forall x, In x vs -> unit_degree x) -> unit_degree (mathMin v vs).
Proof.
  intros Hv Hvs. destruct (mathMin_spec vs v) as ([E|(y & Hy & E)] & _).
  - unfold unit_degree in *. lra.
  - specialize (Hvs y Hy). unfold unit_degree in *. lra.
Qed.

Lemma mathMax_unit (v : Q) (vs : list Q) :
  unit_degree v -> (forall x, In x vs -> unit_degree x) -> unit_degree (mathMax v vs).
Proof.
  intros Hv Hvs. destruct (mathMax_spec vs v) as ([E|(y & Hy & E)] & _).
  - unfold unit_degree in *. lra.
  - specialize (Hvs y Hy). unfold unit_degree in *. lra.
Qed.

Lemma tNormProduct_unit (values : list Q) :
  (forall x, In x values -> unit_degree x) -> unit_degree (tNormProduct values).
Proof.
  unfold tNormProduct. assert (unit_degree 1) as H1 by (unfold unit_degree; lra).
  revert H1. generalize 1. induction values as [|v values IH]; intros acc Hacc Hin.
  - done.
  - simpl. apply IH; [|intros x Hx; apply Hin; by right].
    assert (unit_degree v) as Hv by (apply Hin; by left).
    unfold unit_degree in *. nra.
Qed.

Lemma sNormSum_unit (values : list Q) :
  (forall x, In x values -> unit_degree x) -> unit_degree (sNormSum values).
Proof.
  unfold sNormSum. assert (unit_degree 0) as H0 by (unfold unit_degree; lra).
  revert H0. generalize 0. induction values as [|v values IH]; intros acc Hacc Hin.
  - done.
  - simpl. apply IH; [|intros x Hx; apply Hin; by right].
    assert (unit_degree v) as Hv by (apply Hin; by left).
    unfold unit_degree in *. nra.
Qed.

Lemma getAndOperator_unit (method : string) (v : Q) (vs : list Q) :
  unit_degree v -> (forall x, In x vs -> unit_degree x) ->
  unit_degree (getAndOperator method v vs).
Proof.
  intros Hv Hvs. unfold getAndOperator, tNormMin.
  repeat case_match; try by apply mathMin_unit.
  apply tNormProduct_unit. intros x [<-|Hx]; auto.
Qed.

Lemma getOrOperator_unit (method : string) (v : Q) (vs : list Q) :
  unit_degree v -> (forall x, In x vs -> unit_degree x) ->
  unit_degree (getOrOperator method v vs).
Proof.
  intros Hv Hvs. unfold getOrOperator, sNormMax, sNormProbor.
  repeat case_match; try by apply mathMax_unit.
  all: apply sNormSum_unit; intros x [<-|Hx]; auto.
Qed.

End UnitInterval.

Section Strengths.
Variable e : FuzzyEngine.
Hypothesis unit_memberships :
  forall name variable term mf,
    variables e !! name = Some variable -> In (term, mf) (var_sets variable) ->
    forall x, unit_degree (mf x).

Lemma memberships_unit (sets : FuzzySet) (value : Q) (term : string) (d : Q) :
  (forall t mf, In (t, mf) sets -> forall x, unit_degree (mf x)) ->
  In (term, d) (memberships sets value) -> unit_degree d.
Proof.
  unfold memberships. intros Hsets.
  assert (forall t d', In (t, d') (@nil (string * Q)) -> unit_degree d') as Hacc
    by (by intros ? ? []).
  revert Hacc. generalize (@nil (string * Q)).
  induction sets as [|[t mf] sets IH]; intros acc Hacc; simpl.
  - apply Hacc.
  - apply IH; [intros t' mf' H; apply (Hsets t' mf'); by right|].
    intros t' d' Hin. apply obj_set_In in Hin as [[_ ->]|Hin]; [|by eapply Hacc].
    apply (Hsets t mf). by left.
Qed.

Lemma fuzzify_unit (inputs : list (string * Q)) (f : FuzzificationResult)
    (term : string) (d : Q) :
  In f (fuzzify e inputs) -> In (term, d) (fz_memberships f) -> unit_degree d.
Proof.
  induction inputs as [|[name value] inputs IH]; simpl; [done|].
  destruct (variables e !! name) as [variable|] eqn:Ev; [|done].
  destruct (var_isOutput variable); [done|].
  intros [<-|Hin]; [|by apply IH]. simpl.
  apply memberships_unit. intros t mf. by apply (unit_memberships name variable).
Qed.

Lemma fuzzifiedOf_unit (fuzzification : list FuzzificationResult)
    (varName : string) (varMemberships : list (string * Q)) (term : string) (d : Q) :
  (forall f t d', In f fuzzification -> In (t, d') (fz_memberships f) ->
                  unit_degree d') ->
  obj_get varName (fuzzifiedOf fuzzification) = Some varMemberships ->
  In (term, d) varMemberships -> unit_degree d.
Proof.
  unfold fuzzifiedOf. intros Hfz Hget. apply obj_get_In in Hget. revert Hget.
  assert (forall k m, In (k, m) (@nil (string * list (string * Q))) ->
            forall t d', In (t, d') m -> unit_degree d') as Hacc by (by intros ? ? []).
  revert Hacc. generalize (@nil (string * list (string * Q))).
  induction fuzzification as [|f fz IH]; intros acc Hacc; simpl.
  - intros Hin. by apply (Hacc _ _ Hin).
  - apply IH; [intros f' t d' H; apply (Hfz f'); by right|].
    intros k m Hin. apply obj_set_In in Hin as [[_ ->]|Hin]; [|by eapply Hacc].
    intros t d'. apply (Hfz f). by left.
Qed.

Section Fuzzified.
Variable fuzzified : list (string * list (string * Q)).
Hypothesis fuzzified_unit :
  forall varName varMemberships term d,
    obj_get varName fuzzified = Some varMemberships ->
    In (term, d) varMemberships -> unit_degree d.

Lemma termStrength_unit (varName : string) (varMemberships : list (string * Q))
    (term : string) :
  obj_get varName fuzzified = Some varMemberships ->
  unit_degree (termStrength varMemberships term).
Proof.
  intros Hget. unfold termStrength.
  destruct (obj_get term varMemberships) as [d|] eqn:E.
  - apply obj_get_In in E. by apply (fuzzified_unit varName varMemberships term).
  - unfold unit_degree. lra.
Qed.

Lemma clauseStrength_unit (varName : string) (varMemberships : list (string * Q))
    (terms : Terms) :
  obj_get varName fuzzified = Some varMemberships ->
  unit_degree (clauseStrength (getOrOperator (orMethod e)) varMemberships terms).
Proof.
  intros Hget. unfold clauseStrength.
  assert (forall x, In x (map (termStrength varMemberships) (termList terms)) ->
                    unit_degree x) as Hall.
  { intros x Hx. apply in_map_iff in Hx as (t & <- & _).
    by apply (termStrength_unit varName). }
  destruct (map _ _) as [|s [|s' more]].
  - unfold unit_degree. lra.
  - apply Hall. by left.
  - apply getOrOperator_unit; [apply Hall; by left|].
    intros x Hx. apply Hall. by right.
Qed.

Lemma antecedentStrengths_unit (entries : RuleCondition) (x : Q) :
  In x (antecedentStrengths (getOrOperator (orMethod e)) fuzzified entries) ->
  unit_degree x.
Proof.
  induction entries as [|[varName terms] entries IH]; simpl; [done|].
  destruct (obj_get varName fuzzified) as [varMemberships|] eqn:E; [|done].
  intros [<-|Hx]; [|by apply IH]. by apply (clauseStrength_unit varName).
Qed.

Lemma firingStrength_nonneg (rule : FuzzyRule) :
  (forall w, rule_weight rule = Some w -> 0 <= w) ->
  0 <= firingStrengthOf e fuzzified rule.
Proof.
  intros Hw. unfold firingStrengthOf. cbv zeta.
  assert (unit_degree
            match antecedentStrengths (getOrOperator (orMethod e)) fuzzified
                    (rule_if rule) with
            | [] => 0
            | s :: more => getAndOperator (andMethod e) s more
            end) as Hfs.
  { pose proof (antecedentStrengths_unit (rule_if rule)) as Hall.
    destruct (antecedentStrengths _ _ _) as [|s more].
    - unfold unit_degree. lra.
    - apply getAndOperator_unit; [apply Hall; by left|].
      intros x Hx. apply Hall. by right. }
  destruct (rule_weight rule) as [w|]; [|unfold unit_degree in Hfs; lra].
  specialize (Hw w eq_refl). unfold unit_degree in Hfs. nra.
Qed.

End Fuzzified.
End Strengths.

Lemma applyImplication_nonneg (e : FuzzyEngine) (baseMF : MembershipFunction)
    (strength x : Q) :
  0 <= baseMF x -> 0 <= strength -> 0 <= applyImplication e baseMF strength x.
Proof.
  intros Hb Hs. unfold applyImplication. destruct (String.eqb _ _).
  - by apply Q.min_glb.
  - nra.
Qed.

Lemma sum_fold_nonneg (mfs : list MembershipFunction) (x acc : Q) :
  0 <= acc -> (forall mf, In mf mfs -> 0 <= mf x) ->
  0 <= fold_left (fun sum mf' => sum + mf' x) mfs acc.
Proof.
  revert acc. induction mfs as [|mf mfs IH]; intros acc Hacc Hin; simpl; [done|].
  apply IH; [|intros m Hm; apply Hin; by right].
  assert (0 <= mf x) by (apply Hin; by left). lra.
Qed.

Lemma aggregateMFs_nonneg (e : FuzzyEngine) (mfs : list MembershipFunction) (x : Q) :
  (forall mf, In mf mfs -> 0 <= mf x) -> 0 <= aggregateMFs e mfs x.
Proof.
  intros Hin. unfold aggregateMFs.
  destruct mfs as [|mf [|mf' more]]; [lra|apply Hin; by left|].
  destruct (String.eqb _ _).
  - destruct (mathMax_spec (map (fun m => m x) (mf' :: more)) (mf x)) as (_ & H & _).
    assert (0 <= mf x) by (apply Hin; by left). lra.
  - apply Q.min_glb; [lra|]. apply sum_fold_nonneg; [lra|done].
Qed.

Lemma validateConsequent_outputs (e : FuzzyEngine) (entries : RuleConsequence)
    (outputVar : string) :
  validateConsequent e entries = inr tt -> In outputVar (map fst entries) ->
  exists variable,
    variables e !! outputVar = Some variable /\ var_isOutput variable = true.
Proof.
  induction entries as [|[k t] entries IH]; simpl; [done|].
  destruct (variables e !! k) as [variable|] eqn:Ev; [|done].
  destruct (var_isOutput variable) eqn:Eo; simpl; [|done].
  destruct (obj_get t (var_sets variable)); [|done].
  intros Hv [<-|Hin]; [eauto|by apply IH].
Qed.

Section AggregateInvariant.
Variable e : FuzzyEngine.
Variable K : string -> Prop.
Hypothesis nonneg_memberships :
  forall name variable term mf,
    variables e !! name = Some variable -> In (term, mf) (var_sets variable) ->
    forall x, 0 <= mf x.

Lemma collect_good (aggregated : list (string * list MembershipFunction))
    (entry : string * Contribution) :
  K (fst entry) -> 0 <= c_strength (snd entry) ->
  (forall b, In b aggregated -> good_bucket K b) ->
  forall b, In b (collect e aggregated entry) -> good_bucket K b.
Proof.
  destruct entry as [outputVar c]. cbn [fst snd]. intros HK Hs Hacc.
  unfold collect.
  set (aggregated' := match obj_get outputVar aggregated with
                      | Some _ => aggregated
                      | None => obj_set outputVar [] aggregated
                      end).
  assert (forall b, In b aggregated' -> good_bucket K b) as Hacc'.
  { unfold aggregated'. destruct (obj_get outputVar aggregated); [done|].
    intros [k mfs] Hin. apply obj_set_In in Hin as [[-> ->]|Hin]; [|by apply Hacc].
    split; [done|]. by intros mf []. }
  destruct (variables e !! outputVar) as [variable|] eqn:Ev; [|done].
  destruct (obj_get (c_term c) (var_sets variable)) as [baseMF|] eqn:Eb; [|done].
  destruct (obj_get outputVar aggregated') as [mfs|] eqn:Em; [|done].
  intros [k mfs'] Hin. apply obj_set_In in Hin as [[-> ->]|Hin]; [|by apply Hacc'].
  split; [done|]. intros mf Hmf x.
  apply in_app_iff in Hmf as [Hmf|[<-|[]]].
  - apply obj_get_In in Em. by apply (Hacc' _ Em).
  - apply applyImplication_nonneg; [|done].
    apply obj_get_In in Eb. by apply (nonneg_memberships outputVar variable _ _ Ev Eb).
Qed.

Lemma aggregate_good (ruleEvaluations : list RuleEvaluationResult)
    (outputVar : string) (mf : MembershipFunction) :
  (forall result entry,
      In result ruleEvaluations -> In entry (re_outputContributions result) ->
      K (fst entry) /\ 0 <= c_strength (snd entry)) ->
  In (outputVar, mf) (aggregate e ruleEvaluations) ->
  K outputVar /\ forall x, 0 <= mf x.
Proof.
  intros Hres. unfold aggregate.
  set (aggregated := fold_left _ ruleEvaluations []).
  assert (forall b, In b aggregated -> good_bucket K b) as Hagg.
  { unfold aggregated. clear aggregated.
    assert (forall b, In b (@nil (string * list MembershipFunction)) -> good_bucket K b)
      as Hacc by (by intros ? []).
    revert Hacc. generalize (@nil (string * list MembershipFunction)).
    induction ruleEvaluations as [|result results IH]; intros acc Hacc; simpl; [done|].
    apply IH; [intros r en Hr; apply Hres; by right|].
    assert (forall entry, In entry (re_outputContributions result) ->
              K (fst entry) /\ 0 <= c_strength (snd entry)) as Hen.
    { intros entry. apply Hres. by left. }
    revert acc Hacc. induction (re_outputContributions result) as [|en ens IHe];
      intros acc Hacc; simpl; [done|].
    apply IHe; [intros en' Hen'; apply Hen; by right|].
    destruct (Hen en) as [HK Hs]; [by left|]. by apply collect_good. }
  revert Hagg. generalize aggregated. clear aggregated. intros aggregated Hagg.
  assert (forall k m, In (k, m) (@nil (string * MembershipFunction)) ->
            K k /\ forall x, 0 <= m x) as Hacc by (by intros ? ? []).
  revert Hacc. generalize (@nil (string * MembershipFunction)).
  induction aggregated as [|[k mfs] aggregated IH]; intros acc Hacc; simpl.
  - apply Hacc.
  - apply IH; [intros b Hb; apply Hagg; by right|].
    intros k' m Hin. apply obj_set_In in Hin as [[-> ->]|Hin]; [|by apply Hacc].
    destruct (Hagg (k, mfs)) as [HK Hmfs]; [by left|]. split; [done|].
    intros x. apply aggregateMFs_nonneg. intros mf' Hmf'. by apply Hmfs.
Qed.

End AggregateInvariant.

Lemma defuzzifyEntries_within (fuel : nat) (e : FuzzyEngine)
    (entries : list (string * MembershipFunction)) (outputs outs : list (string * Q)) :
  (forall name mf variable,
      In (name, mf) entries -> variables e !! name = Some variable ->
      fst (var_range variable) <= snd (var_range variable)
      /\ forall x, 0 <= mf x) ->
  0 < resolution e ->
  outputs_within e outputs ->
  defuzzifyEntries fuel e entries outputs = Returns outs ->
  outputs_within e outs.
Proof.
  intros Hen Hres. revert outputs.
  induction entries as [|[name mf] entries IH]; intros outputs Hout; simpl.
  - by intros [= <-].
  - assert (forall name mf variable,
      In (name, mf) entries -> variables e !! name = Some variable ->
      fst (var_range variable) <= snd (var_range variable)
      /\ forall x, 0 <= mf x) as Hrest.
    { intros n m v Hin. apply (Hen n m v). by right. }
    destruct (variables e !! name) as [variable|] eqn:Ev; [|by apply IH].
    destruct (defuzzify fuel mf _ _) as [value| |] eqn:Ed; try done.
    unfold mbind, outcome_bind. apply IH; [done|].
    intros n y Hin. apply obj_set_In in Hin as [[-> ->]|Hin]; [|by apply Hout].
    exists variable. split; [done|].
    destruct (Hen name mf variable) as [Hr Hmf]; [by left|done|].
    by apply (defuzzify_within mf (optionsOf e variable) Hr Hres _ _ _ Hmf Ed).
Qed.


Lemma forDown_diverges {S R : Type} (bound step : Q) (body : Q -> S -> S + R) :
  step <= 0 ->
  (forall x s, exists s', body x s = inl s') ->
  forall fuel x s, bound <= x -> forDown fuel bound step body x s = OutOfFuel.
Proof.
  intros Hstep Hbody fuel. induction fuel as [|fuel IH]; intros x s Hx; simpl.
  - apply Qle_bool_iff in Hx. by rewrite Hx.
  - pose proof Hx as Hx'. apply Qle_bool_iff in Hx'. rewrite Hx'.
    destruct (Hbody x s) as [s' ->]. apply IH. lra.
Qed.

(** On a range reduced to a point the step is zero and the first sampling
    loop of every defuzzifier runs forever. *)
Lemma defuzzify_point_range (mf : MembershipFunction) (method : string)
    (options : DefuzzifyOptions) (fuel : nat) :
  opt_min options == opt_max options ->
  ~ resolutionOf options == 0 ->
  defuzzify fuel mf method options = OutOfFuel.
Proof.
  intros Hpoint Hres.
  assert (sampleStep (opt_min options) (opt_max options) (resolutionOf options)
          = Returns ((opt_max options - opt_min options) / resolutionOf options)) as Hs.
  { unfold sampleStep. apply Qeq_bool_false in Hres. by rewrite Hres. }
  assert ((opt_max options - opt_min options) / resolutionOf options <= 0) as Hstep.
  { assert (opt_max options - opt_min options == 0) as -> by lra.
    unfold Qdiv. lra. }
  unfold defuzzify, getDefuzzifier.
  repeat case_match;
    unfold centroid, bisector, meanOfMaximum, smallestOfMaximum, largestOfMaximum;
    cbv zeta; rewrite Hs; unfold mbind, outcome_bind.
  all: try (rewrite forUp_diverges; [done|done| |lra]).
  all: try (rewrite forDown_diverges; [done|done| |lra]).
  all: intros x s; try destruct s as [a b]; repeat case_match; eauto.
Qed.

Lemma triangular_unit (a b c : Q) (f : MembershipFunction) (x : Q) :
  triangular a b c = inr f -> unit_degree (f x).
Proof.
  unfold triangular.
  destruct (Qgtb a b) eqn:Eab; [done|]. destruct (Qgtb b c) eqn:Ebc; [done|].
  apply Qgtb_false in Eab, Ebc. simpl. intros [= <-]. unfold unit_degree.
  tri_cases; try lra.
  - assert (0 < / (b - a)) as Hk by (apply Qinv_lt_0_compat; lra).
    assert ((b - a) * / (b - a) == 1) as Hu by (field; lra).
    unfold Qdiv. set (k := / (b - a)) in *. split; nra.
  - assert (0 < / (c - b)) as Hk by (apply Qinv_lt_0_compat; lra).
    assert ((c - b) * / (c - b) == 1) as Hu by (field; lra).
    unfold Qdiv. set (k := / (c - b)) in *. split; nra.
Qed.

Lemma tri_unit (a b c x : Q) : unit_degree (tri a b c x).
Proof.
  unfold tri. destruct (triangular a b c) as [err|f] eqn:E.
  - unfold unit_degree. lra.
  - by apply (triangular_unit a b c).
Qed.

Lemma addRules_variables (rs : list FuzzyRule) (e : FuzzyEngine) :
  variables (fst (addRules rs e)) = variables e.
Proof.
  revert e. induction rs as [|rule rs IH]; intros e; simpl; [done|].
  unfold addRule. destruct (validateRule e rule); [done|]. by rewrite IH.
Qed.

Section FanEngine.

Lemma fanEngine_rules : rules fanEngine = [ruleCold; ruleWarm; ruleHot].
Proof. vm_compute. reflexivity. Qed.

Lemma fanEngine_valid :
  Forall (fun rule => validateRule fanEngine rule = inr tt) (rules fanEngine).
Proof.
  rewrite fanEngine_rules. repeat constructor; vm_compute; reflexivity.
Qed.

Lemma fanEngine_variables (name : string) (variable : EngineVariable) :
  variables fanEngine !! name = Some variable ->
  (var_isOutput variable = true ->
   fst (var_range variable) < snd (var_range variable))
  /\ forall term mf, In (term, mf) (var_sets variable) -> forall x, unit_degree (mf x).
Proof.
  unfold fanEngine, setResolution. cbn [variables].
  rewrite addRules_variables. unfold exampleEngine, addOutput, addVariable.
  cbn [variables withVariables].
  intros H. apply lookup_insert_Some in H as [[_ <-]|[_ H]].
  - split; [reflexivity|]. cbn [var_sets].
    intros term mf [[= _ <-]|[[= _ <-]|[[= _ <-]|[]]]] x; apply tri_unit.
  - apply lookup_insert_Some in H as [[_ <-]|[_ H]]; [|done].
    split; [discriminate|]. cbn [var_sets].
    intros term mf [[= _ <-]|[[= _ <-]|[[= _ <-]|[]]]] x; apply tri_unit.
Qed.

Lemma fanEngine_weights (rule : FuzzyRule) (w : Q) :
  In rule (rules fanEngine) -> rule_weight rule = Some w -> 0 <= w.
Proof.
  rewrite fanEngine_rules. intros [<-|[<-|[<-|[]]]]; discriminate.
Qed.

End FanEngine.


(** The run of the witness: 37.5 within [[0, 100]]. *)
Example fanEngine_at_35 :
  map (fun '(name, value) => (name, Qred value))
    <$> evaluate 5 fanEngine [("temperature"%string, 35)]
  = Returns [("fanSpeed"%string, 75 # 2)].
Proof. vm_compute. reflexivity. Qed.


(* ===================================================================== *)
(** * engine.ts: the order of the rules *)
(* ===================================================================== *)

#[global] Instance Qgtb_proper : Proper (Qeq ==> Qeq ==> eq) Qgtb.
Proof. intros x x' Hx y y' Hy. unfold Qgtb. by rewrite Hx, Hy. Qed.

#[global] Instance Qltb_proper : Proper (Qeq ==> Qeq ==> eq) Qltb.
Proof. intros x x' Hx y y' Hy. unfold Qltb. by rewrite Hx, Hy. Qed.

Section LoopSimulation.
Context {S1 S2 R1 R2 : Type}.
Variables (RS : S1 -> S2 -> Prop) (RR : R1 -> R2 -> Prop).
Variables (bound step : Q).
Variables (body1 : Q -> S1 -> S1 + R1) (body2 : Q -> S2 -> S2 + R2).
Hypothesis bodies_related :
  forall x s1 s2, RS s1 s2 -> sum_rel RS RR (body1 x s1) (body2 x s2).

Lemma forUp_rel (fuel : nat) (x : Q) (s1 : S1) (s2 : S2) :
  RS s1 s2 ->
  outcome_rel (sum_rel RS RR)
    (forUp fuel bound step body1 x s1) (forUp fuel bound step body2 x s2).
Proof.
  revert x s1 s2. induction fuel as [|fuel IH]; intros x s1 s2 Hs; simpl.
  - by destruct (Qle_bool x bound).
  - destruct (Qle_bool x bound); [|done].
    pose proof (bodies_related x s1 s2 Hs) as Hb.
    destruct (body1 x s1), (body2 x s2); try done. by apply IH.
Qed.

Lemma forDown_rel (fuel : nat) (x : Q) (s1 : S1) (s2 : S2) :
  RS s1 s2 ->
  outcome_rel (sum_rel RS RR)
    (forDown fuel bound step body1 x s1) (forDown fuel bound step body2 x s2).
Proof.
  revert x s1 s2. induction fuel as [|fuel IH]; intros x s1 s2 Hs; simpl.
  - by destruct (Qle_bool bound x).
  - destruct (Qle_bool bound x); [|done].
    pose proof (bodies_related x s1 s2 Hs) as Hb.
    destruct (body1 x s1), (body2 x s2); try done. by apply IH.
Qed.

End LoopSimulation.

Section DefuzzifyExt.
Variables f g : MembershipFunction.
Hypothesis fg : mf_equiv f g.
Variable options : DefuzzifyOptions.
Variable fuel : nat.

(** Compare the two loops at the head of the goal. *)
Ltac compare_loops RS RR :=
  match goal with
  | |- outcome_rel _
         (match forUp ?fl ?b ?s ?body1 ?x ?s1 with _ => _ end)
         (match forUp _ _ _ ?body2 _ ?s2 with _ => _ end) =>
      let H := fresh "Hloops" in
      assert (outcome_rel (sum_rel RS RR)
                (forUp fl b s body1 x s1) (forUp fl b s body2 x s2)) as H;
      [apply forUp_rel|
       destruct (forUp fl b s body1 x s1) as [[?|?]| |],
                (forUp fl b s body2 x s2) as [[?|?]| |];
       cbn in H; try done]
  | |- outcome_rel _
         (match forDown ?fl ?b ?s ?body1 ?x ?s1 with _ => _ end)
         (match forDown _ _ _ ?body2 _ ?s2 with _ => _ end) =>
      let H := fresh "Hloops" in
      assert (outcome_rel (sum_rel RS RR)
                (forDown fl b s body1 x s1) (forDown fl b s body2 x s2)) as H;
      [apply forDown_rel|
       destruct (forDown fl b s body1 x s1) as [[?|?]| |],
                (forDown fl b s body2 x s2) as [[?|?]| |];
       cbn in H; try done]
  end.

Lemma centroid_ext :
  outcome_rel Qeq (centroid fuel f options) (centroid fuel g options).
Proof.
  unfold centroid. cbv zeta.
  destruct (sampleStep _ _ _) as [step| |]; [|done|done].
  unfold mbind, outcome_bind.
  compare_loops pair_eq Qeq.
  - intros x [sw sm] [sw' sm'] [H1 H2]. cbn in *. split; cbn; rewrite (fg x); lra.
  - split; reflexivity.
  - destruct p as [sw sm], p0 as [sw' sm']. destruct Hloops as [H1 H2]. cbn in *.
    rewrite H2. destruct (Qeq_bool sm' 0) eqn:E; cbn; [reflexivity|].
    apply Qeq_bool_false in E. by rewrite H1, H2.
Qed.

Lemma bisector_ext :
  outcome_rel Qeq (bisector fuel f options) (bisector fuel g options).
Proof.
  unfold bisector. cbv zeta.
  destruct (sampleStep _ _ _) as [step| |]; [|done|done].
  unfold mbind, outcome_bind.
  compare_loops Qeq Qeq.
  - intros x s s' H. unfold sum_rel. rewrite (fg x), H. reflexivity.
  - reflexivity.
  - rename q into total, q0 into total'. rewrite Hloops.
    destruct (Qeq_bool total' 0); cbn; [reflexivity|].
    compare_loops Qeq (@eq Q).
    + intros x s s' H. cbv beta zeta.
      assert (s + f x * step == s' + g x * step) as Hacc
        by (rewrite (fg x), H; reflexivity).
      assert (Qle_bool (total / 2) (s + f x * step)
              = Qle_bool (total' / 2) (s' + g x * step)) as ->
        by (rewrite Hacc, Hloops; reflexivity).
      destruct (Qle_bool _ _); [reflexivity|exact Hacc].
    + reflexivity.
    + subst. reflexivity.
Qed.

Lemma meanOfMaximum_ext :
  outcome_rel Qeq (meanOfMaximum fuel f options) (meanOfMaximum fuel g options).
Proof.
  unfold meanOfMaximum. cbv zeta.
  destruct (sampleStep _ _ _) as [step| |]; [|done|done].
  unfold mbind, outcome_bind.
  compare_loops (@tagged_eq (list Q)) Qeq.
  - intros x [mm pts] [mm' pts'] [H1 H2]. cbn [fst snd] in *. subst pts'.
    cbv beta iota zeta.
    assert (Qgtb (f x) mm = Qgtb (g x) mm') as ->
      by (rewrite (fg x), H1; reflexivity).
    assert (Qltb (Qabs (f x - mm)) tenth_nano = Qltb (Qabs (g x - mm')) tenth_nano)
      as -> by (rewrite (fg x), H1; reflexivity).
    destruct (Qgtb (g x) mm'); [split; [apply fg|done]|].
    destruct (Qltb _ _); split; done.
  - split; reflexivity.
  - destruct p as [mm pts], p0 as [mm' pts']. destruct Hloops as [H1 H2]. cbn in *.
    subst pts'. destruct pts; cbn; reflexivity.
Qed.

Lemma smallestOfMaximum_ext :
  outcome_rel Qeq (smallestOfMaximum fuel f options)
    (smallestOfMaximum fuel g options).
Proof.
  unfold smallestOfMaximum. cbv zeta.
  destruct (sampleStep _ _ _) as [step| |]; [|done|done].
  unfold mbind, outcome_bind.
  compare_loops (@tagged_eq Q) Qeq.
  - intros x [mm sm] [mm' sm'] [H1 H2]. cbn [fst snd] in *. subst sm'.
    cbv beta iota zeta.
    assert (Qgtb (f x) mm = Qgtb (g x) mm') as ->
      by (rewrite (fg x), H1; reflexivity).
    destruct (Qgtb (g x) mm'); split; try done. apply fg.
  - split; reflexivity.
  - destruct p as [mm sm], p0 as [mm' sm']. destruct Hloops as [H1 H2]. cbn in *.
    by subst.
Qed.

Lemma largestOfMaximum_ext :
  outcome_rel Qeq (largestOfMaximum fuel f options)
    (largestOfMaximum fuel g options).
Proof.
  unfold largestOfMaximum. cbv zeta.
  destruct (sampleStep _ _ _) as [step| |]; [|done|done].
  unfold mbind, outcome_bind.
  compare_loops (@tagged_eq Q) Qeq.
  - intros x [mm sm] [mm' sm'] [H1 H2]. cbn [fst snd] in *. subst sm'.
    cbv beta iota zeta.
    assert (Qgtb (f x) mm = Qgtb (g x) mm') as ->
      by (rewrite (fg x), H1; reflexivity).
    destruct (Qgtb (g x) mm'); split; try done. apply fg.
  - split; reflexivity.
  - destruct p as [mm sm], p0 as [mm' sm']. destruct Hloops as [H1 H2]. cbn in *.
    by subst.
Qed.

Lemma defuzzify_ext (method : string) :
  outcome_rel Qeq (defuzzify fuel f method options) (defuzzify fuel g method options).
Proof.
  unfold defuzzify, getDefuzzifier.
  repeat case_match;
    auto using centroid_ext, bisector_ext, meanOfMaximum_ext,
      smallestOfMaximum_ext, largestOfMaximum_ext.
Qed.

End DefuzzifyExt.

Lemma forUp_finite {S R : Type} (fuel : nat) (bound step : Q)
    (body : Q -> S -> S + R) (x : Q) (s : S) :
  forUp fuel bound step body x s <> NonFinite.
Proof.
  revert x s. induction fuel as [|fuel IH]; intros x s; simpl.
  - by destruct (Qle_bool x bound).
  - destruct (Qle_bool x bound); [|done]. destruct (body x s); [apply IH|done].
Qed.

Lemma forDown_finite {S R : Type} (fuel : nat) (bound step : Q)
    (body : Q -> S -> S + R) (x : Q) (s : S) :
  forDown fuel bound step body x s <> NonFinite.
Proof.
  revert x s. induction fuel as [|fuel IH]; intros x s; simpl.
  - by destruct (Qle_bool bound x).
  - destruct (Qle_bool bound x); [|done]. destruct (body x s); [apply IH|done].
Qed.

(** A defuzzification that does not return fails in the way the
    resolution decides: not a number for a zero resolution, a loop that
    does not end within the fuel otherwise. *)
Lemma defuzzify_failure (fuel : nat) (mf : MembershipFunction) (method : string)
    (options : DefuzzifyOptions) :
  match defuzzify fuel mf method options with
  | Returns _ => True
  | other =>
      other = if Qeq_bool (resolutionOf options) 0 then NonFinite else OutOfFuel
  end.
Proof.
  unfold defuzzify, getDefuzzifier.
  repeat case_match; subst;
    unfold centroid, bisector, meanOfMaximum, smallestOfMaximum, largestOfMaximum,
      sampleStep in *; cbv zeta in *;
    destruct (Qeq_bool (resolutionOf options) 0); try done;
    unfold mbind, outcome_bind in *.
  all: repeat match goal with
       | H : context [forUp ?f ?b ?s ?body ?x ?s0] |- _ =>
           let E := fresh "E" in
           pose proof (forUp_finite f b s body x s0) as E;
           destruct (forUp f b s body x s0) as [[?|?]| |]; try done
       | H : context [forDown ?f ?b ?s ?body ?x ?s0] |- _ =>
           let E := fresh "E" in
           pose proof (forDown_finite f b s body x s0) as E;
           destruct (forDown f b s body x s0) as [[?|?]| |]; try done
       end.
  all: repeat case_match; try done.
Qed.

Lemma obj_set_fresh {A : Type} (o : list (string * A)) (k : string) (v : A) :
  obj_get k o = None -> obj_set k v o = o ++ [(k, v)].
Proof.
  induction o as [|[k' v'] o IH]; simpl; [done|].
  destruct (String.eqb k k'); [done|]. intros H. by rewrite IH.
Qed.

Lemma obj_get_app_fresh {A : Type} (o : list (string * A)) (k k' : string) (v : A) :
  obj_get k' (o ++ [(k, v)])
  = match obj_get k' o with
    | Some v' => Some v'
    | None => if String.eqb k' k then Some v else None
    end.
Proof.
  induction o as [|[k0 v0] o IH]; simpl; [done|].
  by destruct (String.eqb k' k0).
Qed.

Lemma obj_get_map {A B : Type} (f : A -> B) (o : list (string * A)) (k : string) :
  obj_get k (map (fun '(k', v) => (k', f v)) o) = f <$> obj_get k o.
Proof.
  induction o as [|[k' v] o IH]; simpl; [done|].
  by destruct (String.eqb k k').
Qed.

(** Assigning every entry of an object with distinct keys, in order, to an
    empty object copies it. *)
Lemma fold_obj_set_map {A B : Type} (f : A -> B) (o : list (string * A))
    (acc : list (string * B)) :
  List.NoDup (map fst acc ++ map fst o) ->
  fold_left (fun result '(k, v) => obj_set k (f v) result) o acc
  = acc ++ map (fun '(k, v) => (k, f v)) o.
Proof.
  revert acc. induction o as [|[k v] o IH]; intros acc Hnd; simpl.
  - by rewrite app_nil_r.
  - rewrite obj_set_fresh.
    + rewrite IH; [by rewrite <- app_assoc|].
      rewrite map_app. simpl. by rewrite <- app_assoc.
    + apply obj_get_None. simpl in Hnd. apply NoDup_remove_2 in Hnd.
      intros Hin. apply Hnd, in_app_iff. by left.
Qed.

Lemma fold_left_flat_map {A B C : Type} (f : A -> C -> A) (g : B -> list C)
    (l : list B) (a : A) :
  fold_left (fun acc b => fold_left f (g b) acc) l a = fold_left f (flat_map g l) a.
Proof.
  revert a. induction l as [|b l IH]; intros a; simpl; [done|].
  by rewrite fold_left_app, IH.
Qed.

Section Buckets.
Variable e : FuzzyEngine.

Lemma collect_lookup (aggregated : list (string * list MembershipFunction))
    (entry : string * Contribution) (k : string) :
  obj_get k (collect e aggregated entry)
  = if String.eqb k (fst entry)
    then Some (default [] (obj_get k aggregated) ++ impliedFor e k entry)
    else obj_get k aggregated.
Proof.
  destruct entry as [outputVar c]. unfold collect, impliedFor. cbn [fst snd].
  set (aggregated' := match obj_get outputVar aggregated with
                      | Some _ => aggregated
                      | None => obj_set outputVar [] aggregated
                      end).
  assert (obj_get outputVar aggregated'
          = Some (default [] (obj_get outputVar aggregated))) as Hown.
  { unfold aggregated'. destruct (obj_get outputVar aggregated) eqn:E; [done|].
    by rewrite obj_get_set_eq. }
  assert (forall k', k' <> outputVar ->
            obj_get k' aggregated' = obj_get k' aggregated) as Hother.
  { intros k' Hne. unfold aggregated'.
    destruct (obj_get outputVar aggregated); [done|].
    apply obj_get_set_ne. congruence. }
  destruct (String.eqb k outputVar) eqn:Ek.
  - apply String.eqb_eq in Ek. subst k.
    destruct (variables e !! outputVar) as [variable|];
      [|by rewrite Hown, app_nil_r].
    destruct (obj_get (c_term c) (var_sets variable)) as [baseMF|];
      [|by rewrite Hown, app_nil_r].
    rewrite Hown. by rewrite obj_get_set_eq.
  - apply String.eqb_neq in Ek.
    destruct (variables e !! outputVar) as [variable|]; [|by apply Hother].
    destruct (obj_get (c_term c) (var_sets variable)) as [baseMF|];
      [|by apply Hother].
    rewrite Hown. rewrite obj_get_set_ne; [by apply Hother|congruence].
Qed.

Lemma collect_NoDup (aggregated : list (string * list MembershipFunction))
    (entry : string * Contribution) :
  List.NoDup (map fst aggregated) ->
  List.NoDup (map fst (collect e aggregated entry)).
Proof.
  destruct entry as [outputVar c]. unfold collect. intros Hnd.
  set (aggregated' := match obj_get outputVar aggregated with
                      | Some _ => aggregated
                      | None => obj_set outputVar [] aggregated
                      end).
  assert (List.NoDup (map fst aggregated')) as Hnd'.
  { unfold aggregated'. destruct (obj_get outputVar aggregated); [done|].
    by apply obj_set_NoDup. }
  repeat case_match; try done. by apply obj_set_NoDup.
Qed.

Lemma collected_lookup (entries : list (string * Contribution))
    (aggregated : list (string * list MembershipFunction)) (k : string) :
  obj_get k (fold_left (collect e) entries aggregated)
  = if touched k entries || bool_decide (is_Some (obj_get k aggregated))
    then Some (default [] (obj_get k aggregated) ++ bucket e k entries)
    else None.
Proof.
  revert aggregated. induction entries as [|entry entries IH]; intros aggregated.
  - simpl. destruct (obj_get k aggregated) eqn:E; simpl; [|done].
    by rewrite app_nil_r.
  - simpl. rewrite IH, collect_lookup. unfold touched, bucket. simpl.
    destruct (String.eqb k (fst entry)) eqn:Ek; simpl.
    + by rewrite orb_true_r, <- app_assoc.
    + unfold impliedFor. rewrite Ek. done.
Qed.

Lemma collected_NoDup (entries : list (string * Contribution))
    (aggregated : list (string * list MembershipFunction)) :
  List.NoDup (map fst aggregated) ->
  List.NoDup (map fst (fold_left (collect e) entries aggregated)).
Proof.
  revert aggregated. induction entries as [|entry entries IH]; intros aggregated Hnd.
  - done.
  - simpl. apply IH. by apply collect_NoDup.
Qed.

Lemma aggregate_lookup (ruleEvaluations : list RuleEvaluationResult) (k : string) :
  let entries := flat_map re_outputContributions ruleEvaluations in
  obj_get k (aggregate e ruleEvaluations)
  = if touched k entries then Some (aggregateMFs e (bucket e k entries)) else None.
Proof.
  intros entries. unfold aggregate. rewrite fold_left_flat_map. fold entries.
  rewrite fold_obj_set_map.
  - simpl. rewrite obj_get_map, collected_lookup. simpl.
    rewrite orb_false_r. by destruct (touched k entries).
  - simpl. apply collected_NoDup. constructor.
Qed.

Lemma aggregate_NoDup (ruleEvaluations : list RuleEvaluationResult) :
  List.NoDup (map fst (aggregate e ruleEvaluations)).
Proof.
  unfold aggregate. rewrite fold_left_flat_map, fold_obj_set_map.
  - simpl. rewrite map_map.
    erewrite map_ext; [apply collected_NoDup; constructor|]. by intros [? ?].
  - simpl. apply collected_NoDup. constructor.
Qed.

End Buckets.

Lemma mathMax_perm (v w : Q) (vs ws : list Q) :
  Permutation (v :: vs) (w :: ws) -> mathMax v vs == mathMax w ws.
Proof.
  intros Hp.
  destruct (mathMax_spec vs v) as (A1 & A2 & A3).
  destruct (mathMax_spec ws w) as (B1 & B2 & B3).
  assert (forall x, In x (v :: vs) -> x <= mathMax w ws) as Hub1.
  { intros x Hx. apply (Permutation_in _ Hp) in Hx as [<-|Hx]; [done|by apply B3]. }
  assert (forall x, In x (w :: ws) -> x <= mathMax v vs) as Hub2.
  { intros x Hx. apply (Permutation_in _ (Permutation_sym Hp)) in Hx as [<-|Hx];
      [done|by apply A3]. }
  apply Qle_antisym.
  - destruct A1 as [->|(y & Hy & ->)]; apply Hub1; [by left|by right].
  - destruct B1 as [->|(y & Hy & ->)]; apply Hub2; [by left|by right].
Qed.

Lemma sum_fold_perm (x : Q) (l1 l2 : list MembershipFunction) :
  Permutation l1 l2 ->
  forall a b, a == b ->
  fold_left (fun sum mf' => sum + mf' x) l1 a
  == fold_left (fun sum mf' => sum + mf' x) l2 b.
Proof.
  induction 1 as [|m l1 l2 Hp IH|m m' l|l1 l2 l3 Hp1 IH1 Hp2 IH2]; intros a b Hab; simpl.
  - done.
  - apply IH. by rewrite Hab.
  - assert (forall l a b, a == b ->
      fold_left (fun sum mf' => sum + mf' x) l a
      == fold_left (fun sum mf' => sum + mf' x) l b) as Hcompat.
    { clear. induction l as [|m l IH]; intros a b Hab; simpl; [done|].
      apply IH. by rewrite Hab. }
    apply Hcompat. rewrite Hab. ring.
  - rewrite (IH1 a a); [|reflexivity]. by apply IH2.
Qed.

Lemma aggregateMFs_perm (e : FuzzyEngine) (mfs1 mfs2 : list MembershipFunction) :
  Permutation mfs1 mfs2 -> mf_equiv (aggregateMFs e mfs1) (aggregateMFs e mfs2).
Proof.
  intros Hp x. pose proof (Permutation_length Hp) as Hlen.
  unfold aggregateMFs.
  destruct mfs1 as [|m1 [|m1' more1]], mfs2 as [|m2 [|m2' more2]];
    try discriminate Hlen.
  - reflexivity.
  - apply Permutation_length_1 in Hp. by subst.
  - destruct (String.eqb _ _).
    + apply (mathMax_perm (m1 x) (m2 x)).
      apply (Permutation_map (fun m : MembershipFunction => m x)) in Hp. exact Hp.
    + apply Q.min_compat; [reflexivity|]. by apply sum_fold_perm.
Qed.

Section PermutedRules.
Variable e : FuzzyEngine.
Variables entries1 entries2 : list (string * Contribution).
Hypothesis permuted : Permutation entries1 entries2.

Lemma touched_perm (k : string) : touched k entries1 = touched k entries2.
Proof.
  unfold touched. apply eq_true_iff_eq. rewrite !existsb_exists. split.
  - intros (x & Hx & H). exists x. split; [|done]. by apply (Permutation_in _ permuted).
  - intros (x & Hx & H). exists x. split; [|done].
    by apply (Permutation_in _ (Permutation_sym permuted)).
Qed.

Lemma bucket_perm (k : string) : Permutation (bucket e k entries1) (bucket e k entries2).
Proof. unfold bucket. by apply Permutation_flat_map. Qed.

End PermutedRules.

(** The aggregated function of each output variable is the same function,
    point for point, for two permutations of the rule evaluations. *)
Lemma aggregate_perm (e : FuzzyEngine)
    (results1 results2 : list RuleEvaluationResult) (k : string) :
  Permutation results1 results2 ->
  option_rel mf_equiv (obj_get k (aggregate e results1))
    (obj_get k (aggregate e results2)).
Proof.
  intros Hp. rewrite !aggregate_lookup. cbv zeta.
  assert (Permutation (flat_map re_outputContributions results1)
            (flat_map re_outputContributions results2)) as Hen
    by (by apply Permutation_flat_map).
  rewrite (touched_perm _ _ Hen k).
  destruct (touched k _); [|done]. simpl.
  apply aggregateMFs_perm. by apply bucket_perm.
Qed.

Section DefuzzifyEntries.
Variable fuel : nat.
Variable e : FuzzyEngine.

Lemma defuzzifyEntries_fails (entries : list (string * MembershipFunction))
    (outputs : list (string * Q)) :
  returnsAll fuel e entries = false ->
  defuzzifyEntries fuel e entries outputs = failure e.
Proof.
  revert outputs. induction entries as [|[name mf] entries IH]; intros outputs;
    simpl; [done|].
  unfold defuzzifyOne. cbn [fst snd].
  destruct (variables e !! name) as [variable|]; simpl; [|by apply IH].
  pose proof (defuzzify_failure fuel mf (defuzzificationMethod e)
                (optionsOf e variable)) as Hf.
  unfold failure. change (resolutionOf (optionsOf e variable)) with (resolution e) in Hf.
  destruct (defuzzify fuel mf _ _) as [y| |]; simpl.
  - apply IH.
  - intros _. by destruct (Qeq_bool (resolution e) 0).
  - intros _. by destruct (Qeq_bool (resolution e) 0).
Qed.

Lemma defuzzifyEntries_lookup (entries : list (string * MembershipFunction))
    (outputs : list (string * Q)) :
  returnsAll fuel e entries = true ->
  List.NoDup (map fst entries) ->
  exists outs,
    defuzzifyEntries fuel e entries outputs = Returns outs
    /\ forall k,
         obj_get k outs
         = match obj_get k entries with
           | Some mf =>
               match returned (defuzzifyOne fuel e (k, mf)) with
               | Some y => Some y
               | None => obj_get k outputs
               end
           | None => obj_get k outputs
           end.
Proof.
  revert outputs. induction entries as [|[name mf] entries IH]; intros outputs;
    simpl; [eauto|].
  intros Hall Hnd. apply andb_true_iff in Hall as [Hone Hall].
  inversion Hnd as [|? ? Hnot Hnd']; subst.
  assert (obj_get name entries = None) as Hfresh by (by apply obj_get_None).
  unfold defuzzifyOne in *. cbn [fst snd] in *.
  destruct (variables e !! name) as [variable|] eqn:Ev; simpl in *.
  - destruct (defuzzify fuel mf _ _) as [y| |] eqn:Ed; try done.
    unfold mbind, outcome_bind.
    destruct (IH (obj_set name y outputs) Hall Hnd') as (outs & -> & Hget).
    exists outs. split; [done|]. intros k. rewrite Hget.
    destruct (String.eqb k name) eqn:Ek.
    + apply String.eqb_eq in Ek. subst k.
      rewrite Hfresh, Ev. simpl. rewrite Ed. by rewrite obj_get_set_eq.
    + apply String.eqb_neq in Ek.
      rewrite obj_get_set_ne; [done|congruence].
  - destruct (IH outputs Hall Hnd') as (outs & -> & Hget).
    exists outs. split; [done|]. intros k. rewrite Hget.
    destruct (String.eqb k name) eqn:Ek; [|done].
    apply String.eqb_eq in Ek. subst k. by rewrite Hfresh, Ev.
Qed.

Lemma returnsAll_lookup (entries : list (string * MembershipFunction)) :
  List.NoDup (map fst entries) ->
  returnsAll fuel e entries = true
  <-> forall k mf, obj_get k entries = Some mf ->
                   completes (defuzzifyOne fuel e (k, mf)) = true.
Proof.
  intros Hnd. unfold returnsAll. rewrite forallb_forall. split.
  - intros H k mf Hget. apply (H (k, mf)). by apply obj_get_In.
  - intros H [k mf] Hin. apply H. by apply obj_get_of_In.
Qed.

End DefuzzifyEntries.

Lemma defuzzifyOne_ext (fuel : nat) (e : FuzzyEngine) (k : string)
    (f g : MembershipFunction) :
  mf_equiv f g ->
  option_rel (outcome_rel Qeq) (defuzzifyOne fuel e (k, f)) (defuzzifyOne fuel e (k, g)).
Proof.
  intros Hfg. unfold defuzzifyOne. cbn [fst snd].
  destruct (variables e !! k); simpl; [|done]. by apply defuzzify_ext.
Qed.

(** Two lists of aggregated entries with distinct names and, name by name,
    the same functions are defuzzified to the same mapping. *)
Lemma defuzzifyEntries_same (fuel : nat) (e : FuzzyEngine)
    (entries1 entries2 : list (string * MembershipFunction)) :
  List.NoDup (map fst entries1) -> List.NoDup (map fst entries2) ->
  (forall k, option_rel mf_equiv (obj_get k entries1) (obj_get k entries2)) ->
  same_outputs (defuzzifyEntries fuel e entries1 [])
    (defuzzifyEntries fuel e entries2 []).
Proof.
  intros Hnd1 Hnd2 Hsame.
  assert (returnsAll fuel e entries1 = returnsAll fuel e entries2) as Hall.
  { apply eq_true_iff_eq. rewrite !returnsAll_lookup by done. split.
    - intros H k mf2 Hget. specialize (Hsame k). rewrite Hget in Hsame.
      destruct (obj_get k entries1) as [mf1|] eqn:E1; [|done]. simpl in Hsame.
      specialize (H k mf1 E1). pose proof (defuzzifyOne_ext fuel e k mf1 mf2 Hsame) as Hx.
      destruct (defuzzifyOne fuel e (k, mf1)) as [[?| |]|],
               (defuzzifyOne fuel e (k, mf2)) as [[?| |]|]; done.
    - intros H k mf1 Hget. specialize (Hsame k). rewrite Hget in Hsame.
      destruct (obj_get k entries2) as [mf2|] eqn:E2; [|done]. simpl in Hsame.
      specialize (H k mf2 E2). pose proof (defuzzifyOne_ext fuel e k mf1 mf2 Hsame) as Hx.
      destruct (defuzzifyOne fuel e (k, mf1)) as [[?| |]|],
               (defuzzifyOne fuel e (k, mf2)) as [[?| |]|]; done. }
  destruct (returnsAll fuel e entries1) eqn:E1.
  - destruct (defuzzifyEntries_lookup fuel e entries1 [] E1 Hnd1) as (o1 & -> & H1).
    destruct (defuzzifyEntries_lookup fuel e entries2 [] (eq_sym Hall) Hnd2)
      as (o2 & -> & H2).
    intros k. rewrite H1, H2. specialize (Hsame k). simpl.
    destruct (obj_get k entries1) as [mf1|], (obj_get k entries2) as [mf2|]; try done.
    simpl in Hsame. pose proof (defuzzifyOne_ext fuel e k mf1 mf2 Hsame) as Hx.
    destruct (defuzzifyOne fuel e (k, mf1)) as [[?| |]|],
             (defuzzifyOne fuel e (k, mf2)) as [[?| |]|]; done.
  - rewrite (defuzzifyEntries_fails fuel e entries1 [] E1).
    rewrite (defuzzifyEntries_fails fuel e entries2 [] (eq_sym Hall)).
    unfold failure. by destruct (Qeq_bool _ _).
Qed.

Section SameConfig.
Variables e1 e2 : FuzzyEngine.
Hypothesis config : same_config e1 e2.

Lemma fuzzify_config (inputs : list (string * Q)) :
  fuzzify e1 inputs = fuzzify e2 inputs.
Proof.
  destruct config as (Hv & _).
  induction inputs as [|[name value] inputs IH]; simpl; [done|].
  by rewrite Hv, IH.
Qed.

Lemma evaluateRule_config (fuzzified : list (string * list (string * Q)))
    (rule : FuzzyRule) :
  evaluateRule e1 fuzzified rule = evaluateRule e2 fuzzified rule.
Proof.
  destruct config as (_ & _ & Hand & Hor & _).
  unfold evaluateRule, firingStrengthOf. by rewrite Hand, Hor.
Qed.

Lemma collect_config (aggregated : list (string * list MembershipFunction))
    (entry : string * Contribution) :
  collect e1 aggregated entry = collect e2 aggregated entry.
Proof.
  destruct config as (Hv & _ & _ & _ & Himp & _).
  unfold collect, applyImplication. destruct entry as [outputVar c].
  by rewrite Hv, Himp.
Qed.

Lemma aggregate_config (ruleEvaluations : list RuleEvaluationResult) :
  aggregate e1 ruleEvaluations = aggregate e2 ruleEvaluations.
Proof.
  unfold aggregate. rewrite !fold_left_flat_map.
  assert (forall entries acc,
            fold_left (collect e1) entries acc = fold_left (collect e2) entries acc)
    as ->.
  { induction entries as [|entry entries IH]; intros acc; simpl; [done|].
    by rewrite collect_config, IH. }
  generalize (fold_left (collect e2)
                (flat_map re_outputContributions ruleEvaluations) []).
  intros aggregated. generalize (@nil (string * MembershipFunction)).
  destruct config as (_ & _ & _ & _ & _ & Hagg & _).
  induction aggregated as [|[k mfs] aggregated IH]; intros acc; simpl; [done|].
  rewrite <- IH. unfold aggregateMFs. by rewrite Hagg.
Qed.

Lemma defuzzifyEntries_config (fuel : nat)
    (entries : list (string * MembershipFunction)) (outputs : list (string * Q)) :
  defuzzifyEntries fuel e1 entries outputs = defuzzifyEntries fuel e2 entries outputs.
Proof.
  destruct config as (Hv & Hm & _ & _ & _ & _ & Hres).
  revert outputs. induction entries as [|[name mf] entries IH]; intros outputs;
    simpl; [done|].
  rewrite Hv, Hm. unfold optionsOf. rewrite Hres.
  destruct (variables e2 !! name); [|done].
  destruct (defuzzify _ _ _ _); simpl; try done.
Qed.

End SameConfig.



(** The two runs of the witness, under the sum aggregation. *)
Example reordered_rules_sum_aggregation :
  map (fun '(name, value) => (name, Qred value))
    <$> evaluate 5
          (setAggregationMethod "sum"
             (withRules [ruleCold; ruleWarm; ruleHot] fanEngine))
          [("temperature"%string, 35)]
  = map (fun '(name, value) => (name, Qred value))
      <$> evaluate 5
            (setAggregationMethod "sum"
               (withRules [ruleHot; ruleWarm; ruleCold] fanEngine))
            [("temperature"%string, 35)].
Proof. vm_compute. reflexivity. Qed.

(* ===================================================================== *)
(** * membership.ts: the trapezoidal, S-, Z- and pi-shaped functions *)
(* ===================================================================== *)

Lemma Qsquare (q : Q) : q ^ 2 = q * q.
Proof. reflexivity. Qed.

Ltac shape_cases :=
  repeat match goal with
  | |- context [Qle_bool ?x ?y] =>
      let E := fresh "E" in destruct (Qle_bool x y) eqn:E;
      [apply Qle_bool_iff in E | apply Qle_bool_false in E]
  | |- context [Qeq_bool ?x ?y] =>
      let E := fresh "E" in destruct (Qeq_bool x y) eqn:E;
      [apply Qeq_bool_iff in E | apply Qeq_bool_false in E]
  | |- context [Qltb ?x ?y] =>
      let E := fresh "E" in destruct (Qltb x y) eqn:E;
      [apply Qltb_true in E | apply Qltb_false in E]
  | |- context [Qgtb ?x ?y] =>
      let E := fresh "E" in destruct (Qgtb x y) eqn:E;
      [apply Qgtb_true in E | apply Qgtb_false in E]
  end; cbn [orb andb negb].

(** Bounds on a quotient with a positive denominator. *)
Ltac ratio_bounds den :=
  let Hk := fresh "Hk" in
  let Hu := fresh "Hu" in
  assert (0 < / den) as Hk by (apply Qinv_lt_0_compat; lra);
  assert (den * / den == 1) as Hu by (field; lra);
  unfold Qdiv; set (k := / den) in *; split; nra.

(** X1. [trapezoidal(a, b, c, d)] throws exactly when the points are out of
    order; the function it returns otherwise takes its values in [[0, 1]],
    is 0 at and outside the feet [a] and [d] (also at a foot that
    coincides with a shoulder), and is 1 on the plateau [[b, c]] strictly
    between the feet. *)
Theorem trapezoidal_shape (a b c d : Q) :
  (b < a \/ c < b \/ d < c -> Shapes.trapezoidal a b c d = inl Shapes.TrapezoidalOrder)
  /\ (a <= b -> b <= c -> c <= d ->
      exists f, Shapes.trapezoidal a b c d = inr f
        /\ (forall x, unit_degree (f x))
        /\ (forall x, x <= a \/ d <= x -> f x == 0)
        /\ (forall x, a < x -> x < d -> b <= x -> x <= c -> f x == 1)).
Proof.
  unfold Shapes.trapezoidal. split.
  - intros H. shape_cases; try done. exfalso. destruct H as [H|[H|H]]; lra.
  - intros Hab Hbc Hcd. shape_cases; try (exfalso; lra). eexists. split; [reflexivity|].
    split; [|split].
    + intros x. unfold unit_degree. shape_cases; try lra;
        first [ratio_bounds (b - a) | ratio_bounds (d - c)].
    + intros x Hx. shape_cases; try reflexivity; lra.
    + intros x H1 H2 H3 H4. shape_cases; try reflexivity; lra.
Qed.

Lemma trapezoidal_shape_witness :
  Shapes.trapezoidal 10 0 5 7 = inl Shapes.TrapezoidalOrder
  /\ exists f, Shapes.trapezoidal 0 25 75 100 = inr f /\ f 50 == 1 /\ f 100 == 0.
Proof.
  destruct (trapezoidal_shape 10 0 5 7) as [H _].
  destruct (trapezoidal_shape 0 25 75 100) as [_ H'].
  split.
  - apply H. left. reflexivity.
  - destruct H' as (f & Hf & _ & H0 & H1); try discriminate.
    exists f. split; [exact Hf|]. split.
    + apply H1; try reflexivity; discriminate.
    + apply H0. right. discriminate.
Defined.

(** The position of [x] on the transition from [a] to [b], as a fraction. *)
Lemma transition_fraction (a b x : Q) :
  a < b ->
  (x - b) / (b - a) == (x - a) / (b - a) - 1
  /\ x - a == (x - a) / (b - a) * (b - a)
  /\ (a + b) / 2 == (a + b) * (1 # 2).
Proof. intros Hab. repeat split; field; lra. Qed.

Ltac fraction_of a b x u Hab :=
  let H2 := fresh "Hu" in
  let H3 := fresh "Hu" in
  let Hm := fresh "Hm" in
  destruct (transition_fraction a b x Hab) as (H2 & H3 & Hm);
  set (u := (x - a) / (b - a)) in *.

Lemma sCurve_unit (u : Q) : unit_degree (sCurve u).
Proof. unfold sCurve, unit_degree. shape_cases; nra. Qed.

Lemma sCurve_mono (u v : Q) : u <= v -> sCurve u <= sCurve v.
Proof. intros H. unfold sCurve. shape_cases; nra. Qed.

Lemma sCurve_half : sCurve (1 # 2) == 1 # 2.
Proof. reflexivity. Qed.

#[global] Instance sCurve_proper : Proper (Qeq ==> Qeq) sCurve.
Proof.
  intros u v H. apply Qle_antisym; apply sCurve_mono; rewrite H; apply Qle_refl.
Qed.

Lemma sShaped_curve (a b : Q) :
  a < b ->
  exists s, Shapes.sShaped a b = inr s
    /\ forall x, s x == sCurve ((x - a) / (b - a)).
Proof.
  intros Hab. unfold Shapes.sShaped.
  destruct (Qle_bool b a) eqn:E; [apply Qle_bool_iff in E; lra|].
  eexists. split; [reflexivity|]. intros x. cbv beta zeta.
  fraction_of a b x u Hab. unfold sCurve.
  shape_cases; rewrite ?Qsquare, ?Hu; try reflexivity; exfalso;
    try rewrite Hm in *; nra.
Qed.

Lemma zShaped_curve (a b : Q) :
  a < b ->
  exists z, Shapes.zShaped a b = inr z
    /\ forall x, z x == 1 - sCurve ((x - a) / (b - a)).
Proof.
  intros Hab. unfold Shapes.zShaped.
  destruct (Qle_bool b a) eqn:E; [apply Qle_bool_iff in E; lra|].
  eexists. split; [reflexivity|]. intros x. cbv beta zeta.
  fraction_of a b x u Hab. unfold sCurve.
  shape_cases; rewrite ?Qsquare, ?Hu; try lra; exfalso;
    try rewrite Hm in *; nra.
Qed.



(** X3. [zShaped(a, b)] throws exactly when [sShaped(a, b)] does, and for
    [a < b] it is the complement of [sShaped(a, b)]: the two degrees add
    up to 1 at every point. *)
Theorem zShaped_complements_sShaped (a b : Q) :
  (b <= a -> Shapes.zShaped a b = inl Shapes.ZShapedOrder)
  /\ (a < b ->
      exists s z, Shapes.sShaped a b = inr s /\ Shapes.zShaped a b = inr z
        /\ forall x, s x + z x == 1).
Proof.
  split.
  - intros H. unfold Shapes.zShaped. apply Qle_bool_iff in H. by rewrite H.
  - intros Hab. destruct (sShaped_curve a b Hab) as (s & Hs & Hc).
    destruct (zShaped_curve a b Hab) as (z & Hz & Hd).
    exists s, z. split; [done|]. split; [done|].
    intros x. rewrite Hc, Hd. ring.
Qed.

Lemma zShaped_complements_sShaped_witness :
  Shapes.zShaped 3 1 = inl Shapes.ZShapedOrder
  /\ exists s z, Shapes.sShaped 0 10 = inr s /\ Shapes.zShaped 0 10 = inr z
       /\ s 4 + z 4 == 1.
Proof.
  destruct (zShaped_complements_sShaped 3 1) as [H _].
  destruct (zShaped_complements_sShaped 0 10) as [_ H'].
  split.
  - apply H. discriminate.
  - destruct H' as (s & z & Hs & Hz & Hsum); [reflexivity|].
    exists s, z. split; [exact Hs|]. split; [exact Hz|]. apply Hsum.
Defined.

(** X4. For [a < b <= c < d], [piShaped(a, b, c, d)] is the smaller of the
    rising [sShaped(a, b)] and the falling [zShaped(c, d)] at every point,
    and so takes its values in [[0, 1]]. *)
Theorem piShaped_is_rise_then_fall (a b c d : Q) :
  a < b -> b <= c -> c < d ->
  exists s z, Shapes.sShaped a b = inr s /\ Shapes.zShaped c d = inr z
    /\ (forall x, Shapes.piShaped a b c d x == Qmin (s x) (z x))
    /\ (forall x, unit_degree (Shapes.piShaped a b c d x)).
Proof.
  intros Hab Hbc Hcd.
  destruct (sShaped_curve a b Hab) as (s & Hs & Hc).
  destruct (zShaped_curve c d Hcd) as (z & Hz & Hd).
  exists s, z. split; [done|]. split; [done|].
  assert (forall x, Shapes.piShaped a b c d x == Qmin (s x) (z x)) as Hpi.
  { intros x. rewrite Hc, Hd. unfold Shapes.piShaped. cbv beta zeta.
    destruct (transition_fraction a b x Hab) as (H2 & H3 & Hm).
    destruct (transition_fraction c d x Hcd) as (H5 & H6 & Hm').
    set (u := (x - a) / (b - a)) in *. set (v := (x - c) / (d - c)) in *.
    pose proof (sCurve_unit u) as [Su0 Su1].
    pose proof (sCurve_unit v) as [Sv0 Sv1].
    assert (x <= a -> sCurve u == 0) as Ha.
    { intros Hx. unfold sCurve. assert (Qle_bool u 0 = true) as ->; [|reflexivity].
      apply Qle_bool_iff. nra. }
    assert (b <= x -> sCurve u == 1) as Hb.
    { intros Hx. unfold sCurve.
      destruct (Qle_bool u 0) eqn:E0; [apply Qle_bool_iff in E0; exfalso; nra|].
      assert (Qle_bool 1 u = true) as ->; [|reflexivity].
      apply Qle_bool_iff. nra. }
    assert (x <= c -> sCurve v == 0) as Hc'.
    { intros Hx. unfold sCurve. assert (Qle_bool v 0 = true) as ->; [|reflexivity].
      apply Qle_bool_iff. nra. }
    assert (d <= x -> sCurve v == 1) as Hd'.
    { intros Hx. unfold sCurve.
      destruct (Qle_bool v 0) eqn:E0; [apply Qle_bool_iff in E0; exfalso; nra|].
      assert (Qle_bool 1 v = true) as ->; [|reflexivity].
      apply Qle_bool_iff. nra. }
    destruct (Qlt_le_dec x b) as [Hxb|Hxb].
    - (* rising side: the falling curve is still 1 *)
      rewrite (Hc' ltac:(lra)). rewrite Q.min_l by lra.
      unfold sCurve.
      shape_cases; rewrite ?Qsquare, ?H2; try reflexivity; try lra; exfalso;
        try rewrite Hm in *; try rewrite Hm' in *; nra.
    - rewrite (Hb Hxb). rewrite Q.min_r by lra.
      unfold sCurve.
      shape_cases; rewrite ?Qsquare, ?H5; try reflexivity; try lra; exfalso;
        try rewrite Hm in *; try rewrite Hm' in *; nra. }
  split; [done|]. intros x. unfold unit_degree. rewrite Hpi, Hc, Hd.
  pose proof (sCurve_unit ((x - a) / (b - a))) as [? ?].
  pose proof (sCurve_unit ((x - c) / (d - c))) as [? ?].
  apply Q.min_case_strong; intros; try lra. 
Qed.

Lemma piShaped_is_rise_then_fall_witness :
  exists s z, Shapes.sShaped 0 10 = inr s /\ Shapes.zShaped 20 30 = inr z
    /\ Shapes.piShaped 0 10 20 30 25 == Qmin (s 25) (z 25).
Proof.
  destruct (piShaped_is_rise_then_fall 0 10 20 30) as (s & z & Hs & Hz & H & _);
    try reflexivity; try discriminate.
  exists s, z. split; [exact Hs|]. split; [exact Hz|]. apply H.
Defined.

(** Case analysis on every [Math.min] and [Math.max] of two numbers. *)
Ltac minmax_cases :=
  repeat match goal with
  | |- context [Qmin ?a ?b] =>
      let m := fresh "m" in
      let H := fresh "Hm" in
      pose proof (Q.min_spec a b) as H; set (m := Qmin a b) in *; clearbody m;
      destruct H as [[? ?]|[? ?]]
  | |- context [Qmax ?a ?b] =>
      let m := fresh "m" in
      let H := fresh "Hm" in
      pose proof (Q.max_spec a b) as H; set (m := Qmax a b) in *; clearbody m;
      destruct H as [[? ?]|[? ?]]
  | _ : context [Qmin ?a ?b] |- _ =>
      let m := fresh "m" in
      let H := fresh "Hm" in
      pose proof (Q.min_spec a b) as H; set (m := Qmin a b) in *; clearbody m;
      destruct H as [[? ?]|[? ?]]
  | _ : context [Qmax ?a ?b] |- _ =>
      let m := fresh "m" in
      let H := fresh "Hm" in
      pose proof (Q.max_spec a b) as H; set (m := Qmax a b) in *; clearbody m;
      destruct H as [[? ?]|[? ?]]
  end.



(* ===================================================================== *)
(** * operators.ts: how the norms compare *)
(* ===================================================================== *)

Lemma product_below_min (vs : list Q) (p m : Q) :
  unit_degree p -> p <= m -> (forall x, In x vs -> unit_degree x) ->
  fold_left (fun acc val => acc * val) vs p <= fold_left Qmin vs m.
Proof.
  revert p m. induction vs as [|v vs IH]; intros p m Hp Hpm Hvs; simpl; [done|].
  assert (unit_degree v) as Hv by (apply Hvs; by left).
  unfold unit_degree in *.
  apply IH; [nra| |intros x Hx; apply Hvs; by right].
  minmax_cases; nra.
Qed.

Lemma bounded_difference_below_product (vs : list Q) (s c p : Q) :
  unit_degree p -> s - c <= p -> (forall x, In x vs -> unit_degree x) ->
  fold_left Qplus vs s - (c + inject_Z (Z.of_nat (length vs)))
  <= fold_left (fun acc val => acc * val) vs p.
Proof.
  revert s c p. induction vs as [|v vs IH]; intros s c p Hp Hs Hvs.
  - simpl. change (inject_Z (Z.of_nat 0)) with 0. lra.
  - assert (unit_degree v) as Hv by (apply Hvs; by left).
    cbn [fold_left length].
    rewrite Nat2Z.inj_succ, <- Z.add_1_r, inject_Z_plus.
    change (inject_Z 1) with 1.
    assert (c + (inject_Z (Z.of_nat (length vs)) + 1)
            == (c + 1) + inject_Z (Z.of_nat (length vs))) as -> by ring.
    unfold unit_degree in *.
    apply IH; [nra|nra|intros x Hx; apply Hvs; by right].
Qed.

Lemma max_below_sum (vs : list Q) (m a : Q) :
  unit_degree a -> m <= a -> (forall x, In x vs -> unit_degree x) ->
  fold_left Qmax vs m <= fold_left (fun acc val => acc + val - acc * val) vs a.
Proof.
  revert m a. induction vs as [|v vs IH]; intros m a Ha Hma Hvs; simpl; [done|].
  assert (unit_degree v) as Hv by (apply Hvs; by left).
  unfold unit_degree in *.
  apply IH; [nra| |intros x Hx; apply Hvs; by right].
  minmax_cases; nra.
Qed.

Lemma sum_below_bounded_sum (vs : list Q) (a s : Q) :
  unit_degree a -> a <= s -> (forall x, In x vs -> unit_degree x) ->
  fold_left (fun acc val => acc + val - acc * val) vs a <= fold_left Qplus vs s.
Proof.
  revert a s. induction vs as [|v vs IH]; intros a s Ha Has Hvs; simpl; [done|].
  assert (unit_degree v) as Hv by (apply Hvs; by left).
  unfold unit_degree in *.
  apply IH; [nra|nra|intros x Hx; apply Hvs; by right].
Qed.





(* ===================================================================== *)
(** * operators.ts: the drastic norms *)
(* ===================================================================== *)

Lemma existsb_is_one (values : list Q) :
  existsb (fun v => Qeq_bool v 1) values = true <-> exists v, In v values /\ v == 1.
Proof.
  rewrite existsb_exists. split; intros (v & Hv & H); exists v; (split; [done|]);
    by apply Qeq_bool_iff.
Qed.

Lemma In_filter_not (c : Q) (values : list Q) (x : Q) :
  In x (List.filter (fun v => negb (Qeq_bool v c)) values) <-> In x values /\ ~ x == c.
Proof.
  rewrite filter_In. split; intros [H1 H2]; (split; [done|]).
  - apply Qeq_bool_false. by destruct (Qeq_bool x c).
  - apply Qeq_bool_false in H2. by rewrite H2.
Qed.

(** X8. [tNormDrastic] on two or more degrees of [[0, 1]]: it is 0 when no
    argument is 1, it is the minimum of the arguments when some argument
    is 1 and some is not, and it is not a finite number ([Math.min()] of
    nothing) when every argument is 1. *)
Theorem tNormDrastic_cases (v1 v2 : Q) (vs : list Q) :
  (forall x, In x (v1 :: v2 :: vs) -> unit_degree x) ->
  ((forall x, In x (v1 :: v2 :: vs) -> ~ x == 1) ->
     SetOperators.tNormDrastic (v1 :: v2 :: vs) = Returns 0)
  /\ ((exists x, In x (v1 :: v2 :: vs) /\ x == 1) ->
      (exists y, In y (v1 :: v2 :: vs) /\ ~ y == 1) ->
      exists r, SetOperators.tNormDrastic (v1 :: v2 :: vs) = Returns r
                /\ r == tNormMin v1 (v2 :: vs))
  /\ ((forall x, In x (v1 :: v2 :: vs) -> x == 1) ->
      SetOperators.tNormDrastic (v1 :: v2 :: vs) = NonFinite).
Proof.
  intros Hunit. set (values := v1 :: v2 :: vs) in *.
  unfold SetOperators.tNormDrastic. fold values.
  change (match values with
          | [v] => Returns v
          | _ => if negb (existsb (fun v => Qeq_bool v 1) values) then Returns 0
                 else SetOperators.minOf
                        (List.filter (fun v => negb (Qeq_bool v 1)) values)
          end)
    with (if negb (existsb (fun v => Qeq_bool v 1) values) then Returns 0
          else SetOperators.minOf (List.filter (fun v => negb (Qeq_bool v 1)) values)).
  split; [|split].
  - intros Hnone.
    destruct (existsb (fun v => Qeq_bool v 1) values) eqn:E; [|done].
    apply existsb_is_one in E as (v & Hv & H1). by destruct (Hnone v Hv).
  - intros Hone (y & Hy & Hy1).
    apply existsb_is_one in Hone. rewrite Hone. cbn [negb].
    pose proof (In_filter_not 1 values) as Hf.
    destruct (List.filter (fun v => negb (Qeq_bool v 1)) values) as [|w ws] eqn:E.
    { exfalso. apply (Hf y). done. }
    eexists. split; [reflexivity|]. unfold tNormMin.
    destruct (mathMin_spec ws w) as (A1 & A2 & A3).
    destruct (mathMin_spec (v2 :: vs) v1) as (B1 & B2 & B3).
    assert (forall x, In x values -> mathMin v1 (v2 :: vs) <= x) as Hlow.
    { intros x [<-|Hx]; [done|by apply B3]. }
    assert (forall x, In x (w :: ws) -> mathMin w ws <= x) as Hlow'.
    { intros x [<-|Hx]; [done|by apply A3]. }
    apply Qle_antisym.
    + assert (exists x, In x values /\ mathMin v1 (v2 :: vs) == x) as (x & Hx & Hmx).
      { destruct B1 as [B1|(x & Hx & B1)]; [exists v1|exists x];
          (split; [|done]); [by left|by right]. }
      rewrite Hmx.
      destruct (Qeq_dec x 1) as [Hx1|Hx1].
      * pose proof (Hlow y Hy) as Hly. pose proof (Hunit y Hy) as [? ?].
        exfalso. apply Hy1. lra.
      * apply Hlow', Hf. done.
    + assert (exists x, In x (w :: ws) /\ mathMin w ws == x) as (x & Hx & ->).
      { destruct A1 as [A1|(x & Hx & A1)]; [exists w|exists x];
          (split; [|done]); [by left|by right]. }
      apply Hlow. by apply Hf in Hx as [Hx _].
  - intros Hall.
    assert (existsb (fun v => Qeq_bool v 1) values = true) as ->.
    { apply existsb_is_one. exists v1. split; [by left|]. apply Hall. by left. }
    cbn [negb].
    pose proof (In_filter_not 1 values) as Hf.
    destruct (List.filter (fun v => negb (Qeq_bool v 1)) values) as [|w ws]; [done|].
    exfalso. destruct (Hf w) as [Hw _]. destruct Hw as [Hw Hw1]; [by left|].
    by apply Hw1, Hall.
Qed.

Lemma tNormDrastic_cases_witness :
  SetOperators.tNormDrastic [1 # 2; 3 # 4] = Returns 0
  /\ (exists r, SetOperators.tNormDrastic [1; 3 # 4] = Returns r
                /\ r == tNormMin 1 [3 # 4])
  /\ SetOperators.tNormDrastic [1; 1] = NonFinite.
Proof.
  assert (forall a b x, unit_degree a -> unit_degree b -> In x [a; b] -> unit_degree x)
    as Hu.
  { intros a b x Ha Hb [<-|[<-|[]]]; assumption. }
  assert (forall q : Q, Qle_bool 0 q = true -> Qle_bool q 1 = true -> unit_degree q)
    as Hd.
  { intros q H0 H1. split; apply Qle_bool_iff; assumption. }
  destruct (tNormDrastic_cases (1 # 2) (3 # 4) []) as (H & _ & _).
  { intros x. apply Hu; apply Hd; reflexivity. }
  destruct (tNormDrastic_cases 1 (3 # 4) []) as (_ & H' & _).
  { intros x. apply Hu; apply Hd; reflexivity. }
  destruct (tNormDrastic_cases 1 1 []) as (_ & _ & H'').
  { intros x. apply Hu; apply Hd; reflexivity. }
  split; [|split].
  - apply H. intros x [<-|[<-|[]]]; discriminate.
  - apply H'.
    + exists 1. split; [left; reflexivity|reflexivity].
    + exists (3 # 4). split; [right; left; reflexivity|discriminate].
  - apply H''. intros x [<-|[<-|[]]]; reflexivity.
Defined.

(** X9. [sNormDrastic] on two or more degrees of [[0, 1]]: it is 1 when no
    argument is 0, it is the maximum of the arguments when some argument
    is 0 and some is not, and it is not a finite number ([Math.max()] of
    nothing) when every argument is 0. *)
Theorem sNormDrastic_cases (v1 v2 : Q) (vs : list Q) :
  (forall x, In x (v1 :: v2 :: vs) -> unit_degree x) ->
  ((forall x, In x (v1 :: v2 :: vs) -> ~ x == 0) ->
     SetOperators.sNormDrastic (v1 :: v2 :: vs) = Returns 1)
  /\ ((exists x, In x (v1 :: v2 :: vs) /\ x == 0) ->
      (exists y, In y (v1 :: v2 :: vs) /\ ~ y == 0) ->
      exists r, SetOperators.sNormDrastic (v1 :: v2 :: vs) = Returns r
                /\ r == sNormMax v1 (v2 :: vs))
  /\ ((forall x, In x (v1 :: v2 :: vs) -> x == 0) ->
      SetOperators.sNormDrastic (v1 :: v2 :: vs) = NonFinite).
Proof.
  intros Hunit. set (values := v1 :: v2 :: vs) in *.
  unfold SetOperators.sNormDrastic. fold values.
  change (match values with
          | [v] => Returns v
          | _ => if negb (existsb (fun v => Qeq_bool v 0) values) then Returns 1
                 else SetOperators.maxOf
                        (List.filter (fun v => negb (Qeq_bool v 0)) values)
          end)
    with (if negb (existsb (fun v => Qeq_bool v 0) values) then Returns 1
          else SetOperators.maxOf (List.filter (fun v => negb (Qeq_bool v 0)) values)).
  assert (forall l, existsb (fun v => Qeq_bool v 0) l = true
                    <-> exists v, In v l /\ v == 0) as Hex.
  { intros l. rewrite existsb_exists.
    split; intros (v & Hv & H); exists v; (split; [done|]); by apply Qeq_bool_iff. }
  split; [|split].
  - intros Hnone.
    destruct (existsb (fun v => Qeq_bool v 0) values) eqn:E; [|done].
    apply Hex in E as (v & Hv & H1). by destruct (Hnone v Hv).
  - intros Hzero (y & Hy & Hy1).
    apply Hex in Hzero. rewrite Hzero. cbn [negb].
    pose proof (In_filter_not 0 values) as Hf.
    destruct (List.filter (fun v => negb (Qeq_bool v 0)) values) as [|w ws] eqn:E.
    { exfalso. apply (Hf y). done. }
    eexists. split; [reflexivity|]. unfold sNormMax.
    destruct (mathMax_spec ws w) as (A1 & A2 & A3).
    destruct (mathMax_spec (v2 :: vs) v1) as (B1 & B2 & B3).
    assert (forall x, In x values -> x <= mathMax v1 (v2 :: vs)) as Hup.
    { intros x [<-|Hx]; [done|by apply B3]. }
    assert (forall x, In x (w :: ws) -> x <= mathMax w ws) as Hup'.
    { intros x [<-|Hx]; [done|by apply A3]. }
    apply Qle_antisym.
    + assert (exists x, In x (w :: ws) /\ mathMax w ws == x) as (x & Hx & ->).
      { destruct A1 as [A1|(x & Hx & A1)]; [exists w|exists x];
          (split; [|done]); [by left|by right]. }
      apply Hup. by apply Hf in Hx as [Hx _].
    + assert (exists x, In x values /\ mathMax v1 (v2 :: vs) == x) as (x & Hx & Hmx).
      { destruct B1 as [B1|(x & Hx & B1)]; [exists v1|exists x];
          (split; [|done]); [by left|by right]. }
      rewrite Hmx.
      destruct (Qeq_dec x 0) as [Hx0|Hx0].
      * pose proof (Hup y Hy) as Hly. pose proof (Hunit y Hy) as [? ?].
        exfalso. apply Hy1. lra.
      * apply Hup', Hf. done.
  - intros Hall.
    assert (existsb (fun v => Qeq_bool v 0) values = true) as ->.
    { apply Hex. exists v1. split; [by left|]. apply Hall. by left. }
    cbn [negb].
    pose proof (In_filter_not 0 values) as Hf.
    destruct (List.filter (fun v => negb (Qeq_bool v 0)) values) as [|w ws]; [done|].
    exfalso. destruct (Hf w) as [Hw _]. destruct Hw as [Hw Hw1]; [by left|].
    by apply Hw1, Hall.
Qed.

Lemma sNormDrastic_cases_witness :
  SetOperators.sNormDrastic [1 # 2; 3 # 4] = Returns 1
  /\ (exists r, SetOperators.sNormDrastic [0; 3 # 4] = Returns r
                /\ r == sNormMax 0 [3 # 4])
  /\ SetOperators.sNormDrastic [0; 0] = NonFinite.
Proof.
  assert (forall a b x, unit_degree a -> unit_degree b -> In x [a; b] -> unit_degree x)
    as Hu.
  { intros a b x Ha Hb [<-|[<-|[]]]; assumption. }
  assert (forall q : Q, Qle_bool 0 q = true -> Qle_bool q 1 = true -> unit_degree q)
    as Hd.
  { intros q H0 H1. split; apply Qle_bool_iff; assumption. }
  destruct (sNormDrastic_cases (1 # 2) (3 # 4) []) as (H & _ & _).
  { intros x. apply Hu; apply Hd; reflexivity. }
  destruct (sNormDrastic_cases 0 (3 # 4) []) as (_ & H' & _).
  { intros x. apply Hu; apply Hd; reflexivity. }
  destruct (sNormDrastic_cases 0 0 []) as (_ & _ & H'').
  { intros x. apply Hu; apply Hd; reflexivity. }
  split; [|split].
  - apply H. intros x [<-|[<-|[]]]; discriminate.
  - apply H'.
    + exists 0. split; [left; reflexivity|reflexivity].
    + exists (3 # 4). split; [right; left; reflexivity|discriminate].
  - apply H''. intros x [<-|[<-|[]]]; reflexivity.
Defined.

(* ===================================================================== *)
(** * operators.ts: the set operations *)
(* ===================================================================== *)

(** The operators on two values. *)
Lemma getAndOperator_two (method : string) (a b : Q) :
  getAndOperator method a [b]
  == if String.eqb method "product" then a * b else Qmin a b.
Proof.
  unfold getAndOperator, tNormMin, mathMin, tNormProduct.
  destruct (String.eqb method "min") eqn:E.
  - apply String.eqb_eq in E as ->. reflexivity.
  - destruct (String.eqb method "product"); simpl; [ring|reflexivity].
Qed.

Lemma getOrOperator_two (method : string) (a b : Q) :
  getOrOperator method a [b]
  == if String.eqb method "sum" || String.eqb method "probor"
     then a + b - a * b else Qmax a b.
Proof.
  unfold getOrOperator, sNormMax, mathMax, sNormProbor, sNormSum.
  destruct (String.eqb method "max") eqn:E.
  - apply String.eqb_eq in E as ->. reflexivity.
  - destruct (String.eqb method "sum"); simpl; [ring|].
    destruct (String.eqb method "probor"); simpl; [ring|reflexivity].
Qed.




(** X12. Alpha-cuts are crisp (0 or 1) and nested: raising [alpha] can only
    shrink the cut, the strong cut lies inside the cut at the same level
    and contains every cut at a higher level. *)
Theorem alphaCut_nested (mf : MembershipFunction) (alpha beta x : Q) :
  (SetOperators.alphaCut mf alpha x = 0 \/ SetOperators.alphaCut mf alpha x = 1)
  /\ (SetOperators.alphaCut mf alpha x = 1 <-> alpha <= mf x)
  /\ (SetOperators.strongAlphaCut mf alpha x = 1 <-> alpha < mf x)
  /\ SetOperators.strongAlphaCut mf alpha x <= SetOperators.alphaCut mf alpha x
  /\ (alpha <= beta ->
      SetOperators.alphaCut mf beta x <= SetOperators.alphaCut mf alpha x)
  /\ (alpha < beta ->
      SetOperators.alphaCut mf beta x <= SetOperators.strongAlphaCut mf alpha x).
Proof.
  unfold SetOperators.alphaCut, SetOperators.strongAlphaCut.
  repeat split; shape_cases; intros; try lra; try done; auto.
Qed.

Lemma alphaCut_nested_witness :
  SetOperators.alphaCut (tri 0 50 100) (3 # 4) 30
  <= SetOperators.alphaCut (tri 0 50 100) (1 # 2) 30
  /\ SetOperators.alphaCut (tri 0 50 100) (3 # 4) 30
     <= SetOperators.strongAlphaCut (tri 0 50 100) (1 # 2) 30.
Proof.
  destruct (alphaCut_nested (tri 0 50 100) (1 # 2) (3 # 4) 30)
    as (_ & _ & _ & _ & H1 & H2).
  split; [apply H1; discriminate|apply H2; reflexivity].
Defined.

(** X13. [support] tests [mf(x) >= 0], so the support of a membership
    function with no negative degree is the whole line: it is 1 also where
    the degree is 0.  [core] is 1 exactly where the degree reaches 1. *)
Theorem support_is_everything (mf : MembershipFunction) :
  (forall x, 0 <= mf x) ->
  forall x, SetOperators.support mf x = 1
            /\ (SetOperators.core mf x = 1 <-> 1 <= mf x).
Proof.
  intros Hmf x. unfold SetOperators.support, SetOperators.core, SetOperators.alphaCut.
  specialize (Hmf x). split.
  - apply Qle_bool_iff in Hmf. by rewrite Hmf.
  - shape_cases; split; intros; try done; lra.
Qed.

Lemma support_is_everything_witness :
  tri 0 50 100 200 == 0 /\ SetOperators.support (tri 0 50 100) 200 = 1.
Proof.
  split; [reflexivity|].
  apply (support_is_everything (tri 0 50 100)).
  intros x. apply tri_unit.
Defined.

(* ===================================================================== *)
(** * operators.ts: what the sampling comparisons establish *)
(* ===================================================================== *)

(** A function that lies below another on the range passes [isSubset]. *)
Lemma isSubset_pointwise (A B : MembershipFunction) (lo hi resolution : Q) :
  lo < hi -> 0 < resolution ->
  (forall x, lo <= x -> x <= hi -> A x <= B x) ->
  exists n, forall fuel, (n <= fuel)%nat ->
    isSubset fuel A B (lo, hi) resolution = Returns true.
Proof.
  intros Hr Hres HAB.
  destruct (sampleStep_pos lo hi resolution Hr Hres) as (step & Hs & Hpos & _).
  edestruct (forUp_runs hi step
    (fun x (_ : unit) => if Qgtb (A x) (B x + tenth_nano) then inr false else inl tt)
    (fun x _ => lo <= x) lo tt Hpos) as [n Hn].
  { intros x s Hx Hlo. assert (Qgtb (A x) (B x + tenth_nano) = false) as ->; [|lra].
    apply Qgtb_false. specialize (HAB x Hlo Hx). unfold tenth_nano. lra. }
  { lra. }
  exists n. intros fuel Hf. unfold isSubset. rewrite Hs.
  unfold mbind, outcome_bind.
  destruct (Hn fuel Hf) as (s' & x' & -> & _). done.
Qed.





Lemma outcome_rel_eq {A : Type} (a b : outcome (unit + A)) :
  outcome_rel (sum_rel (fun _ _ => True) eq) a b -> a = b.
Proof.
  destruct a as [[[]|a]| |], b as [[[]|b]| |]; simpl; try done. by intros ->.
Qed.

(** X16. [isEqual] is symmetric: comparing [A] with [B] and [B] with [A]
    gives the same answer, and fails to return in the same cases. *)
Theorem isEqual_symmetric (fuel : nat) (A B : MembershipFunction)
    (range : Q * Q) (resolution tolerance : Q) :
  isEqual fuel A B range resolution tolerance
  = isEqual fuel B A range resolution tolerance.
Proof.
  unfold isEqual. destruct range as [lo hi].
  destruct (sampleStep lo hi resolution) as [step| |]; try done.
  unfold mbind, outcome_bind.
  assert (forUp fuel hi step
            (fun x (_ : unit) =>
               if Qgtb (Qabs (A x - B x)) tolerance then inr false else inl tt) lo tt
          = forUp fuel hi step
              (fun x (_ : unit) =>
                 if Qgtb (Qabs (B x - A x)) tolerance then inr false else inl tt) lo tt)
    as ->; [|done].
  apply outcome_rel_eq. apply forUp_rel; [|done].
  intros x s1 s2 _.
  assert (Qgtb (Qabs (A x - B x)) tolerance = Qgtb (Qabs (B x - A x)) tolerance) as ->.
  { assert (Qabs (A x - B x) == Qabs (B x - A x)) as ->; [|done].
    rewrite <- Qabs_opp. apply Qabs_wd. ring. }
  by destruct (Qgtb _ _).
Qed.

(* ===================================================================== *)
(** * defuzzification.ts: the weighted average *)
(* ===================================================================== *)

Lemma weightedAverage_sums (cs : list WeightedAverage.PeakStrength) (lo hi sw ss : Q) :
  (forall c, In c cs ->
     0 <= WeightedAverage.strength c
     /\ lo <= WeightedAverage.peak c /\ WeightedAverage.peak c <= hi) ->
  0 <= ss -> lo * ss <= sw -> sw <= hi * ss ->
  let r := fold_left
             (fun '(sumWeighted, sumStrength) c =>
                (sumWeighted + WeightedAverage.peak c * WeightedAverage.strength c,
                 sumStrength + WeightedAverage.strength c))
             cs (sw, ss) in
  0 <= snd r /\ lo * snd r <= fst r /\ fst r <= hi * snd r.
Proof.
  revert sw ss. induction cs as [|c cs IH]; intros sw ss Hcs H0 H1 H2; simpl; [done|].
  destruct (Hcs c) as (Hs & Hl & Hh); [by left|].
  apply IH; [intros c' Hc'; apply Hcs; by right|nra|nra|nra].
Qed.



(* ===================================================================== *)
(** * engine.ts: which rules are accepted *)
(* ===================================================================== *)

Lemma validateTerms_accepts (variable : EngineVariable) (varName : string)
    (terms : list string) :
  validateTerms variable varName terms = inr tt
  <-> forall term, In term terms -> is_Some (obj_get term (var_sets variable)).
Proof.
  induction terms as [|term terms IH]; simpl.
  - split; [intros _ ? []|done].
  - destruct (obj_get term (var_sets variable)) as [mf|] eqn:E.
    + rewrite IH. split.
      * intros H t [<-|Ht]; [by rewrite E|by apply H].
      * intros H t Ht. apply H. by right.
    + split; [done|]. intros H. destruct (H term) as [mf Hmf]; [by left|congruence].
Qed.

Lemma validateAntecedent_accepts (e : FuzzyEngine) (entries : RuleCondition) :
  validateAntecedent e entries = inr tt
  <-> forall varName terms, In (varName, terms) entries ->
        exists variable, variables e !! varName = Some variable
          /\ forall term, In term (termList terms) ->
               is_Some (obj_get term (var_sets variable)).
Proof.
  induction entries as [|[v ts] entries IH]; simpl.
  - split; [intros _ ? ? []|done].
  - destruct (variables e !! v) as [variable|] eqn:Ev.
    + destruct (validateTerms variable v (termList ts)) as [err|[]] eqn:Et.
      * split; [done|]. intros H.
        destruct (H v ts) as (variable' & Hv & Hts); [by left|].
        assert (variable' = variable) as -> by congruence.
        pose proof (proj2 (validateTerms_accepts variable v (termList ts)) Hts). congruence.
      * rewrite IH. pose proof (proj1 (validateTerms_accepts variable v (termList ts)) Et) as Et'. split.
        -- intros H v' ts' [[= <- <-]|Hin]; [eauto|by apply H].
        -- intros H v' ts' Hin. apply H. by right.
    + split; [done|]. intros H.
      destruct (H v ts) as (variable & Hv & _); [by left|congruence].
Qed.

Lemma validateConsequent_accepts (e : FuzzyEngine) (entries : RuleConsequence) :
  validateConsequent e entries = inr tt
  <-> forall varName term, In (varName, term) entries ->
        exists variable, variables e !! varName = Some variable
          /\ var_isOutput variable = true
          /\ is_Some (obj_get term (var_sets variable)).
Proof.
  induction entries as [|[v t] entries IH]; simpl.
  - split; [intros _ ? ? []|done].
  - destruct (variables e !! v) as [variable|] eqn:Ev.
    + destruct (var_isOutput variable) eqn:Eo; simpl.
      * destruct (obj_get t (var_sets variable)) as [mf|] eqn:Et.
        -- rewrite IH. split.
           ++ intros H v' t' [[= <- <-]|Hin]; [|by apply H].
              exists variable. by rewrite Et.
           ++ intros H v' t' Hin. apply H. by right.
        -- split; [done|]. intros H.
           destruct (H v t) as (variable' & Hv & _ & [mf Hmf]); [by left|].
           congruence.
      * split; [done|]. intros H.
        destruct (H v t) as (variable' & Hv & Ho & _); [by left|]. congruence.
    + split; [done|]. intros H.
      destruct (H v t) as (variable & Hv & _); [by left|congruence].
Qed.



(** X19. A consequent that names a registered input variable is refused
    with the not-an-output error once the antecedent and the consequent
    entries before it have passed, and the rule is not added. *)
Theorem addRule_input_as_consequent (e : FuzzyEngine) (rule : FuzzyRule)
    (pre post : RuleConsequence) (varName term : string) (variable : EngineVariable) :
  validateAntecedent e (rule_if rule) = inr tt ->
  rule_then rule = pre ++ (varName, term) :: post ->
  validateConsequent e pre = inr tt ->
  variables e !! varName = Some variable ->
  var_isOutput variable = false ->
  addRule rule e = (e, inl (NotAnOutputVariable varName)).
Proof.
  intros Hif Hthen Hpre Hv Ho. apply addRule_rejected.
  unfold validateRule. rewrite Hif, Hthen. clear Hthen.
  induction pre as [|[v t] pre IH]; simpl in *.
  - by rewrite Hv, Ho.
  - destruct (variables e !! v) as [variable'|]; [|done].
    destruct (negb (var_isOutput variable')); [done|].
    destruct (obj_get t (var_sets variable')); [|done]. by apply IH.
Qed.

Lemma addRule_input_as_consequent_witness :
  addRule (mkRule [("temperature"%string, OneTerm "hot")]
             [("temperature"%string, "cold"%string)] None None) exampleEngine
  = (exampleEngine, inl (NotAnOutputVariable "temperature")).
Proof.
  eapply (addRule_input_as_consequent exampleEngine _ [] [] "temperature" "cold").
  - reflexivity.
  - reflexivity.
  - reflexivity.
  - reflexivity.
  - reflexivity.
Defined.

(** X20. [addRules] completes without an error exactly when every rule of
    the list is valid for the registry, and then [getRules()] is what it
    was before followed by the whole list, in order; nothing else of the
    engine changes. *)
Theorem addRules_appends_all (e : FuzzyEngine) (rs : list FuzzyRule) :
  (snd (addRules rs e) = inr tt
   <-> Forall (fun rule => validateRule e rule = inr tt) rs)
  /\ (Forall (fun rule => validateRule e rule = inr tt) rs ->
      getRules (fst (addRules rs e)) = getRules e ++ rs
      /\ same_config (fst (addRules rs e)) e).
Proof.
  assert (Forall (fun rule => validateRule e rule = inr tt) rs ->
          addRules rs e = (withRules (rules e ++ rs) e, inr tt)) as Hall.
  { revert e. induction rs as [|rule rs IH]; intros e Hrs; simpl.
    - rewrite app_nil_r. by destruct e.
    - inversion Hrs as [|? ? Hrule Hrs']; subst.
      rewrite (addRule_accepted e rule Hrule). rewrite IH.
      + simpl. by rewrite <- app_assoc.
      + eapply Forall_impl; [exact Hrs'|].
        intros r Hr. by rewrite validateRule_withRules. }
  split.
  - split; [|by intros H; rewrite (Hall H)].
    clear Hall. revert e. induction rs as [|rule rs IH]; intros e Hok; [done|].
    simpl in Hok. unfold addRule in Hok.
    destruct (validateRule e rule) as [err|[]] eqn:Ev; [done|].
    constructor; [done|].
    pose proof (IH _ Hok) as Hrs.
    eapply Forall_impl; [exact Hrs|].
    intros r Hr. cbv beta in Hr. by rewrite validateRule_withRules in Hr.
  - intros H. rewrite (Hall H). done.
Qed.

Lemma addRules_appends_all_witness :
  getRules (fst (addRules [ruleCold; ruleWarm; ruleHot] exampleEngine))
  = getRules exampleEngine ++ [ruleCold; ruleWarm; ruleHot].
Proof.
  apply (addRules_appends_all exampleEngine [ruleCold; ruleWarm; ruleHot]).
  repeat constructor.
Defined.

(* ===================================================================== *)
(** * engine.ts: what [evaluate] reads and what it returns *)
(* ===================================================================== *)

Lemma fuzzify_registered_inputs (e : FuzzyEngine) (inputs : list (string * Q)) :
  fuzzify e (List.filter (isRegisteredInput e) inputs) = fuzzify e inputs.
Proof.
  induction inputs as [|[name value] inputs IH]; simpl; [done|].
  unfold isRegisteredInput at 1. cbn [fst].
  destruct (variables e !! name) as [variable|] eqn:Ev; [|done].
  destruct (var_isOutput variable) eqn:Eo; simpl; [done|].
  by rewrite Ev, Eo, IH.
Qed.

(** X21. [evaluate] and [evaluateVerbose] ignore every input entry that
    does not name a registered input variable: entries with unknown names
    and entries that name an output variable can be dropped from [inputs]
    without changing anything in the result. *)
Theorem evaluate_ignores_other_inputs (fuel : nat) (e : FuzzyEngine)
    (inputs : list (string * Q)) :
  evaluateVerbose fuel e (List.filter (isRegisteredInput e) inputs)
  = evaluateVerbose fuel e inputs
  /\ evaluate fuel e (List.filter (isRegisteredInput e) inputs)
     = evaluate fuel e inputs.
Proof.
  unfold evaluate, evaluateVerbose. cbv zeta.
  by rewrite fuzzify_registered_inputs.
Qed.

Lemma touched_In (k : string) (entries : list (string * Contribution)) :
  touched k entries = true <-> In k (map fst entries).
Proof.
  unfold touched. rewrite existsb_exists, in_map_iff. split.
  - intros ([k' c] & Hin & Hk). apply String.eqb_eq in Hk. simpl in Hk. subst k'.
    by exists (k, c).
  - intros ([k' c] & Hk & Hin). simpl in Hk. subst k'. exists (k, c).
    split; [done|]. apply String.eqb_refl.
Qed.

Lemma evaluateRules_touched (e : FuzzyEngine)
    (fuzzification : list FuzzificationResult) (k : string) :
  touched k (flat_map re_outputContributions (evaluateRules e fuzzification)) = true
  <-> exists rule, In rule (rules e) /\ is_Some (obj_get k (rule_then rule)).
Proof.
  rewrite touched_In. unfold evaluateRules.
  rewrite in_map_iff. split.
  - intros ([k' c] & Hk & Hin). simpl in Hk. subst k'.
    apply in_flat_map in Hin as (r & Hr & Hin).
    apply in_map_iff in Hr as (rule & <- & Hrule).
    exists rule. split; [done|]. unfold evaluateRule in Hin. cbn [re_outputContributions] in Hin.
    apply (in_map fst) in Hin. cbn [fst] in Hin.
    apply contributions_keys in Hin as [[]|Hin].
    by apply obj_get_is_Some.
  - intros (rule & Hrule & [t Ht]).
    assert (In k (map fst (re_outputContributions
                             (evaluateRule e (fuzzifiedOf fuzzification) rule)))) as Hin.
    { unfold evaluateRule. cbn [re_outputContributions].
      apply contributions_keys. right.
      apply obj_get_In in Ht. by apply (in_map fst _ (k, t)) in Ht. }
    apply in_map_iff in Hin as ([k' c] & Hk & Hin). simpl in Hk. subst k'.
    exists (k, c). split; [done|]. apply in_flat_map.
    exists (evaluateRule e (fuzzifiedOf fuzzification) rule). split; [|done].
    by apply in_map.
Qed.

(** X22. The object returned by [evaluate] has a property exactly for the
    registered variables that some rule names in its consequent: an output
    variable that no rule mentions is absent from the result, whatever the
    inputs are. *)
Theorem outputs_are_the_consequent_variables (fuel : nat) (e : FuzzyEngine)
    (inputs : list (string * Q)) (outputs : list (string * Q)) :
  evaluate fuel e inputs = Returns outputs ->
  forall name,
    is_Some (obj_get name outputs)
    <-> is_Some (variables e !! name)
        /\ exists rule, In rule (rules e) /\ is_Some (obj_get name (rule_then rule)).
Proof.
  unfold evaluate, evaluateVerbose, defuzzifyOutputs. cbv zeta.
  set (ruleEvaluations := evaluateRules e (fuzzify e inputs)).
  intros Hev name.
  rewrite <- (evaluateRules_touched e (fuzzify e inputs) name). fold ruleEvaluations.
  pose proof (aggregate_NoDup e ruleEvaluations) as Hnd.
  pose proof (aggregate_lookup e ruleEvaluations name) as Hlook. cbv zeta in Hlook.
  destruct (returnsAll fuel e (aggregate e ruleEvaluations)) eqn:Hall.
  - destruct (defuzzifyEntries_lookup fuel e _ [] Hall Hnd) as (outs & Hd & Hget).
    rewrite Hd in Hev. unfold mbind, outcome_bind in Hev. cbn in Hev.
    injection Hev as <-. rewrite Hget, Hlook.
    destruct (touched name _) eqn:Et.
    + pose proof (proj1 (returnsAll_lookup fuel e _ Hnd) Hall name) as Hc.
      specialize (Hc _ Hlook).
      unfold defuzzifyOne in *. cbn [fst snd] in *.
      destruct (variables e !! name) as [variable|]; simpl in *.
      * destruct (defuzzify _ _ _ _); done.
      * split; [by intros [? ?]|]. by intros [[? ?] _].
    + simpl. split; [by intros [? ?]|]. by intros [_ ?].
  - rewrite (defuzzifyEntries_fails fuel e _ [] Hall) in Hev.
    unfold failure in Hev. by destruct (Qeq_bool _ _).
Qed.

Lemma outputs_are_the_consequent_variables_witness :
  exists outputs,
    evaluate 5 fanEngine [("temperature"%string, 35)] = Returns outputs
    /\ is_Some (obj_get "fanSpeed" outputs)
    /\ ~ is_Some (obj_get "temperature" outputs).
Proof.
  pose proof fanEngine_at_35 as Hrun.
  destruct (evaluate 5 fanEngine [("temperature"%string, 35)])
    as [outputs| |] eqn:H; [|discriminate Hrun..].
  exists outputs. split; [reflexivity|].
  pose proof (outputs_are_the_consequent_variables 5 fanEngine
                [("temperature"%string, 35)] outputs H) as Hnames.
  split.
  - apply Hnames. split.
    + eexists. reflexivity.
    + exists ruleCold. split; [left; reflexivity|]. eexists. reflexivity.
  - intros Hs. apply Hnames in Hs as [_ (rule & Hrule & Ht)].
    destruct Hrule as [<-|[<-|[<-|[]]]]; destruct Ht as [t Ht]; discriminate Ht.
Defined.

(* ===================================================================== *)
(** * engine.ts: the constructor and the membership queries *)
(* ===================================================================== *)

Lemma truthyString_nonempty (field : option string) (default : string) :
  default <> ""%string -> Introspection.truthyString field default <> ""%string.
Proof.
  intros Hd. unfold Introspection.truthyString.
  destruct field as [s|]; [|done].
  destruct (String.eqb s "") eqn:E; [done|]. by apply String.eqb_neq.
Qed.

(** X23. Whatever configuration the constructor is given, the engine it
    builds has no variable and no rule, a resolution other than 0 and no
    empty method name: a zero resolution or an empty method in the
    configuration is replaced by the default, so the sampling step of a
    fresh engine is always a number. *)
Theorem construct_never_zero_resolution (config : option Introspection.FuzzyEngineConfig) :
  let e := Introspection.construct config in
  variables e = ∅ /\ rules e = []
  /\ ~ resolution e == 0
  /\ (forall lo hi, exists step, sampleStep lo hi (resolution e) = Returns step)
  /\ defuzzificationMethod e <> ""%string /\ andMethod e <> ""%string
  /\ orMethod e <> ""%string /\ implicationMethod e <> ""%string
  /\ aggregationMethod e <> ""%string.
Proof.
  cbv zeta.
  assert (~ resolution (Introspection.construct config) == 0) as Hres.
  { destruct config as [config|]; [|done]. cbn.
    unfold Introspection.truthyNumber.
    destruct (Introspection.cfg_resolution config) as [r|]; [|done].
    destruct (Qeq_bool r 0) eqn:E; [done|]. by apply Qeq_bool_false. }
  split; [by destruct config|]. split; [by destruct config|].
  split; [done|]. split.
  { intros lo hi. unfold sampleStep. apply Qeq_bool_false in Hres. rewrite Hres. eauto. }
  destruct config as [config|]; [|done]. cbn.
  repeat split; by apply truthyString_nonempty.
Qed.



Lemma memberships_map (sets : FuzzySet) (value : Q) :
  List.NoDup (map fst sets) ->
  memberships sets value = map (fun '(termName, mf) => (termName, mf value)) sets.
Proof.
  intros Hnd. unfold memberships.
  apply (fold_obj_set_map (fun mf : MembershipFunction => mf value) sets []). done.
Qed.



(* ===================================================================== *)
(** * engine.ts: the aggregated output functions *)
(* ===================================================================== *)

(** Where the functions collected for an output variable come from. *)
Lemma bucket_In (e : FuzzyEngine) (k : string)
    (entries : list (string * Contribution)) (mf : MembershipFunction) :
  In mf (bucket e k entries) ->
  exists c variable baseMF,
    In (k, c) entries /\ variables e !! k = Some variable
    /\ obj_get (c_term c) (var_sets variable) = Some baseMF
    /\ mf = applyImplication e baseMF (c_strength c).
Proof.
  unfold bucket. intros Hin. apply in_flat_map in Hin as ([k' c] & Hen & Hin).
  unfold impliedFor in Hin. cbn [fst snd] in Hin.
  destruct (String.eqb k k') eqn:Ek; [|done].
  apply String.eqb_eq in Ek. subst k'.
  destruct (variables e !! k) as [variable|] eqn:Ev; [|done].
  destruct (obj_get (c_term c) (var_sets variable)) as [baseMF|] eqn:Eb; [|done].
  destruct Hin as [<-|[]]. by exists c, variable, baseMF.
Qed.

Lemma contribution_of_rule (e : FuzzyEngine)
    (fuzzification : list FuzzificationResult) (k : string) (c : Contribution) :
  In (k, c) (flat_map re_outputContributions (evaluateRules e fuzzification)) ->
  exists rule, In rule (rules e)
    /\ c_strength c = firingStrengthOf e (fuzzifiedOf fuzzification) rule.
Proof.
  intros Hin. apply in_flat_map in Hin as (r & Hr & Hin).
  unfold evaluateRules in Hr. apply in_map_iff in Hr as (rule & <- & Hrule).
  exists rule. split; [done|].
  unfold evaluateRule in Hin. cbn [re_outputContributions] in Hin.
  apply contributions_strength in Hin; [done|by intros ? ? []].
Qed.

Lemma aggregated_In (e : FuzzyEngine)
    (fuzzification : list FuzzificationResult) (k : string) (mf : MembershipFunction) :
  In (k, mf) (aggregate e (evaluateRules e fuzzification)) ->
  mf = aggregateMFs e
         (bucket e k (flat_map re_outputContributions
                        (evaluateRules e fuzzification))).
Proof.
  intros Hin.
  apply obj_get_of_In in Hin; [|apply aggregate_NoDup].
  rewrite aggregate_lookup in Hin. cbv zeta in Hin.
  destruct (touched k _); congruence.
Qed.

Lemma applyImplication_unit (e : FuzzyEngine) (baseMF : MembershipFunction)
    (strength x : Q) :
  unit_degree (baseMF x) -> unit_degree strength ->
  unit_degree (applyImplication e baseMF strength x).
Proof.
  unfold applyImplication, unit_degree. intros Hb Hs.
  destruct (String.eqb _ _); [minmax_cases; lra|nra].
Qed.

Lemma aggregateMFs_unit (e : FuzzyEngine) (mfs : list MembershipFunction) (x : Q) :
  (forall mf, In mf mfs -> unit_degree (mf x)) -> unit_degree (aggregateMFs e mfs x).
Proof.
  intros Hin. unfold aggregateMFs.
  destruct mfs as [|mf [|mf' more]];
    [unfold unit_degree; lra|apply Hin; by left|].
  destruct (String.eqb _ _).
  - apply mathMax_unit; [apply Hin; by left|].
    intros y Hy. apply in_map_iff in Hy as (m & <- & Hm). apply Hin. by right.
  - assert (0 <= fold_left (fun sum mf' => sum + mf' x) (mf :: mf' :: more) 0) as H0.
    { apply sum_fold_nonneg; [lra|]. intros m Hm. by destruct (Hin m Hm). }
    unfold unit_degree. minmax_cases; lra.
Qed.

Lemma firingStrength_unit (e : FuzzyEngine) (inputs : list (string * Q))
    (rule : FuzzyRule) :
  (forall name variable term mf,
      variables e !! name = Some variable -> In (term, mf) (var_sets variable) ->
      forall x, unit_degree (mf x)) ->
  (forall w, rule_weight rule = Some w -> unit_degree w) ->
  unit_degree (firingStrengthOf e (fuzzifiedOf (fuzzify e inputs)) rule).
Proof.
  intros Hunit Hw. unfold firingStrengthOf. cbv zeta.
  set (fuzzified := fuzzifiedOf (fuzzify e inputs)).
  assert (forall x,
            In x (antecedentStrengths (getOrOperator (orMethod e)) fuzzified
                    (rule_if rule)) -> unit_degree x) as Hall.
  { apply antecedentStrengths_unit.
    intros varName varMemberships term d. apply fuzzifiedOf_unit.
    intros f t d'. by apply fuzzify_unit. }
  assert (unit_degree
            match antecedentStrengths (getOrOperator (orMethod e)) fuzzified
                    (rule_if rule) with
            | [] => 0
            | s :: more => getAndOperator (andMethod e) s more
            end) as Hfs.
  { destruct (antecedentStrengths _ _ _) as [|s more].
    - unfold unit_degree. lra.
    - apply getAndOperator_unit; [apply Hall; by left|].
      intros x Hx. apply Hall. by right. }
  destruct (rule_weight rule) as [w|]; [|done].
  specialize (Hw w eq_refl). unfold unit_degree in *. nra.
Qed.


Lemma fanEngine_unit_weights (rule : FuzzyRule) (w : Q) :
  In rule (rules fanEngine) -> rule_weight rule = Some w -> unit_degree w.
Proof.
  rewrite fanEngine_rules. intros [<-|[<-|[<-|[]]]]; discriminate.
Qed.


(* ===================================================================== *)
(** * engine.ts: evaluation when no rule can fire *)
(* ===================================================================== *)

Section ZeroValues.
Variable mf : MembershipFunction.
Hypothesis mf_zero : forall x, mf x == 0.
Variable options : DefuzzifyOptions.
Variable fuel : nat.

Lemma centroid_zero_value (v : Q) :
  centroid fuel mf options = Returns v ->
  v = (opt_min options + opt_max options) / 2.
Proof.
  unfold centroid. cbv zeta.
  destruct (sampleStep _ _ _) as [step| |]; try done.
  unfold mbind, outcome_bind.
  destruct (forUp fuel _ step _ _ _) as [res| |] eqn:E; try done.
  apply (forUp_invariant _ step _ (fun _ s => snd s == 0) (fun _ => False)) in E.
  - destruct res as [[sw sm]|r]; [|done]. destruct E as (x' & H & _).
    simpl in H. apply Qeq_bool_iff in H. rewrite H. by intros [= <-].
  - intros x [sw sm] _ H. simpl in *. rewrite H, mf_zero. ring.
  - reflexivity.
Qed.

Lemma bisector_zero_value (v : Q) :
  bisector fuel mf options = Returns v ->
  v = (opt_min options + opt_max options) / 2.
Proof.
  unfold bisector. cbv zeta.
  destruct (sampleStep _ _ _) as [step| |]; try done.
  unfold mbind, outcome_bind.
  destruct (forUp fuel _ step _ _ 0) as [res| |] eqn:E; try done.
  apply (forUp_invariant _ step _ (fun _ s => s == 0) (fun _ => False)) in E.
  - destruct res as [s|r]; [|done]. destruct E as (x' & H & _).
    apply Qeq_bool_iff in H. rewrite H. by intros [= <-].
  - intros x s _ H. simpl. rewrite H, mf_zero. ring.
  - reflexivity.
Qed.

Lemma smallestOfMaximum_zero_value (v : Q) :
  smallestOfMaximum fuel mf options = Returns v -> v = opt_min options.
Proof.
  unfold smallestOfMaximum. cbv zeta.
  destruct (sampleStep _ _ _) as [step| |]; try done.
  unfold mbind, outcome_bind.
  destruct (forUp fuel _ step _ _ _) as [res| |] eqn:E; try done.
  apply (forUp_invariant _ step _
           (fun _ s => fst s == 0 /\ snd s = opt_min options) (fun _ => False)) in E.
  - destruct res as [[mm sm]|r]; [|done]. destruct E as (x' & [_ H] & _).
    simpl in H. subst sm. by intros [= <-].
  - intros x [mm sm] _ [H1 H2]. simpl in *.
    assert (Qgtb (mf x) mm = false) as ->; [|done].
    apply Qgtb_false. rewrite H1, mf_zero. lra.
  - split; reflexivity.
Qed.

Lemma largestOfMaximum_zero_value (v : Q) :
  largestOfMaximum fuel mf options = Returns v -> v = opt_max options.
Proof.
  unfold largestOfMaximum. cbv zeta.
  destruct (sampleStep _ _ _) as [step| |]; try done.
  unfold mbind, outcome_bind.
  destruct (forDown fuel _ step _ _ _) as [res| |] eqn:E; try done.
  apply (forDown_invariant _ step _
           (fun _ s => fst s == 0 /\ snd s = opt_max options) (fun _ => False)) in E.
  - destruct res as [[mm sm]|r]; [|done]. destruct E as (x' & [_ H] & _).
    simpl in H. subst sm. by intros [= <-].
  - intros x [mm sm] _ [H1 H2]. simpl in *.
    assert (Qgtb (mf x) mm = false) as ->; [|done].
    apply Qgtb_false. rewrite H1, mf_zero. lra.
  - split; reflexivity.
Qed.

End ZeroValues.

Lemma antecedentStrengths_nothing (orOp : Q -> list Q -> Q) (entries : RuleCondition) :
  antecedentStrengths orOp [] entries = [].
Proof. induction entries as [|[varName terms] entries IH]; simpl; done. Qed.

Lemma firingStrength_nothing (e : FuzzyEngine) (rule : FuzzyRule) :
  firingStrengthOf e [] rule == 0.
Proof.
  unfold firingStrengthOf. cbv zeta. rewrite antecedentStrengths_nothing.
  destruct (rule_weight rule); [ring|reflexivity].
Qed.

Lemma aggregateMFs_zero (e : FuzzyEngine) (mfs : list MembershipFunction) (x : Q) :
  (forall mf, In mf mfs -> mf x == 0) -> aggregateMFs e mfs x == 0.
Proof.
  intros Hin. apply Qle_antisym.
  - unfold aggregateMFs.
    destruct mfs as [|mf [|mf' more]]; [lra|rewrite (Hin mf); [lra|by left]|].
    destruct (String.eqb _ _).
    + destruct (mathMax_spec (map (fun m => m x) (mf' :: more)) (mf x))
        as ([->|(y & Hy & ->)] & _).
      * rewrite (Hin mf); [lra|by left].
      * apply in_map_iff in Hy as (m & <- & Hm). rewrite (Hin m); [lra|by right].
    + assert (forall l acc, (forall m, In m l -> m x == 0) -> acc == 0 ->
                fold_left (fun sum (mf' : MembershipFunction) => sum + mf' x) l acc == 0)
        as Hsum.
      { induction l as [|m l IH]; intros acc Hl Hacc; simpl; [done|].
        apply IH; [intros m' Hm'; apply Hl; by right|].
        rewrite Hacc, (Hl m); [ring|by left]. }
      rewrite (Hsum _ 0 Hin); [|reflexivity]. minmax_cases; lra.
  - apply aggregateMFs_nonneg. intros mf Hmf. rewrite (Hin mf Hmf). lra.
Qed.


Lemma fanEngine_ranges (name : string) (variable : EngineVariable) :
  variables fanEngine !! name = Some variable ->
  fst (var_range variable) < snd (var_range variable).
Proof.
  unfold fanEngine, setResolution. cbn [variables].
  rewrite addRules_variables. unfold exampleEngine, addOutput, addVariable.
  cbn [variables withVariables].
  intros H. apply lookup_insert_Some in H as [[_ <-]|[_ H]]; [reflexivity|].
  apply lookup_insert_Some in H as [[_ <-]|[_ H]]; [|done].
  vm_compute. reflexivity.
Qed.


(* ===================================================================== *)
(** * defuzzification.ts: what the defuzzifiers compute *)
(* ===================================================================== *)

Lemma nthSample_mono (lo step : Q) (j k : nat) :
  0 < step -> (j <= k)%nat -> nthSample lo step j <= nthSample lo step k.
Proof.
  intros Hs Hjk. induction Hjk as [|k Hjk IH]; [lra|]. simpl. lra.
Qed.

Lemma nthSample_before (lo step hi : Q) (j k : nat) :
  0 < step -> nthSample lo step j <= hi -> hi < nthSample lo step k -> (j < k)%nat.
Proof.
  intros Hs Hj Hk. destruct (Nat.lt_ge_cases j k) as [H|H]; [done|].
  pose proof (nthSample_mono lo step k j Hs H). lra.
Qed.





(* ===================================================================== *)
(** * hedges.ts *)
(* ===================================================================== *)

Lemma Qcube (q : Q) : q ^ 3 == q * q * q.
Proof. simpl. ring. Qed.

Lemma Qfourth (q : Q) : q ^ 4 == q * q * q * q.
Proof. simpl. ring. Qed.


